(** * withSentry: request-scoped telemetry lifecycle of a Next.js API route

    A shallow embedding of [packages/nextjs/src/utils/withSentry.ts]:
    the string helpers behind the transaction name, the trace-propagation
    token, and the event loop on which the wrapped handler, the wrapped
    [res.end] and [finishSentryWork] interleave. *)

From Stdlib Require Import String Ascii List ZArith NArith Lia Bool Arith Permutation.
Import ListNotations.
Open Scope string_scope.

(** ** Strings *)

Module Str.

Fixpoint drop (n : nat) (s : string) : string :=
  match n, s with
  | O, _ => s
  | S n', String _ s' => drop n' s'
  | S _, EmptyString => EmptyString
  end.

(** The text before and the text after the first occurrence of [pat] in
    [s], or [None] when [pat] does not occur. *)
Fixpoint splitFirst (pat s : string) : option (string * string) :=
  if prefix pat s then Some (EmptyString, drop (String.length pat) s)
  else match s with
       | EmptyString => None
       | String c s' =>
           match splitFirst pat s' with
           | Some (before, after) => Some (String c before, after)
           | None => None
           end
       end.

(** ECMAScript GetSubstitution for a string pattern (no capture groups):
    [$$], [$&], [$`] and [$'] are expanded, every other [$] is literal. *)
Fixpoint getSubstitution (matched before after replacement : string) : string :=
  match replacement with
  | EmptyString => EmptyString
  | String "$" (String "$" r) => String "$" (getSubstitution matched before after r)
  | String "$" (String "&" r) => matched ++ getSubstitution matched before after r
  | String "$" (String "`" r) => before ++ getSubstitution matched before after r
  | String "$" (String "'" r) => after ++ getSubstitution matched before after r
  | String c r => String c (getSubstitution matched before after r)
  end.

(** [String.prototype.replace(pattern, replacement)] with a string
    pattern: only the first occurrence is replaced. *)
Definition replace (s pat replacement : string) : string :=
  match splitFirst pat s with
  | Some (before, after) => before ++ getSubstitution pat before after replacement ++ after
  | None => s
  end.

Definition upperChar (c : ascii) : ascii :=
  let n := nat_of_ascii c in
  if (97 <=? n)%nat && (n <=? 122)%nat then ascii_of_nat (n - 32) else c.

(** [toUpperCase] on the ASCII range, which is where HTTP methods live. *)
Fixpoint toUpperCase (s : string) : string :=
  match s with
  | EmptyString => EmptyString
  | String c s' => String (upperChar c) (toUpperCase s')
  end.

Fixpoint noDollar (s : string) : bool :=
  match s with
  | EmptyString => true
  | String c s' => negb (Ascii.eqb c "$") && noDollar s'
  end.

End Str.

(** ** Transaction name (withSentry.ts, lines 49-64) *)

(** Modelled from the spec: [stripUrlQueryAndFragment] is imported from
    [@sentry/utils] and its code is missing here; the wrapper uses it to
    "pull off query string, if any", so the url is cut at the first [?]
    or [#]. *)
Fixpoint stripUrlQueryAndFragment (url : string) : string :=
  match url with
  | EmptyString => EmptyString
  | String c rest =>
      if Ascii.eqb c "?" || Ascii.eqb c "#" then EmptyString
      else String c (stripUrlQueryAndFragment rest)
  end.

(** [req.query] as [Object.entries] enumerates it: (key, value) pairs in
    enumeration order, each value already converted by the template
    literal [`${value}`]. *)
Definition Query := list (string * string).

(** The loop of lines 56-58. *)
Definition replaceQueryValues (reqPath : string) (query : Query) : string :=
  fold_left (fun p kv => Str.replace p (snd kv) ("[" ++ fst kv ++ "]")) query reqPath.

(** [req.method || 'GET']: an absent or empty method is falsy. *)
Definition methodOrGet (method : option string) : string :=
  match method with
  | Some EmptyString | None => "GET"
  | Some m => m
  end.

Definition transactionName (method : option string) (url : string) (query : option Query) : string :=
  let reqPath := stripUrlQueryAndFragment url in
  let reqPath := match query with Some q => replaceQueryValues reqPath q | None => reqPath end in
  let reqMethod := Str.toUpperCase (methodOrGet method) ++ " " in
  reqMethod ++ reqPath.

(** ** Trace propagation token *)

Module Traceparent.

Definition isHexDigit (c : ascii) : bool :=
  let n := nat_of_ascii c in
  ((48 <=? n)%nat && (n <=? 57)%nat) || ((97 <=? n)%nat && (n <=? 102)%nat).

Fixpoint allHex (s : string) : bool :=
  match s with
  | EmptyString => true
  | String c s' => isHexDigit c && allHex s'
  end.

(** Reads exactly [n] hex digits off the front of [s]. *)
Fixpoint takeHex (n : nat) (s : string) : option (string * string) :=
  match n with
  | O => Some (EmptyString, s)
  | S n' =>
      match s with
      | String c s' =>
          if isHexDigit c then
            match takeHex n' s' with
            | Some (digits, rest) => Some (String c digits, rest)
            | None => None
            end
          else None
      | EmptyString => None
      end
  end.

Definition takeDash (s : string) : option string :=
  match s with
  | String "-" s' => Some s'
  | _ => None
  end.

Record Token := mkToken {
  version : string;
  traceId : string;
  spanId : string;
  flags : string
}.

(** The sampling decision carried by the flags field: the test of
    [fromTraceparent] expects flags [00] to give an unrecorded span. *)
Definition sampled (t : Token) : bool := String.eqb (flags t) "01".

(** Modelled from the spec: the parser of the propagation header,
    [extractTraceparentData], is imported from [@sentry/tracing] and its
    code is missing here.  "Input must match
    the format <2-hex-version>-<32-hex-traceId>-<16-hex-spanId>-<2-hex-flags>;
    any other shape yields none".  Hex digits are [0-9a-f], as in the
    tokens of the Span test. *)
Definition extractTraceparentData (header : string) : option Token :=
  match takeHex 2 header with
  | Some (v, r1) =>
    match takeDash r1 with
    | Some r2 =>
      match takeHex 32 r2 with
      | Some (t, r3) =>
        match takeDash r3 with
        | Some r4 =>
          match takeHex 16 r4 with
          | Some (p, r5) =>
            match takeDash r5 with
            | Some r6 =>
              match takeHex 2 r6 with
              | Some (f, EmptyString) => Some (mkToken v t p f)
              | _ => None
              end
            | None => None
            end
          | None => None
          end
        | None => None
        end
      | None => None
      end
    | None => None
    end
  | None => None
  end.

(** The format as the spec words it, independently of the parser. *)
Definition hexField (n : nat) (s : string) : Prop :=
  String.length s = n /\ allHex s = true.

Definition render (t : Token) : string :=
  version t ++ "-" ++ traceId t ++ "-" ++ spanId t ++ "-" ++ flags t.

Definition wellFormed (header : string) : Prop :=
  exists t : Token,
    header = render t /\
    hexField 2 (version t) /\ hexField 32 (traceId t) /\
    hexField 16 (spanId t) /\ hexField 2 (flags t).

(** Spans as the Span test of the tracing package sees them. *)
#[local] Unset Elimination Schemes.
Inductive Span : Type :=
  mkSpan (_traceId _spanId : string) (_recorded : bool) (_parent : option Span).
#[local] Set Elimination Schemes.

Definition span_traceId (s : Span) := let (t, _, _, _) := s in t.
Definition span_spanId (s : Span) := let (_, i, _, _) := s in i.
Definition span_recorded (s : Span) := let (_, _, r, _) := s in r.
Definition span_parent (s : Span) := let (_, _, _, p) := s in p.

(** Modelled from the spec: [toTraceparent] belongs to the Span class,
    whose code is missing here; the token is built in the wire format,
    version [00]. *)
Definition toTraceparent (s : Span) : string :=
  "00-" ++ span_traceId s ++ "-" ++ span_spanId s ++ "-" ++
  (if span_recorded s then "01" else "00").

Definition hexChar (n : N) : ascii :=
  nth (N.to_nat (n mod 16)) (list_ascii_of_string "0123456789abcdef") "0"%char.

Fixpoint hexDigits (k : nat) (n : N) : string :=
  match k with
  | O => EmptyString
  | S k' => hexDigits k' (n / 16) ++ String (hexChar n) EmptyString
  end.

(** Modelled from the spec: span ids come from the backend's random
    source, whose code is missing here.  "new spanId always
    generated, distinct from parent's": the id is drawn from [entropy]
    and a draw that hits the parent's id is redrawn. *)
Definition generateSpanId (entropy : N) (parentSpanId : string) : string :=
  let candidate := hexDigits 16 entropy in
  if String.eqb candidate parentSpanId then hexDigits 16 (entropy + 1) else candidate.

(** Modelled from the spec: a span continuing the trace of the token,
    child of the span the token names (the Span test: same trace id,
    parent with the token's span id, a span id of its own, unrecorded). *)
Definition fromTraceparent (entropy : N) (header : string) : option Span :=
  match extractTraceparentData header with
  | Some t =>
      let parent := mkSpan (traceId t) (spanId t) (sampled t) None in
      Some (mkSpan (traceId t) (generateSpanId entropy (spanId t)) false (Some parent))
  | None => None
  end.

End Traceparent.

(** ** Values, boxing and the telemetry backend's data *)

Inductive jsval : Type :=
| VUndefined
| VString (s : string)
| VNumber (z : Z)
| VBoolean (b : bool)
| VObject (ref : nat).

(** What lives at an object reference: an ordinary object (an [Error],
    say) or the wrapper object around a primitive. *)
Inductive cell : Type :=
| Plain
| Boxed (primitive : jsval).

(** Modelled from the spec: [objectify] is imported from [@sentry/utils]
    and its code is missing here.  "Box the raised value if it is a
    primitive into a tagged wrapper": an object is returned as it is,
    anything else gets a wrapper object of its own, at a fresh
    reference. *)
Definition objectify (wat : jsval) (heap : list cell) : jsval * list cell :=
  match wat with
  | VObject _ => (wat, heap)
  | _ => (VObject (List.length heap), (heap ++ [Boxed wat])%list)
  end.

Record Mechanism := mkMechanism {
  mechanismType : string;
  handled : bool;
  wrapped_handler : string;
  function : string
}.

(** Event processors registered on the current scope. *)
Inductive processor : Type :=
| ParseRequest
| ExceptionMechanism (m : Mechanism).

Record Transaction := mkTransaction {
  name : string;
  op : string;
  parent : option Traceparent.Token;
  txSpanId : string;
  httpStatus : option Z;
  endTimestamp : option nat
}.

(** Modelled from the spec: [transaction.setHttpStatus] belongs to the
    tracing package; it "sets transaction.httpStatus from the response's
    status code". *)
Definition setHttpStatus (code : Z) (tx : Transaction) : Transaction :=
  mkTransaction (name tx) (op tx) (parent tx) (txSpanId tx) (Some code) (endTimestamp tx).

(** Modelled from the spec: [transaction.finish] belongs to the tracing
    package; "invoking finish twice on an already-finished transaction is
    a no-op, guarded by an internal already-finished flag".  The flag is
    the end timestamp. *)
Definition finish (now : nat) (tx : Transaction) : Transaction :=
  match endTimestamp tx with
  | Some _ => tx
  | None => mkTransaction (name tx) (op tx) (parent tx) (txSpanId tx) (httpStatus tx) (Some now)
  end.

Definition isFinished (tx : Transaction) : bool :=
  match endTimestamp tx with Some _ => true | None => false end.

(** Modelled from the spec: [startTransaction] of the backend "creates a
    Transaction, child of parent if provided (new spanId always
    generated, distinct from parent's)". *)
Definition startTransaction (entropy : N) (name op : string)
    (traceparentData : option Traceparent.Token) : Transaction :=
  let spanId :=
    match traceparentData with
    | Some t => Traceparent.generateSpanId entropy (Traceparent.spanId t)
    | None => Traceparent.hexDigits 16 entropy
    end in
  mkTransaction name op traceparentData spanId None None.

(** The response, [AugmentedNextApiResponse]. *)
Record Response := mkResponse {
  statusCode : Z;
  statusMessage : string;
  finished : bool;
  __sentryTransaction : option Transaction;
  __sentryCapturedError : option jsval
}.

(** A response as the server hands it to the route. *)
Definition newResponse : Response := mkResponse 200 "" false None None.

(** ** The route handler and its environment *)

(** What the wrapped handler can do that the wrapper can observe.  The
    handler is taken as an async function: a script of steps, cut into
    synchronous stretches by its awaits, then a return or a throw. *)
Inductive hstep : Type :=
| HSetStatus (code : Z)   (* res.statusCode = code *)
| HEnd                    (* res.end(...), not awaited *)
| HAwaitTick              (* await of a settled promise: resumes in a microtask *)
| HAwaitImmediate.        (* await of I/O or a timer: resumes in a later turn *)

Inductive hresult : Type :=
| HReturn (v : jsval)
| HThrow (e : jsval).

Record Handler := mkHandler {
  handlerName : string;
  steps : list hstep;
  result : hresult
}.

Inductive FlushOutcome : Type :=
| FlushResolved (sent : bool)
| FlushRejected (err : jsval).

(** One call of the backend's [flush]: how many turns of the event loop
    it takes to settle (0: within the microtasks of the current turn)
    and how it settles. *)
Record FlushBehaviour := mkFlush {
  turns : nat;
  settles : FlushOutcome
}.

Definition defaultFlush : FlushBehaviour := mkFlush 1 (FlushResolved true).

Record Env := mkEnv {
  hasScope : bool;                  (* getCurrentHub().getScope() is defined *)
  tracingEnabled : bool;            (* hasTracingEnabled() *)
  flushScript : list FlushBehaviour; (* behaviour of the successive flush calls *)
  spanEntropy : N;                  (* the backend's random source *)
  heap0 : list cell                 (* objects alive when the request arrives *)
}.

Record Request := mkRequest {
  url : string;
  method : option string;
  query : option Query;
  sentryTrace : option string      (* req.headers['sentry-trace'] when it is a string *)
}.

(** ** The event loop *)

(** Who is waiting for [finishSentryWork]: an invocation of the wrapped
    [end] (numbered in call order) or the catch block, which holds the
    boxed error. *)
Inductive caller : Type :=
| ByNewEnd (id : nat)
| ByCatch (objectifiedErr : jsval).

Inductive outcome : Type :=
| Resolved (v : jsval)
| Rejected (e : jsval).

(** Continuations waiting in the queues, one per await of the source. *)
Inductive task : Type :=
| THandler (rest : list hstep) (r : hresult)
| TAfterHandler (r : hresult)              (* line 81 resumes *)
| TFinishCallback (c : caller)             (* the setImmediate callback, lines 196-199 *)
| TAfterTransactionFinished (c : caller)   (* line 201 resumes *)
| TFlushPending (n : nat) (o : FlushOutcome) (c : caller) (* the backend is still draining *)
| TAfterFlush (o : FlushOutcome) (c : caller)             (* line 208 resumes *)
| TAfterFinishSentryWork (c : caller)      (* line 176 or line 156 resumes *)
| THostResume (o : outcome).               (* the host's await of the wrapper resumes *)

Inductive event : Type :=
| EvStartTransaction (tx : Transaction)
| EvNewEnd (id : nat)
| EvSetHttpStatus (c : caller) (code : Z)
| EvTransactionFinish (c : caller) (status : option Z) (effective : bool)
| EvFlushCalled (c : caller) (timeout : Z)
| EvFlushSettled (c : caller) (o : FlushOutcome)
| EvSetFinished (c : option caller) (b : bool)
| EvOrigEnd (id : nat) (writeAfterEnd : bool)
| EvCaptureException (e : jsval) (processors : list processor)
| EvSetStatus (code : Z) (message : string)
| EvWrapperSettled (o : outcome)
| EvHostCheck (finished : bool)
| EvHostCaught (e : jsval).

Record State := mkState {
  res : Response;
  processors : list processor;
  heap : list cell;
  micro : list task;      (* microtask queue, first in first out *)
  macro : list task;      (* setImmediate and backend callbacks *)
  turn : nat;             (* turns of the event loop so far *)
  flushCalls : nat;
  endCalls : nat;
  log : list (nat * event) (* most recent first, stamped with the turn *)
}.

Definition emit (e : event) (st : State) : State :=
  mkState (res st) (processors st) (heap st) (micro st) (macro st) (turn st)
          (flushCalls st) (endCalls st) ((turn st, e) :: log st).

Definition pushMicro (t : task) (st : State) : State :=
  mkState (res st) (processors st) (heap st) (micro st ++ [t])%list (macro st) (turn st)
          (flushCalls st) (endCalls st) (log st).

Definition pushMacro (t : task) (st : State) : State :=
  mkState (res st) (processors st) (heap st) (micro st) (macro st ++ [t])%list (turn st)
          (flushCalls st) (endCalls st) (log st).

Definition setRes (r : Response) (st : State) : State :=
  mkState r (processors st) (heap st) (micro st) (macro st) (turn st)
          (flushCalls st) (endCalls st) (log st).

Definition addEventProcessor (p : processor) (st : State) : State :=
  mkState (res st) (processors st ++ [p])%list (heap st) (micro st) (macro st) (turn st)
          (flushCalls st) (endCalls st) (log st).

Definition setHeap (h : list cell) (st : State) : State :=
  mkState (res st) (processors st) h (micro st) (macro st) (turn st)
          (flushCalls st) (endCalls st) (log st).

Definition countFlush (st : State) : State :=
  mkState (res st) (processors st) (heap st) (micro st) (macro st) (turn st)
          (S (flushCalls st)) (endCalls st) (log st).

Definition countEnd (st : State) : State :=
  mkState (res st) (processors st) (heap st) (micro st) (macro st) (turn st)
          (flushCalls st) (S (endCalls st)) (log st).

Definition setStatus (code : Z) (message : string) (r : Response) : Response :=
  mkResponse code message (finished r) (__sentryTransaction r) (__sentryCapturedError r).

Definition setStatusCode (code : Z) (r : Response) : Response :=
  mkResponse code (statusMessage r) (finished r) (__sentryTransaction r) (__sentryCapturedError r).

Definition setFinished (b : bool) (r : Response) : Response :=
  mkResponse (statusCode r) (statusMessage r) b (__sentryTransaction r) (__sentryCapturedError r).

Definition setTransaction (tx : Transaction) (r : Response) : Response :=
  mkResponse (statusCode r) (statusMessage r) (finished r) (Some tx) (__sentryCapturedError r).

Section EventLoop.

Variable env : Env.
Variable origHandler : Handler.

(** [await flush(2000)], line 208: the call, and where the continuation
    goes. *)
Definition callFlush (c : caller) (st : State) : State :=
  let b := nth (flushCalls st) (flushScript env) defaultFlush in
  let st := countFlush (emit (EvFlushCalled c 2000) st) in
  match turns b with
  | O => pushMicro (TAfterFlush (settles b) c) st
  | S n => pushMacro (TFlushPending n (settles b) c) st
  end.

(** [finishSentryWork], lines 187-202: up to its first await. *)
Definition finishSentryWork (c : caller) (st : State) : State :=
  match __sentryTransaction (res st) with
  | Some transaction =>
      let code := statusCode (res st) in
      let st := setRes (setTransaction (setHttpStatus code transaction) (res st)) st in
      pushMacro (TFinishCallback c) (emit (EvSetHttpStatus c code) st)
  | None => callFlush c st
  end.

(** [newEnd], lines 173-176: up to its await. *)
Definition newEnd (st : State) : State :=
  let id := endCalls st in
  finishSentryWork (ByNewEnd id) (emit (EvNewEnd id) (countEnd st)).

(** The original [res.end], as the comments of lines 87 and 178 describe
    it: it marks the response finished, and faults with
    [ERR_STREAM_WRITE_AFTER_END] when the response is marked already. *)
Definition origEnd (id : nat) (st : State) : State :=
  let fault := finished (res st) in
  emit (EvOrigEnd id fault) (setRes (setFinished true (res st)) st).

Definition mechanism : Mechanism :=
  mkMechanism "instrument" true (handlerName origHandler) "withSentry".

(** The catch block, lines 121-156: up to its await. *)
Definition catchBlock (e : jsval) (st : State) : State :=
  let (objectifiedErr, heap') := objectify e (heap st) in
  let st := setHeap heap' st in
  let st :=
    if hasScope env then
      let st := addEventProcessor (ExceptionMechanism mechanism) st in
      emit (EvCaptureException objectifiedErr (processors st)) st
    else st in
  let st := emit (EvSetStatus 500 "Internal Server Error")
                 (setRes (setStatus 500 "Internal Server Error" (res st)) st) in
  finishSentryWork (ByCatch objectifiedErr) st.

(** The handler runs until it awaits or ends; line 81 awaits its end. *)
Fixpoint runHandler (rest : list hstep) (r : hresult) (st : State) : State :=
  match rest with
  | [] => pushMicro (TAfterHandler r) st
  | HSetStatus code :: rest' => runHandler rest' r (setRes (setStatusCode code (res st)) st)
  | HEnd :: rest' => runHandler rest' r (newEnd st)
  | HAwaitTick :: rest' => pushMicro (THandler rest' r) st
  | HAwaitImmediate :: rest' => pushMacro (THandler rest' r) st
  end.

Definition runTask (t : task) (st : State) : State :=
  match t with
  | THandler rest r => runHandler rest r st
  | TAfterHandler (HReturn v) =>
      (* lines 111-120 *)
      let st := emit (EvSetFinished None true) (setRes (setFinished true (res st)) st) in
      pushMicro (THostResume (Resolved v)) (emit (EvWrapperSettled (Resolved v)) st)
  | TAfterHandler (HThrow e) => catchBlock e st
  | TFinishCallback c =>
      (* lines 197-198 *)
      match __sentryTransaction (res st) with
      | Some transaction =>
          let st' := setRes (setTransaction (finish (turn st) transaction) (res st)) st in
          pushMicro (TAfterTransactionFinished c)
            (emit (EvTransactionFinish c (httpStatus transaction) (negb (isFinished transaction))) st')
      | None => pushMicro (TAfterTransactionFinished c) st
      end
  | TAfterTransactionFinished c => callFlush c st
  | TFlushPending O o c => pushMicro (TAfterFlush o c) st
  | TFlushPending (S n) o c => pushMacro (TFlushPending n o c) st
  | TAfterFlush o c =>
      (* lines 209-212: either way finishSentryWork returns normally *)
      pushMicro (TAfterFinishSentryWork c) (emit (EvFlushSettled c o) st)
  | TAfterFinishSentryWork (ByNewEnd id) =>
      (* lines 180-183 *)
      let st := emit (EvSetFinished (Some (ByNewEnd id)) false)
                     (setRes (setFinished false (res st)) st) in
      origEnd id st
  | TAfterFinishSentryWork (ByCatch objectifiedErr) =>
      (* line 159 *)
      pushMicro (THostResume (Rejected objectifiedErr))
                (emit (EvWrapperSettled (Rejected objectifiedErr)) st)
  | THostResume (Resolved _) => emit (EvHostCheck (finished (res st))) st
  | THostResume (Rejected e) => emit (EvHostCaught e) st
  end.

(** One task: microtasks first; when there is none, the loop turns and
    takes the next callback. *)
Definition step (st : State) : option State :=
  match micro st with
  | t :: q =>
      Some (runTask t (mkState (res st) (processors st) (heap st) q (macro st) (turn st)
                               (flushCalls st) (endCalls st) (log st)))
  | [] =>
      match macro st with
      | t :: q =>
          Some (runTask t (mkState (res st) (processors st) (heap st) [] q (S (turn st))
                                   (flushCalls st) (endCalls st) (log st)))
      | [] => None
      end
  end.

Fixpoint run (fuel : nat) (st : State) : State :=
  match fuel with
  | O => st
  | S fuel' => match step st with Some st' => run fuel' st' | None => st end
  end.

Definition quiescent (st : State) : Prop := micro st = [] /\ macro st = [].

(** The wrapper, lines 21-81: up to the first await of the handler. *)
Definition withSentry (req : Request) : State :=
  let st := mkState newResponse [] (heap0 env) [] [] 0 0 0 [] in
  let st :=
    if hasScope env then
      let st := addEventProcessor ParseRequest st in
      if tracingEnabled env then
        let traceparentData :=
          match sentryTrace req with
          | Some header => Traceparent.extractTraceparentData header
          | None => None
          end in
        let transaction :=
          startTransaction (spanEntropy env)
            (transactionName (method req) (url req) (query req)) "http.server" traceparentData in
        emit (EvStartTransaction transaction) (setRes (setTransaction transaction (res st)) st)
      else st
    else st in
  runHandler (steps origHandler) (result origHandler) st.

End EventLoop.

Definition events (st : State) : list event := map snd (log st).

(** ** The sentences of the specification, as stated *)

(** "path /a/5/b/5 with query map x: 5, y: 5 yields /a/[x]/b/[x]". *)
Definition bothOccurrencesCollapseToFirstKey : Prop :=
  replaceQueryValues "/a/5/b/5" [("x", "5"); ("y", "5")] = "/a/[x]/b/[x]".

(** ** Reading the log *)

Definition jsval_eqb (a b : jsval) : bool :=
  match a, b with
  | VUndefined, VUndefined => true
  | VString s, VString t => String.eqb s t
  | VNumber x, VNumber y => Z.eqb x y
  | VBoolean x, VBoolean y => Bool.eqb x y
  | VObject r, VObject q => Nat.eqb r q
  | _, _ => false
  end.

Definition caller_eqb (a b : caller) : bool :=
  match a, b with
  | ByNewEnd i, ByNewEnd j => Nat.eqb i j
  | ByCatch e, ByCatch f => jsval_eqb e f
  | _, _ => false
  end.

Definition isNewEnd (id : nat) (e : event) : bool :=
  match e with EvNewEnd i => Nat.eqb i id | _ => false end.

Definition isOrigEnd (id : nat) (e : event) : bool :=
  match e with EvOrigEnd i _ => Nat.eqb i id | _ => false end.

Definition isAnyOrigEnd (e : event) : bool :=
  match e with EvOrigEnd _ _ => true | _ => false end.

Definition isWriteAfterEnd (e : event) : bool :=
  match e with EvOrigEnd _ fault => fault | _ => false end.

Definition isFinishBy (c : caller) (e : event) : bool :=
  match e with EvTransactionFinish c' _ _ => caller_eqb c' c | _ => false end.

Definition isAnyFinish (e : event) : bool :=
  match e with EvTransactionFinish _ _ _ => true | _ => false end.

Definition isEffectiveFinish (e : event) : bool :=
  match e with EvTransactionFinish _ _ effective => effective | _ => false end.

Definition isFlushSettledFor (c : caller) (e : event) : bool :=
  match e with EvFlushSettled c' _ => caller_eqb c' c | _ => false end.

Definition isStatus500 (e : event) : bool :=
  match e with
  | EvSetStatus code message => Z.eqb code 500 && String.eqb message "Internal Server Error"
  | _ => false
  end.

Definition isRejection (b : jsval) (e : event) : bool :=
  match e with EvWrapperSettled (Rejected b') => jsval_eqb b' b | _ => false end.

Definition isHostEvent (e : event) : bool :=
  match e with EvHostCheck _ | EvHostCaught _ => true | _ => false end.

Definition count (p : event -> bool) (l : list event) : nat :=
  List.length (filter p l).

(** In a log (most recent event first), every event satisfying [q] has
    an event satisfying [p] before it in time. *)
Definition precededBy (p q : event -> bool) (l : list event) : Prop :=
  forall newer e older, l = (newer ++ e :: older)%list -> q e = true -> existsb p older = true.

(** How the wrapper's promise settled, and what went to
    [captureException] with which event processors on the scope. *)
Definition settlements (l : list event) : list outcome :=
  flat_map (fun e => match e with EvWrapperSettled o => [o] | _ => [] end) l.

Definition captured (l : list event) : list (jsval * list processor) :=
  flat_map (fun e => match e with EvCaptureException b ps => [(b, ps)] | _ => [] end) l.

Definition countEnds (l : list hstep) : nat :=
  List.length (filter (fun s => match s with HEnd => true | _ => false end) l).

Definition origEndRuns (st : State) : nat := count isAnyOrigEnd (events st).

(** ** More sentences of the specification, as stated *)

(** "For every request, the real completion primitive runs exactly once". *)
Definition realEndRunsExactlyOncePerRequest (env : Env) (h : Handler) (req : Request) : Prop :=
  forall fuel,
    let st := run env h fuel (withSentry env h req) in
    quiescent st -> origEndRuns st = 1.



(** ** Sample requests *)

Definition sampleRequest : Request :=
  mkRequest "/a/5/b/5" None (Some [("x", "5"); ("y", "5")]) None.

(** Tracing configured; the backend drains in one turn. *)
Definition tracingEnv : Env := mkEnv true true [] 255 [].

(** No client configured: tracing is off and [flush] rejects at once. *)
Definition noClientEnv : Env :=
  mkEnv true false [mkFlush 0 (FlushRejected (VBoolean false))] 255 [].

(** Tracing configured; the backend fails every drain, the first at
    once, the second two turns later. *)
Definition failingFlushEnv : Env :=
  mkEnv true true
        [mkFlush 0 (FlushRejected (VString "network error"));
         mkFlush 2 (FlushRejected (VString "timeout"))] 255 [].

Definition endsOnce : Handler := mkHandler "handler" [HEnd] (HReturn VUndefined).
Definition endsTwice : Handler := mkHandler "handler" [HEnd; HEnd] (HReturn VUndefined).
Definition throwsBoom : Handler := mkHandler "handler" [] (HThrow (VString "boom")).


(** [f 0 + ... + f (n - 1)]. *)
Fixpoint sumTo (n : nat) (f : nat -> nat) : nat :=
  match n with
  | O => 0
  | S k => f k + sumTo k f
  end.

(** ** Bookkeeping for the proofs *)

Definition taskCaller (t : task) : option caller :=
  match t with
  | TFinishCallback c | TAfterTransactionFinished c | TFlushPending _ _ c
  | TAfterFlush _ c | TAfterFinishSentryWork c => Some c
  | _ => None
  end.

Definition waitsFor (c : caller) (t : task) : bool :=
  match taskCaller t with Some c' => caller_eqb c' c | None => false end.

(** Number of queued continuations that belong to caller [c]. *)
Definition pending (c : caller) (q : list task) : nat :=
  List.length (filter (waitsFor c) q).

(** The wrapper's own thread: the handler, the catch block, the host. *)
Definition isMainTask (t : task) : bool :=
  match t with
  | THandler _ _ | TAfterHandler _ | THostResume _ => true
  | _ => match taskCaller t with Some (ByCatch _) => true | _ => false end
  end.

Definition mainPending (q : list task) : nat := List.length (filter isMainTask q).

(** Everything that is queued, whichever the queue. *)
Definition tasks (st : State) : list task := (micro st ++ macro st)%list.

(** The continuation that [callFlush] and [finishSentryWork] queue. *)
Definition flushTask (env : Env) (c : caller) (st : State) : task :=
  let b := nth (flushCalls st) (flushScript env) defaultFlush in
  match turns b with
  | O => TAfterFlush (settles b) c
  | S n => TFlushPending n (settles b) c
  end.

Definition finishSentryWorkTask (env : Env) (c : caller) (st : State) : task :=
  match __sentryTransaction (res st) with
  | Some _ => TFinishCallback c
  | None => flushTask env c st
  end.

Definition hasTransaction (st : State) : bool :=
  match __sentryTransaction (res st) with Some _ => true | None => false end.

Definition taskReady (tx : bool) (l : list event) (t : task) : Prop :=
  match t with
  | TFinishCallback _ => tx = true
  | TAfterTransactionFinished c => existsb (isFinishBy c) l = true
  | TFlushPending _ _ c | TAfterFlush _ c => tx = true -> existsb (isFinishBy c) l = true
  | TAfterFinishSentryWork c => existsb (isFlushSettledFor c) l = true
  | _ => True
  end.

Definition eventReady (tx : bool) (older : list event) (e : event) : Prop :=
  match e with
  | EvFlushSettled c _ => tx = true -> existsb (isFinishBy c) older = true
  | EvOrigEnd id _ => existsb (isFlushSettledFor (ByNewEnd id)) older = true
  | EvWrapperSettled (Rejected b) => existsb (isFlushSettledFor (ByCatch b)) older = true
  | _ => True
  end.

Fixpoint orderedLog (tx : bool) (l : list event) : Prop :=
  match l with
  | [] => True
  | e :: older => eventReady tx older e /\ orderedLog tx older
  end.

(** Every finish that comes after the catch block set the status saw
    http status 500, and the catch block's own finish comes after it. *)
Fixpoint finishesSee500 (l : list event) : Prop :=
  match l with
  | [] => True
  | e :: older =>
      match e with
      | EvTransactionFinish c s _ =>
          (existsb isStatus500 older = true -> s = Some 500%Z) /\
          match c with ByCatch _ => existsb isStatus500 older = true | ByNewEnd _ => True end
      | _ => True
      end /\ finishesSee500 older
  end.

Definition httpStatus500 (r : Response) : Prop :=
  forall t, __sentryTransaction r = Some t -> httpStatus t = Some 500%Z.

Section Invariants.

Variable env : Env.
Variable origHandler : Handler.

Definition transactionAttached : bool := hasScope env && tracingEnabled env.

Definition boxedError (e : jsval) : jsval := fst (objectify e (heap0 env)).

(** What the wrapper's promise must settle to: the handler's own result,
    the raised value boxed. *)
Definition expectedOutcome : outcome :=
  match result origHandler with
  | HReturn v => Resolved v
  | HThrow e => Rejected (boxedError e)
  end.

Definition expectedCaptures : list (jsval * list processor) :=
  match result origHandler with
  | HThrow e =>
      if hasScope env
      then [(boxedError e, [ParseRequest; ExceptionMechanism (mechanism origHandler)])]
      else []
  | HReturn _ => []
  end.

Definition threadsOk (Q : list task) (st : State) : Prop :=
  hasTransaction st = transactionAttached /\
  Forall (taskReady transactionAttached (events st)) Q /\
  orderedLog transactionAttached (events st) /\
  (forall id, pending (ByNewEnd id) Q + count (isOrigEnd id) (events st)
              = if (id <? endCalls st)%nat then 1 else 0) /\
  (forall id, count (isNewEnd id) (events st) = if (id <? endCalls st)%nat then 1 else 0).

Definition handlerRunning (rest : list hstep) (r : hresult) (st : State) : Prop :=
  r = result origHandler /\
  heap st = heap0 env /\
  processors st = (if hasScope env then [ParseRequest] else []) /\
  settlements (events st) = [] /\
  captured (events st) = [] /\
  existsb isStatus500 (events st) = false /\
  endCalls st + countEnds rest = countEnds (steps origHandler).

Definition inCatch (b : jsval) (st : State) : Prop :=
  Rejected b = expectedOutcome /\
  settlements (events st) = [] /\
  captured (events st) = expectedCaptures /\
  existsb isStatus500 (events st) = true /\
  endCalls st = countEnds (steps origHandler).

Definition settled (o : outcome) (st : State) : Prop :=
  o = expectedOutcome /\
  settlements (events st) = [o] /\
  captured (events st) = expectedCaptures /\
  endCalls st = countEnds (steps origHandler).

Definition mainTaskOk (st : State) (t : task) : Prop :=
  match t with
  | THandler rest r => handlerRunning rest r st
  | TAfterHandler r => handlerRunning [] r st
  | THostResume o => settled o st
  | _ => match taskCaller t with Some (ByCatch b) => inCatch b st | _ => True end
  end.

Definition mainOk (Q : list task) (st : State) : Prop :=
  mainPending Q + count isHostEvent (events st) = 1 /\
  Forall (mainTaskOk st) Q /\
  (count isHostEvent (events st) = 1 -> settled expectedOutcome st) /\
  __sentryCapturedError (res st) = None /\
  (existsb isStatus500 (events st) = true ->
   statusCode (res st) = 500%Z /\
   statusMessage (res st) = "Internal Server Error" /\
   httpStatus500 (res st)) /\
  finishesSee500 (events st).

Definition finishOk (st : State) : Prop :=
  count isEffectiveFinish (events st) =
    match __sentryTransaction (res st) with
    | Some t => if isFinished t then 1 else 0
    | None => 0
    end /\
  count isWriteAfterEnd (events st) = 0 /\
  (count isEffectiveFinish (events st) = 0 -> count isAnyFinish (events st) = 0).

(** A bound on the tasks still to run, for termination. *)
Definition maxFlushTurns : nat :=
  fold_right Nat.max (turns defaultFlush) (map turns (flushScript env)).

Definition taskWeight (t : task) : nat :=
  match t with
  | THostResume _ => 1
  | TAfterFinishSentryWork _ => 2
  | TAfterFlush _ _ => 3
  | TFlushPending n _ _ => 4 + n
  | TAfterTransactionFinished _ => 5 + maxFlushTurns
  | TFinishCallback _ => 6 + maxFlushTurns
  | TAfterHandler _ => 8 + maxFlushTurns
  | THandler rest _ =>
      fold_right (fun s w => match s with
                             | HEnd => 7 + maxFlushTurns + w
                             | HSetStatus _ => w
                             | _ => 1 + w
                             end) (9 + maxFlushTurns) rest
  end.

Definition queueWeight (q : list task) : nat :=
  fold_right (fun t w => taskWeight t + w) 0 q.

Definition weight (st : State) : nat := queueWeight (micro st) + queueWeight (macro st).

End Invariants.

(** What holds of every state the wrapper can reach. *)
Definition invariant (env : Env) (h : Handler) (st : State) : Prop :=
  threadsOk env (tasks st) st /\ mainOk env h (tasks st) st /\ finishOk st.

(** ** Turns of the event loop *)

(** The wrapped end was entered for invocation [id] in a turn before
    turn [T]. *)
Definition enteredBefore (id T : nat) (lg : list (nat * event)) : Prop :=
  exists t0, In (t0, EvNewEnd id) lg /\ t0 < T.

Definition entryOk (older : list (nat * event)) (x : nat * event) : Prop :=
  match snd x with
  | EvSetFinished (Some (ByNewEnd id)) false => enteredBefore id (fst x) older
  | EvHostCheck f => f = true /\ In (fst x, EvSetFinished None true) older
  | _ => True
  end.

Fixpoint stampedLog (lg : list (nat * event)) : Prop :=
  match lg with
  | [] => True
  | x :: older => entryOk older x /\ stampedLog older
  end.

Definition poppedOk (st : State) (t : task) : Prop :=
  match t with
  | THostResume (Resolved _) =>
      finished (res st) = true /\ In (turn st, EvSetFinished None true) (log st)
  | _ =>
      match taskCaller t with
      | Some (ByNewEnd id) => enteredBefore id (turn st) (log st)
      | _ => True
      end
  end.

Definition microOk (st : State) (t : task) : Prop :=
  match t with
  | TFinishCallback _ => False
  | _ => poppedOk st t
  end.

Definition macroOk (st : State) (t : task) : Prop :=
  match t with
  | THostResume _ => False
  | _ =>
      match taskCaller t with
      | Some (ByNewEnd id) => enteredBefore id (S (turn st)) (log st)
      | _ => True
      end
  end.

Definition turnsOk (st : State) : Prop :=
  hasTransaction st = true /\
  Forall (microOk st) (micro st) /\
  Forall (macroOk st) (macro st) /\
  stampedLog (log st).


(** ** Further readings of paths, logs and states *)

(** [pat] occurs somewhere in [s]. *)
Definition occurs (pat s : string) : Prop :=
  exists before after, s = before ++ pat ++ after.


(** The status that the most recent [setHttpStatus] copied. *)
Fixpoint lastHttpStatus (l : list event) : option Z :=
  match l with
  | [] => None
  | EvSetHttpStatus _ code :: _ => Some code
  | _ :: older => lastHttpStatus older
  end.

Fixpoint finishesSeeLast (l : list event) : Prop :=
  match l with
  | [] => True
  | e :: older =>
      match e with
      | EvTransactionFinish _ s _ => s = lastHttpStatus older /\ s <> None
      | _ => True
      end /\ finishesSeeLast older
  end.

Definition isAnyNewEnd (e : event) : bool :=
  match e with EvNewEnd _ => true | _ => false end.

Definition statusCopyBase (st : State) : Prop :=
  (forall t, __sentryTransaction (res st) = Some t ->
             httpStatus t = lastHttpStatus (events st)) /\
  finishesSeeLast (events st) /\
  (lastHttpStatus (events st) <> None -> hasTransaction st = true).

(** Once the wrapped end or the catch block has been entered with a
    transaction on the response, a status has been copied. *)
Definition statusCopyOk (st : State) : Prop :=
  statusCopyBase st /\
  (hasTransaction st = true ->
   existsb isAnyNewEnd (events st) || existsb isStatus500 (events st) = true ->
   lastHttpStatus (events st) <> None).

Definition isResolution (e : event) : bool :=
  match e with EvWrapperSettled (Resolved _) => true | _ => false end.

Definition isFailedHostCheck (e : event) : bool :=
  match e with EvHostCheck f => negb f | _ => false end.

Definition isHostCaught (e : event) : bool :=
  match e with EvHostCaught _ => true | _ => false end.

Definition hostOk (st : State) : Prop :=
  (existsb isResolution (events st) = true -> finished (res st) = true) /\
  count isFailedHostCheck (events st) = 0 /\
  (0 < count isHostCaught (events st) ->
   exists b, In (Rejected b) (settlements (events st))).

(** The status code the handler's remaining steps leave behind. *)
Definition applyStatus (rest : list hstep) (code : Z) : Z :=
  fold_left (fun c s => match s with HSetStatus c' => c' | _ => c end) rest code.

Definition statusTaskOk (h : Handler) (st : State) (t : task) : Prop :=
  match t with
  | THandler rest _ => applyStatus rest (statusCode (res st)) = applyStatus (steps h) 200
  | TAfterHandler _ => statusCode (res st) = applyStatus (steps h) 200
  | _ => True
  end.

Definition successOk (h : Handler) (Q : list task) (st : State) : Prop :=
  Forall (statusTaskOk h st) Q /\
  (existsb isResolution (events st) = true ->
   statusCode (res st) = applyStatus (steps h) 200) /\
  (existsb isStatus500 (events st) = true -> exists e, result h = HThrow e).

(** A finish of the transaction has a cause in the log: an invocation of
    the wrapped end, or the catch block's status write. *)
Definition finishCause (l : list event) : bool :=
  existsb isAnyNewEnd l || existsb isStatus500 l.

Definition finishHasCause (st : State) : Prop :=
  existsb isAnyFinish (events st) = true -> finishCause (events st) = true.

(** Calls of [flush] and their settlements, against the calls of
    [finishSentryWork]: one by every invocation of the wrapped end, one by
    the catch block. *)
Definition isFlushCall (e : event) : bool :=
  match e with EvFlushCalled _ _ => true | _ => false end.

Definition isAnyFlushSettled (e : event) : bool :=
  match e with EvFlushSettled _ _ => true | _ => false end.

Definition beforeFlush (t : task) : bool :=
  match t with TFinishCallback _ | TAfterTransactionFinished _ => true | _ => false end.

Definition inFlush (t : task) : bool :=
  match t with TFlushPending _ _ _ | TAfterFlush _ _ => true | _ => false end.

Definition waiting (p : task -> bool) (Q : list task) : nat := List.length (filter p Q).

Definition finishSentryWorkCalls (st : State) : nat :=
  endCalls st + (if existsb isStatus500 (events st) then 1 else 0).

Definition flushesOk (Q : list task) (st : State) : Prop :=
  waiting beforeFlush Q + count isFlushCall (events st) = finishSentryWorkCalls st /\
  waiting inFlush Q + count isAnyFlushSettled (events st) = count isFlushCall (events st).

(** The wrapper rejects only after the catch block's status write. *)
Definition rejectionHas500 (st : State) : Prop :=
  forall b, existsb (isRejection b) (events st) = true ->
            existsb isStatus500 (events st) = true.

(** * Proofs *)

(** ** Strings and the transaction name *)

Lemma append_nil_r (s : string) : s ++ "" = s.
Proof. induction s; simpl; congruence. Qed.

Lemma append_assoc (a b c : string) : (a ++ b) ++ c = a ++ (b ++ c).
Proof. induction a; simpl; congruence. Qed.

Lemma length_append (a b : string) :
  String.length (a ++ b) = String.length a + String.length b.
Proof. induction a; simpl; auto. Qed.

Lemma prefix_drop (p s : string) :
  prefix p s = true -> s = p ++ Str.drop (String.length p) s.
Proof.
  revert s; induction p as [|a p IH]; intros s H.
  - reflexivity.
  - destruct s as [|b s]; simpl in H; [discriminate|].
    destruct (Ascii.ascii_dec a b) as [->|]; [|discriminate].
    simpl. f_equal. now apply IH.
Qed.

(** What [splitFirst] returns is a decomposition around the pattern. *)
Lemma splitFirst_decompose (pat s before after : string) :
  Str.splitFirst pat s = Some (before, after) -> s = before ++ pat ++ after.
Proof.
  revert before after; induction s as [|c s IH]; intros before after H.
  - cbn [Str.splitFirst] in H. destruct (prefix pat "") eqn:E; [|discriminate].
    inversion H; subst. simpl. now apply prefix_drop.
  - cbn [Str.splitFirst] in H.
    destruct (prefix pat (String c s)) eqn:E.
    + inversion H; subst. simpl. now apply prefix_drop.
    + destruct (Str.splitFirst pat s) as [[b a]|]; [|discriminate].
      inversion H; subst. simpl. f_equal. now apply IH.
Qed.

(** ... and no occurrence starts inside [before]: every proper start
    position before the match fails the prefix test. *)
Lemma splitFirst_first (pat s before after : string) :
  Str.splitFirst pat s = Some (before, after) ->
  forall b1 b2, before = b1 ++ b2 -> b2 <> "" -> prefix pat (b2 ++ pat ++ after) = false.
Proof.
  revert before after; induction s as [|c s IH]; intros before after H b1 b2 Hb Hne.
  - cbn [Str.splitFirst] in H. destruct (prefix pat ""); [|discriminate].
    injection H as Hbefore Hafter. subst before.
    destruct b1, b2; simpl in *; congruence.
  - cbn [Str.splitFirst] in H.
    destruct (prefix pat (String c s)) eqn:E.
    + injection H as Hbefore Hafter. subst before.
      destruct b1, b2; simpl in *; congruence.
    + destruct (Str.splitFirst pat s) as [[b a]|] eqn:Es; [|discriminate].
      injection H as Hbefore Hafter. subst before after.
      destruct b1 as [|x b1]; simpl in Hb.
      * subst b2. simpl. rewrite <- (splitFirst_decompose _ _ _ _ Es). exact E.
      * injection Hb as Hx Hb'. eapply IH; eauto.
Qed.

Lemma getSubstitution_plain_char (m b a r : string) (c : ascii) :
  c <> "$"%char ->
  Str.getSubstitution m b a (String c r) = String c (Str.getSubstitution m b a r).
Proof.
  intros Hc. destruct c as [[] [] [] [] [] [] [] []]; try reflexivity.
  now elim Hc.
Qed.

Lemma getSubstitution_noDollar (m b a r : string) :
  Str.noDollar r = true -> Str.getSubstitution m b a r = r.
Proof.
  induction r as [|c r IH]; intros H; [reflexivity|].
  simpl in H. apply andb_true_iff in H as [Hc Hr].
  rewrite getSubstitution_plain_char.
  - now rewrite IH.
  - intros ->. discriminate.
Qed.

Lemma noDollar_append (a b : string) :
  Str.noDollar (a ++ b) = Str.noDollar a && Str.noDollar b.
Proof. induction a; simpl; [reflexivity|]. now rewrite IHa, andb_assoc. Qed.

(** The substitution of one query parameter: the first occurrence of the
    value becomes the bracketed key, the rest of the path is untouched. *)
Lemma replace_first_occurrence (path key value before after : string) :
  Str.splitFirst value path = Some (before, after) ->
  Str.noDollar key = true ->
  path = before ++ value ++ after /\
  Str.replace path value ("[" ++ key ++ "]") = before ++ ("[" ++ key ++ "]") ++ after.
Proof.
  intros Hs Hk. split; [now apply splitFirst_decompose|].
  unfold Str.replace. rewrite Hs. rewrite getSubstitution_noDollar; [reflexivity|].
  simpl. rewrite noDollar_append, Hk. reflexivity.
Qed.

Lemma replace_absent (path value replacement : string) :
  Str.splitFirst value path = None -> Str.replace path value replacement = path.
Proof. unfold Str.replace. now intros ->. Qed.

(** C4, as stated, fails: the second parameter takes the second
    occurrence of the shared value. *)
Lemma second_occurrence_goes_to_second_key : ~ bothOccurrencesCollapseToFirstKey.
Proof. unfold bothOccurrencesCollapseToFirstKey. vm_compute. discriminate. Qed.

(** C4, amended: for the path /a/5/b/5 and the query x: 5, y: 5, the
    sequential first-occurrence substitution gives /a/[x]/b/[y]; x takes
    the first literal 5, and y, processed next, takes the first 5 that is
    left.  The transaction of a GET request is named accordingly. *)
Theorem sequential_first_occurrence_substitution :
  Str.replace "/a/5/b/5" "5" "[x]" = "/a/[x]/b/5" /\
  Str.replace "/a/[x]/b/5" "5" "[y]" = "/a/[x]/b/[y]" /\
  replaceQueryValues "/a/5/b/5" [("x", "5"); ("y", "5")] = "/a/[x]/b/[y]" /\
  transactionName None "/a/5/b/5" (Some [("x", "5"); ("y", "5")]) = "GET /a/[x]/b/[y]".
Proof. repeat split; vm_compute; reflexivity. Qed.

(** ** The propagation token *)

Import Traceparent.

Lemma takeHex_sound (n : nat) (s digits rest : string) :
  takeHex n s = Some (digits, rest) ->
  s = digits ++ rest /\ hexField n digits.
Proof.
  revert s digits rest; induction n as [|n IH]; intros s digits rest H; simpl in H.
  - inversion H; subst. repeat split.
  - destruct s as [|c s]; [discriminate|].
    destruct (isHexDigit c) eqn:Hc; [|discriminate].
    destruct (takeHex n s) as [[d r]|] eqn:E; [|discriminate].
    inversion H; subst. destruct (IH _ _ _ E) as (-> & Hl & Hh).
    unfold hexField. simpl. rewrite Hc, Hl, Hh. repeat split.
Qed.

Lemma takeHex_complete (n : nat) (digits rest : string) :
  hexField n digits -> takeHex n (digits ++ rest) = Some (digits, rest).
Proof.
  revert digits; induction n as [|n IH]; intros digits [Hl Hh].
  - destruct digits; [reflexivity|discriminate].
  - destruct digits as [|c d]; [discriminate|]. simpl in *.
    apply andb_true_iff in Hh as [Hc Hd]. rewrite Hc, IH; [reflexivity|].
    split; [lia|exact Hd].
Qed.

Lemma takeDash_sound (s rest : string) :
  takeDash s = Some rest -> s = "-" ++ rest.
Proof.
  destruct s as [|c s]; [discriminate|].
  destruct c as [[] [] [] [] [] [] [] []]; simpl; try discriminate.
  now intros [= ->].
Qed.

Lemma extract_sound (header : string) (t : Token) :
  extractTraceparentData header = Some t ->
  header = render t /\
  hexField 2 (version t) /\ hexField 32 (traceId t) /\
  hexField 16 (spanId t) /\ hexField 2 (flags t).
Proof.
  unfold extractTraceparentData. intros H.
  destruct (takeHex 2 header) as [[v r1]|] eqn:E1; [|discriminate].
  destruct (takeDash r1) as [r2|] eqn:D1; [|discriminate].
  destruct (takeHex 32 r2) as [[i r3]|] eqn:E2; [|discriminate].
  destruct (takeDash r3) as [r4|] eqn:D2; [|discriminate].
  destruct (takeHex 16 r4) as [[p r5]|] eqn:E3; [|discriminate].
  destruct (takeDash r5) as [r6|] eqn:D3; [|discriminate].
  destruct (takeHex 2 r6) as [[f r7]|] eqn:E4; [|discriminate].
  destruct r7; [|discriminate]. inversion H; subst t; clear H.
  apply takeHex_sound in E1 as [-> H1], E2 as [-> H2], E3 as [-> H3], E4 as [-> H4].
  apply takeDash_sound in D1 as ->, D2 as ->, D3 as ->.
  unfold render; simpl. rewrite append_nil_r. repeat split; try apply H1; try apply H2;
    try apply H3; try apply H4.
Qed.

Lemma extract_complete (t : Token) :
  hexField 2 (version t) -> hexField 32 (traceId t) ->
  hexField 16 (spanId t) -> hexField 2 (flags t) ->
  extractTraceparentData (render t) = Some t.
Proof.
  intros H1 H2 H3 H4. destruct t as [v i p f]; simpl in *.
  unfold extractTraceparentData, render; cbn [version traceId spanId flags].
  rewrite (takeHex_complete 2 v _ H1). cbn [append takeDash].
  rewrite (takeHex_complete 32 i _ H2). cbn [append takeDash].
  rewrite (takeHex_complete 16 p _ H3). cbn [append takeDash].
  rewrite <- (append_nil_r f) at 1.
  rewrite (takeHex_complete 2 f _ H4). reflexivity.
Qed.

(** C9: extraction is a total function; on an input of the wire format
    it returns the token whose four fields spell the input, on any other
    input it returns none (so it never raises); a flags field "x" gives
    none. *)
Theorem extraction_parses_or_yields_none :
  (forall header : string,
     (wellFormed header /\
      exists t, extractTraceparentData header = Some t /\ header = render t) \/
     (~ wellFormed header /\ extractTraceparentData header = None)) /\
  extractTraceparentData "00-aaaaaaaaaaaaaaaaaaaaaaaaaaaaaaaa-bbbbbbbbbbbbbbbb-x" = None.
Proof.
  split; [|reflexivity].
  intros header. destruct (extractTraceparentData header) as [t|] eqn:E.
  - left. destruct (extract_sound _ _ E) as (Hr & Hf). split.
    + exists t. now split.
    + exists t. now split.
  - right. split; [|reflexivity].
    intros (t & -> & H1 & H2 & H3 & H4).
    rewrite (extract_complete t H1 H2 H3 H4) in E. discriminate.
Qed.

(** Any well-formed pair of identifiers survives the round trip. *)
Lemma traceparent_roundtrip (trace span : string) (recorded : bool) (p : option Span) :
  hexField 32 trace -> hexField 16 span ->
  extractTraceparentData (toTraceparent (mkSpan trace span recorded p)) =
  Some (mkToken "00" trace span (if recorded then "01" else "00")).
Proof.
  intros Ht Hs.
  change (toTraceparent (mkSpan trace span recorded p))
    with (render (mkToken "00" trace span (if recorded then "01" else "00"))).
  apply extract_complete; simpl; auto.
  - now split.
  - destruct recorded; now split.
Qed.

Lemma append_last_inj (a b : string) (x y : ascii) :
  a ++ String x "" = b ++ String y "" -> x = y.
Proof.
  revert b; induction a as [|c a IH]; intros [|d b] H; simpl in H.
  - congruence.
  - destruct b; simpl in H; discriminate.
  - destruct a; simpl in H; discriminate.
  - inversion H. eauto.
Qed.

Lemma hexChar_next (n : N) : hexChar (n + 1) <> hexChar n.
Proof.
  unfold hexChar. rewrite <- (N.Div0.add_mod_idemp_l n 1 16).
  pose proof (N.mod_upper_bound n 16 ltac:(discriminate)) as Hr.
  set (r := (n mod 16)%N) in *.
  assert (Hcases : (r = 0 \/ r = 1 \/ r = 2 \/ r = 3 \/ r = 4 \/ r = 5 \/ r = 6 \/ r = 7 \/
                    r = 8 \/ r = 9 \/ r = 10 \/ r = 11 \/ r = 12 \/ r = 13 \/ r = 14 \/
                    r = 15)%N) by lia.
  clearbody r.
  repeat (destruct Hcases as [-> | Hcases]; [vm_compute; discriminate|]).
  subst r. vm_compute. discriminate.
Qed.

(** The generated span id never coincides with the parent's. *)
Lemma generateSpanId_fresh (entropy : N) (parentSpanId : string) :
  generateSpanId entropy parentSpanId <> parentSpanId.
Proof.
  unfold generateSpanId.
  destruct (String.eqb (hexDigits 16 entropy) parentSpanId) eqn:E.
  - apply String.eqb_eq in E. rewrite <- E.
    change (hexDigits 16 (entropy + 1))
      with (hexDigits 15 ((entropy + 1) / 16) ++ String (hexChar (entropy + 1)) "").
    change (hexDigits 16 entropy)
      with (hexDigits 15 (entropy / 16) ++ String (hexChar entropy) "").
    intros H. apply append_last_inj in H. now apply hexChar_next in H.
  - now apply String.eqb_neq in E.
Qed.

(** C10: the token built from trace id a...a (32) and span id b...b (16)
    parses back to the same trace id and, as parent span id, the same
    span id; the span and the transaction that continue the trace get a
    span id of their own, different from the parent's, whatever the
    random source delivers. *)
Theorem traceparent_roundtrip_with_fresh_span :
  let trace := "aaaaaaaaaaaaaaaaaaaaaaaaaaaaaaaa" in
  let span := "bbbbbbbbbbbbbbbb" in
  forall (recorded : bool) (entropy : N) (name op : string),
    let token := toTraceparent (mkSpan trace span recorded None) in
    exists t child,
      extractTraceparentData token = Some t /\
      traceId t = trace /\ spanId t = span /\ sampled t = recorded /\
      fromTraceparent entropy token = Some child /\
      span_traceId child = trace /\
      option_map span_traceId (span_parent child) = Some trace /\
      option_map span_spanId (span_parent child) = Some span /\
      span_spanId child <> span /\
      parent (startTransaction entropy name op (Some t)) = Some t /\
      txSpanId (startTransaction entropy name op (Some t)) <> span.
Proof.
  intros trace span recorded entropy name op token.
  assert (E : extractTraceparentData token =
              Some (mkToken "00" trace span (if recorded then "01" else "00"))).
  { apply traceparent_roundtrip; now split. }
  eexists; eexists. split; [exact E|].
  unfold fromTraceparent. rewrite E. cbn [traceId spanId flags sampled].
  repeat split; try reflexivity.
  - destruct recorded; reflexivity.
  - apply generateSpanId_fresh.
  - apply generateSpanId_fresh.
Qed.

(** ** The event loop runs dry *)

Section Termination.

Variable env : Env.
Variable origHandler : Handler.


Lemma queueWeight_app (a b : list task) :
  queueWeight env (a ++ b) = queueWeight env a + queueWeight env b.
Proof. induction a; simpl; lia. Qed.

Lemma weight_pushMicro (t : task) (st : State) :
  weight env (pushMicro t st) = weight env st + taskWeight env t.
Proof. unfold weight; simpl. rewrite queueWeight_app; simpl. lia. Qed.

Lemma weight_pushMacro (t : task) (st : State) :
  weight env (pushMacro t st) = weight env st + taskWeight env t.
Proof. unfold weight; simpl. rewrite queueWeight_app; simpl. lia. Qed.

Lemma flush_turns_bound (i : nat) :
  turns (nth i (flushScript env) defaultFlush) <= maxFlushTurns env.
Proof.
  unfold maxFlushTurns. generalize defaultFlush as d. generalize (flushScript env) as l.
  intros l d; revert i.
  induction l as [|b l IH]; intros [|i]; simpl; try lia.
  specialize (IH i). lia.
Qed.

Lemma weight_callFlush (c : caller) (st : State) :
  weight env (callFlush env c st) <= weight env st + (4 + maxFlushTurns env).
Proof.
  unfold callFlush. pose proof (flush_turns_bound (flushCalls st)) as Hb.
  destruct (turns (nth (flushCalls st) (flushScript env) defaultFlush)) as [|n].
  - rewrite weight_pushMicro. unfold weight; simpl. lia.
  - rewrite weight_pushMacro. unfold weight; simpl. lia.
Qed.

Lemma weight_finishSentryWork (c : caller) (st : State) :
  weight env (finishSentryWork env c st) <= weight env st + (6 + maxFlushTurns env).
Proof.
  unfold finishSentryWork. destruct (__sentryTransaction (res st)).
  - rewrite weight_pushMacro. unfold weight; simpl. lia.
  - pose proof (weight_callFlush c st). lia.
Qed.

Lemma weight_newEnd (st : State) :
  weight env (newEnd env st) <= weight env st + (6 + maxFlushTurns env).
Proof.
  unfold newEnd. etransitivity; [apply weight_finishSentryWork|].
  unfold weight; simpl. lia.
Qed.

Lemma weight_runHandler (rest : list hstep) (r : hresult) (st : State) :
  weight env (runHandler env rest r st) + 1 <= weight env st + taskWeight env (THandler rest r).
Proof.
  revert st; induction rest as [|s rest IH]; intros st.
  - simpl. rewrite weight_pushMicro. simpl. lia.
  - destruct s; cbn [runHandler].
    + specialize (IH (setRes (setStatusCode code (res st)) st)).
      unfold weight in *; simpl in *. lia.
    + specialize (IH (newEnd env st)). pose proof (weight_newEnd st).
      simpl in *. lia.
    + rewrite weight_pushMicro. simpl. lia.
    + rewrite weight_pushMacro. simpl. lia.
Qed.

Lemma weight_catchBlock (e : jsval) (st : State) :
  weight env (catchBlock env origHandler e st) <= weight env st + (6 + maxFlushTurns env).
Proof.
  unfold catchBlock. destruct (objectify e (heap st)) as [b heap'].
  etransitivity; [apply weight_finishSentryWork|].
  destruct (hasScope env); unfold weight; simpl; lia.
Qed.

Lemma weight_runTask (t : task) (st : State) :
  weight env (runTask env origHandler t st) + 1 <= weight env st + taskWeight env t.
Proof.
  destruct t as [rest r|[v|e]|c|c|[|n] o c|o c|[id|b]|[v|e]]; cbn [runTask].
  - apply weight_runHandler.
  - rewrite weight_pushMicro. unfold weight; simpl. lia.
  - pose proof (weight_catchBlock e st). simpl. lia.
  - destruct (__sentryTransaction (res st)); rewrite weight_pushMicro;
      unfold weight; simpl; lia.
  - pose proof (weight_callFlush c st). simpl. lia.
  - rewrite weight_pushMicro. simpl. lia.
  - rewrite weight_pushMacro. simpl. lia.
  - rewrite weight_pushMicro. unfold weight; simpl. lia.
  - unfold weight; simpl. lia.
  - rewrite weight_pushMicro. unfold weight; simpl. lia.
  - unfold weight; simpl. lia.
  - unfold weight; simpl. lia.
Qed.

Lemma step_weight (st st' : State) :
  step env origHandler st = Some st' -> weight env st' < weight env st.
Proof.
  unfold step. destruct (micro st) as [|t q] eqn:Hmi.
  - destruct (macro st) as [|t q] eqn:Hma; [discriminate|].
    intros [= <-]. match goal with |- context [runTask _ _ _ ?s] => pose proof (weight_runTask t s) as H end.
    unfold weight in *. rewrite Hmi, Hma. simpl in *. lia.
  - intros [= <-]. match goal with |- context [runTask _ _ _ ?s] => pose proof (weight_runTask t s) as H end.
    unfold weight in *. rewrite Hmi. simpl in *. lia.
Qed.

Lemma step_none_quiescent (st : State) :
  step env origHandler st = None -> quiescent st.
Proof.
  unfold step, quiescent. destruct (micro st); [|discriminate].
  destruct (macro st); [auto|discriminate].
Qed.

Lemma quiescent_step (st : State) :
  quiescent st -> step env origHandler st = None.
Proof. unfold step, quiescent. now intros [-> ->]. Qed.

(** Enough fuel empties both queues. *)
Lemma run_quiescent (fuel : nat) (st : State) :
  weight env st <= fuel -> quiescent (run env origHandler fuel st).
Proof.
  revert st; induction fuel as [|fuel IH]; intros st Hw; simpl.
  - destruct (step env origHandler st) as [st'|] eqn:E.
    + apply step_weight in E. lia.
    + now apply step_none_quiescent.
  - destruct (step env origHandler st) as [st'|] eqn:E.
    + apply IH. apply step_weight in E. lia.
    + now apply step_none_quiescent.
Qed.

(** A quiescent state stays as it is, so more fuel changes nothing. *)
Lemma run_quiescent_stable (fuel : nat) (st : State) :
  quiescent st -> run env origHandler fuel st = st.
Proof. intros H. destruct fuel; simpl; [reflexivity|]. now rewrite quiescent_step. Qed.

Lemma run_add (a b : nat) (st : State) :
  run env origHandler (a + b) st = run env origHandler b (run env origHandler a st).
Proof.
  revert st; induction a as [|a IH]; intros st; simpl; [reflexivity|].
  destruct (step env origHandler st) as [st'|] eqn:E; [apply IH|].
  symmetry. apply run_quiescent_stable. now apply step_none_quiescent.
Qed.

Lemma run_enough (fuel : nat) (st : State) :
  weight env st <= fuel ->
  run env origHandler fuel st = run env origHandler (weight env st) st.
Proof.
  intros H. replace fuel with (weight env st + (fuel - weight env st)) by lia.
  rewrite run_add. apply run_quiescent_stable. now apply run_quiescent.
Qed.

End Termination.

(** ** Projections of the state updates *)

Create Rewrite HintDb loop.

Lemma events_emit (e : event) (st : State) : events (emit e st) = e :: events st.
Proof. reflexivity. Qed.

Lemma events_pushMicro (t : task) (st : State) : events (pushMicro t st) = events st.
Proof. reflexivity. Qed.

Lemma events_pushMacro (t : task) (st : State) : events (pushMacro t st) = events st.
Proof. reflexivity. Qed.

Lemma events_setRes (r : Response) (st : State) : events (setRes r st) = events st.
Proof. reflexivity. Qed.

Lemma events_addEventProcessor (p : processor) (st : State) : events (addEventProcessor p st) = events st.
Proof. reflexivity. Qed.

Lemma events_setHeap (h : list cell) (st : State) : events (setHeap h st) = events st.
Proof. reflexivity. Qed.

Lemma events_countFlush  (st : State) : events (countFlush st) = events st.
Proof. reflexivity. Qed.

Lemma events_countEnd  (st : State) : events (countEnd st) = events st.
Proof. reflexivity. Qed.

Lemma micro_emit (e : event) (st : State) : micro (emit e st) = micro st.
Proof. reflexivity. Qed.

Lemma micro_pushMicro (t : task) (st : State) : micro (pushMicro t st) = (micro st ++ [t])%list.
Proof. reflexivity. Qed.

Lemma micro_pushMacro (t : task) (st : State) : micro (pushMacro t st) = micro st.
Proof. reflexivity. Qed.

Lemma micro_setRes (r : Response) (st : State) : micro (setRes r st) = micro st.
Proof. reflexivity. Qed.

Lemma micro_addEventProcessor (p : processor) (st : State) : micro (addEventProcessor p st) = micro st.
Proof. reflexivity. Qed.

Lemma micro_setHeap (h : list cell) (st : State) : micro (setHeap h st) = micro st.
Proof. reflexivity. Qed.

Lemma micro_countFlush  (st : State) : micro (countFlush st) = micro st.
Proof. reflexivity. Qed.

Lemma micro_countEnd  (st : State) : micro (countEnd st) = micro st.
Proof. reflexivity. Qed.

Lemma macro_emit (e : event) (st : State) : macro (emit e st) = macro st.
Proof. reflexivity. Qed.

Lemma macro_pushMicro (t : task) (st : State) : macro (pushMicro t st) = macro st.
Proof. reflexivity. Qed.

Lemma macro_pushMacro (t : task) (st : State) : macro (pushMacro t st) = (macro st ++ [t])%list.
Proof. reflexivity. Qed.

Lemma macro_setRes (r : Response) (st : State) : macro (setRes r st) = macro st.
Proof. reflexivity. Qed.

Lemma macro_addEventProcessor (p : processor) (st : State) : macro (addEventProcessor p st) = macro st.
Proof. reflexivity. Qed.

Lemma macro_setHeap (h : list cell) (st : State) : macro (setHeap h st) = macro st.
Proof. reflexivity. Qed.

Lemma macro_countFlush  (st : State) : macro (countFlush st) = macro st.
Proof. reflexivity. Qed.

Lemma macro_countEnd  (st : State) : macro (countEnd st) = macro st.
Proof. reflexivity. Qed.

Lemma res_emit (e : event) (st : State) : res (emit e st) = res st.
Proof. reflexivity. Qed.

Lemma res_pushMicro (t : task) (st : State) : res (pushMicro t st) = res st.
Proof. reflexivity. Qed.

Lemma res_pushMacro (t : task) (st : State) : res (pushMacro t st) = res st.
Proof. reflexivity. Qed.

Lemma res_setRes (r : Response) (st : State) : res (setRes r st) = r.
Proof. reflexivity. Qed.

Lemma res_addEventProcessor (p : processor) (st : State) : res (addEventProcessor p st) = res st.
Proof. reflexivity. Qed.

Lemma res_setHeap (h : list cell) (st : State) : res (setHeap h st) = res st.
Proof. reflexivity. Qed.

Lemma res_countFlush  (st : State) : res (countFlush st) = res st.
Proof. reflexivity. Qed.

Lemma res_countEnd  (st : State) : res (countEnd st) = res st.
Proof. reflexivity. Qed.

Lemma endCalls_emit (e : event) (st : State) : endCalls (emit e st) = endCalls st.
Proof. reflexivity. Qed.

Lemma endCalls_pushMicro (t : task) (st : State) : endCalls (pushMicro t st) = endCalls st.
Proof. reflexivity. Qed.

Lemma endCalls_pushMacro (t : task) (st : State) : endCalls (pushMacro t st) = endCalls st.
Proof. reflexivity. Qed.

Lemma endCalls_setRes (r : Response) (st : State) : endCalls (setRes r st) = endCalls st.
Proof. reflexivity. Qed.

Lemma endCalls_addEventProcessor (p : processor) (st : State) : endCalls (addEventProcessor p st) = endCalls st.
Proof. reflexivity. Qed.

Lemma endCalls_setHeap (h : list cell) (st : State) : endCalls (setHeap h st) = endCalls st.
Proof. reflexivity. Qed.

Lemma endCalls_countFlush  (st : State) : endCalls (countFlush st) = endCalls st.
Proof. reflexivity. Qed.

Lemma endCalls_countEnd  (st : State) : endCalls (countEnd st) = S (endCalls st).
Proof. reflexivity. Qed.

#[local] Hint Rewrite
  events_emit events_pushMicro events_pushMacro events_setRes events_addEventProcessor
  events_setHeap events_countFlush events_countEnd micro_emit micro_pushMicro
  micro_pushMacro micro_setRes micro_addEventProcessor micro_setHeap micro_countFlush
  micro_countEnd macro_emit macro_pushMicro macro_pushMacro macro_setRes
  macro_addEventProcessor macro_setHeap macro_countFlush macro_countEnd res_emit
  res_pushMicro res_pushMacro res_setRes res_addEventProcessor res_setHeap
  res_countFlush res_countEnd endCalls_emit endCalls_pushMicro endCalls_pushMacro
  endCalls_setRes endCalls_addEventProcessor endCalls_setHeap endCalls_countFlush
  endCalls_countEnd : loop.

(** ** Counting *)

Lemma count_cons (p : event -> bool) (e : event) (l : list event) :
  count p (e :: l) = (if p e then 1 else 0) + count p l.
Proof. unfold count; simpl. now destruct (p e). Qed.

Lemma count_nil (p : event -> bool) : count p [] = 0.
Proof. reflexivity. Qed.

Lemma pending_app (c : caller) (a b : list task) :
  pending c (a ++ b) = pending c a + pending c b.
Proof. unfold pending. now rewrite filter_app, length_app. Qed.

Lemma pending_cons (c : caller) (t : task) (q : list task) :
  pending c (t :: q) = (if waitsFor c t then 1 else 0) + pending c q.
Proof. unfold pending; simpl. now destruct (waitsFor c t). Qed.

Lemma pending_nil (c : caller) : pending c [] = 0.
Proof. reflexivity. Qed.

Lemma mainPending_app (a b : list task) :
  mainPending (a ++ b) = mainPending a + mainPending b.
Proof. unfold mainPending. now rewrite filter_app, length_app. Qed.

Lemma mainPending_cons (t : task) (q : list task) :
  mainPending (t :: q) = (if isMainTask t then 1 else 0) + mainPending q.
Proof. unfold mainPending; simpl. now destruct (isMainTask t). Qed.

Lemma mainPending_nil : mainPending [] = 0.
Proof. reflexivity. Qed.

#[local] Hint Rewrite count_cons count_nil pending_app pending_cons pending_nil
  mainPending_app mainPending_cons mainPending_nil : loop.

Lemma jsval_eqb_eq (a b : jsval) : jsval_eqb a b = true <-> a = b.
Proof.
  destruct a, b; simpl; split; intros H; try discriminate; try reflexivity.
  - apply String.eqb_eq in H. now subst.
  - injection H as ->. apply String.eqb_refl.
  - apply Z.eqb_eq in H. now subst.
  - injection H as ->. apply Z.eqb_refl.
  - apply Bool.eqb_prop in H. now subst.
  - injection H as ->. apply Bool.eqb_reflx.
  - apply Nat.eqb_eq in H. now subst.
  - injection H as ->. apply Nat.eqb_refl.
Qed.

Lemma caller_eqb_eq (a b : caller) : caller_eqb a b = true <-> a = b.
Proof.
  destruct a, b; simpl; split; intros H; try discriminate.
  - apply Nat.eqb_eq in H. now subst.
  - injection H as ->. apply Nat.eqb_refl.
  - apply jsval_eqb_eq in H. now subst.
  - injection H as ->. now apply jsval_eqb_eq.
Qed.

Lemma caller_eqb_refl (c : caller) : caller_eqb c c = true.
Proof. now apply caller_eqb_eq. Qed.

Lemma jsval_eqb_refl (v : jsval) : jsval_eqb v v = true.
Proof. now apply jsval_eqb_eq. Qed.

(** [precededBy], read off the log from its most recent end. *)
Lemma precededBy_nil (p q : event -> bool) : precededBy p q [].
Proof. intros [|x newer] e older H; discriminate. Qed.

Lemma precededBy_cons (p q : event -> bool) (e : event) (l : list event) :
  (q e = true -> existsb p l = true) -> precededBy p q l -> precededBy p q (e :: l).
Proof.
  intros He Hl [|x newer] e' older H Hq; simpl in H.
  - injection H as <- <-. auto.
  - injection H as <- ->. eapply Hl; eauto.
Qed.

Lemma existsb_cons_mono (p : event -> bool) (e : event) (l : list event) :
  existsb p l = true -> existsb p (e :: l) = true.
Proof. simpl. intros ->. apply orb_true_r. Qed.

Lemma taskReady_mono (tx : bool) (e : event) (l : list event) (t : task) :
  taskReady tx l t -> taskReady tx (e :: l) t.
Proof.
  destruct t; simpl; auto; intros H; try (intros Htx; specialize (H Htx));
    try rewrite H; try apply orb_true_r.
Qed.

Lemma Forall_taskReady_mono (tx : bool) (e : event) (l : list event) (q : list task) :
  Forall (taskReady tx l) q -> Forall (taskReady tx (e :: l)) q.
Proof. intros H. eapply Forall_impl; [|exact H]. intros t. apply taskReady_mono. Qed.

(** ** Queued tasks, up to their order *)

Lemma tasks_pushMicro (t : task) (st : State) :
  Permutation (tasks (pushMicro t st)) (t :: tasks st).
Proof.
  unfold tasks. autorewrite with loop. rewrite <- app_assoc. simpl.
  symmetry. apply Permutation_middle.
Qed.

Lemma tasks_pushMacro (t : task) (st : State) :
  Permutation (tasks (pushMacro t st)) (t :: tasks st).
Proof.
  unfold tasks. autorewrite with loop. rewrite app_assoc.
  symmetry. apply Permutation_cons_append.
Qed.

Lemma tasks_callFlush (env : Env) (c : caller) (st : State) :
  Permutation (tasks (callFlush env c st)) (flushTask env c st :: tasks st).
Proof.
  unfold callFlush, flushTask.
  destruct (turns (nth (flushCalls st) (flushScript env) defaultFlush)).
  - rewrite tasks_pushMicro. reflexivity.
  - rewrite tasks_pushMacro. reflexivity.
Qed.

Lemma tasks_finishSentryWork (env : Env) (c : caller) (st : State) :
  Permutation (tasks (finishSentryWork env c st)) (finishSentryWorkTask env c st :: tasks st).
Proof.
  unfold finishSentryWork, finishSentryWorkTask.
  destruct (__sentryTransaction (res st)).
  - rewrite tasks_pushMacro. reflexivity.
  - apply tasks_callFlush.
Qed.

Lemma flushTask_caller (env : Env) (c : caller) (st : State) :
  taskCaller (flushTask env c st) = Some c.
Proof. unfold flushTask. now destruct (turns _). Qed.

Lemma finishSentryWorkTask_caller (env : Env) (c : caller) (st : State) :
  taskCaller (finishSentryWorkTask env c st) = Some c.
Proof.
  unfold finishSentryWorkTask. destruct (__sentryTransaction _); [reflexivity|].
  apply flushTask_caller.
Qed.

Lemma pending_perm (c : caller) (q q' : list task) :
  Permutation q q' -> pending c q = pending c q'.
Proof. induction 1; autorewrite with loop; lia. Qed.

Lemma mainPending_perm (q q' : list task) :
  Permutation q q' -> mainPending q = mainPending q'.
Proof. induction 1; autorewrite with loop; lia. Qed.

(** The states a step starts from: the task taken and the state left. *)
Lemma step_cases (env : Env) (h : Handler) (st st' : State) :
  step env h st = Some st' ->
  exists t st0,
    st' = runTask env h t st0 /\
    tasks st = t :: tasks st0 /\
    res st0 = res st /\ log st0 = log st /\ heap st0 = heap st /\
    processors st0 = processors st /\ endCalls st0 = endCalls st /\
    flushCalls st0 = flushCalls st.
Proof.
  unfold step, tasks. destruct (micro st) as [|t q] eqn:Hmi.
  - destruct (macro st) as [|t q] eqn:Hma; [discriminate|].
    intros [= <-]. eexists; eexists. split; [reflexivity|]. cbn. repeat split.
  - intros [= <-]. eexists; eexists. split; [reflexivity|]. cbn. repeat split.
Qed.

(** ** Every invocation of the wrapped end, in order *)

Section Threads.

Variable env : Env.
Variable origHandler : Handler.

Lemma threads_perm (Q Q' : list task) (st : State) :
  Permutation Q Q' -> threadsOk env Q st -> threadsOk env Q' st.
Proof.
  intros HP (H1 & H2 & H3 & H4 & H5). repeat split; auto.
  - eapply Permutation_Forall; eauto.
  - intros id. rewrite <- (pending_perm _ _ _ HP). apply H4.
Qed.

Lemma threads_same (Q : list task) (st st' : State) :
  events st' = events st -> hasTransaction st' = hasTransaction st ->
  endCalls st' = endCalls st ->
  threadsOk env Q st -> threadsOk env Q st'.
Proof.
  unfold threadsOk. intros -> -> ->. auto.
Qed.

Lemma threads_emit (Q : list task) (e : event) (st : State) :
  isAnyOrigEnd e = false -> (forall id, isNewEnd id e = false) ->
  eventReady (transactionAttached env) (events st) e ->
  threadsOk env Q st -> threadsOk env Q (emit e st).
Proof.
  intros Ho Hn He (H1 & H2 & H3 & H4 & H5). unfold threadsOk, hasTransaction.
  autorewrite with loop. repeat split; auto.
  - now apply Forall_taskReady_mono.
  - intros id. autorewrite with loop. rewrite <- H4.
    destruct e; simpl in *; try discriminate; lia.
  - intros id. autorewrite with loop. rewrite Hn, <- H5. lia.
Qed.

Lemma threads_swap (t t' : task) (Q : list task) (st : State) :
  (forall id, waitsFor (ByNewEnd id) t' = waitsFor (ByNewEnd id) t) ->
  taskReady (transactionAttached env) (events st) t' ->
  threadsOk env (t :: Q) st -> threadsOk env (t' :: Q) st.
Proof.
  intros Hw Hr (H1 & H2 & H3 & H4 & H5). repeat split; auto.
  - inversion H2; subst. now constructor.
  - intros id. specialize (H4 id). autorewrite with loop in *. now rewrite Hw.
Qed.

Lemma threads_drop (t : task) (Q : list task) (st : State) :
  (forall id, waitsFor (ByNewEnd id) t = false) ->
  threadsOk env (t :: Q) st -> threadsOk env Q st.
Proof.
  intros Hw (H1 & H2 & H3 & H4 & H5). repeat split; auto.
  - now inversion H2.
  - intros id. specialize (H4 id). autorewrite with loop in *. now rewrite Hw in H4.
Qed.

Lemma threads_add (t : task) (Q : list task) (st : State) :
  (forall id, waitsFor (ByNewEnd id) t = false) ->
  taskReady (transactionAttached env) (events st) t ->
  threadsOk env Q st -> threadsOk env (t :: Q) st.
Proof.
  intros Hw Hr (H1 & H2 & H3 & H4 & H5). repeat split; auto.
  intros id. specialize (H4 id). autorewrite with loop in *. now rewrite Hw.
Qed.

Lemma threads_callFlush (Q : list task) (c : caller) (st : State) :
  threadsOk env Q st -> threadsOk env Q (callFlush env c st).
Proof.
  intros H. eapply threads_same with (st := emit (EvFlushCalled c 2000) st).
  - unfold callFlush. destruct (turns _); now autorewrite with loop.
  - unfold callFlush. destruct (turns _); now autorewrite with loop.
  - unfold callFlush. destruct (turns _); now autorewrite with loop.
  - apply threads_emit; simpl; auto.
Qed.

Lemma events_callFlush (c : caller) (st : State) :
  events (callFlush env c st) = EvFlushCalled c 2000 :: events st.
Proof. unfold callFlush. destruct (turns _); now autorewrite with loop. Qed.

Lemma flushTask_ready (c : caller) (st : State) (l : list event) :
  (transactionAttached env = true -> existsb (isFinishBy c) l = true) ->
  taskReady (transactionAttached env) l (flushTask env c st).
Proof. unfold flushTask. destruct (turns _); simpl; auto. Qed.

Lemma waitsFor_caller (c : caller) (t t' : task) :
  taskCaller t' = taskCaller t -> waitsFor c t' = waitsFor c t.
Proof. unfold waitsFor. now intros ->. Qed.

Lemma threads_pushMicro (t : task) (st : State) :
  threadsOk env (t :: tasks st) st -> threadsOk env (tasks (pushMicro t st)) (pushMicro t st).
Proof.
  intros H. eapply threads_perm; [symmetry; apply tasks_pushMicro|].
  eapply threads_same; [| | |exact H]; reflexivity.
Qed.

Lemma threads_pushMacro (t : task) (st : State) :
  threadsOk env (t :: tasks st) st -> threadsOk env (tasks (pushMacro t st)) (pushMacro t st).
Proof.
  intros H. eapply threads_perm; [symmetry; apply tasks_pushMacro|].
  eapply threads_same; [| | |exact H]; reflexivity.
Qed.

Lemma threads_finishSentryWork (Q : list task) (c : caller) (st : State) :
  threadsOk env Q st -> threadsOk env Q (finishSentryWork env c st).
Proof.
  intros H. unfold finishSentryWork.
  destruct (__sentryTransaction (res st)) as [transaction|] eqn:Htx.
  - eapply threads_same with
      (st := emit (EvSetHttpStatus c (statusCode (res st)))
               (setRes (setTransaction (setHttpStatus (statusCode (res st)) transaction) (res st)) st));
      try reflexivity.
    apply threads_emit; simpl; auto.
    eapply threads_same; [| | |exact H]; try reflexivity.
    unfold hasTransaction. autorewrite with loop. simpl. now rewrite Htx.
  - now apply threads_callFlush.
Qed.

Lemma finishSentryWorkTask_ready (c : caller) (st : State) (l : list event) :
  hasTransaction st = transactionAttached env ->
  taskReady (transactionAttached env) l (finishSentryWorkTask env c st).
Proof.
  intros H1. unfold finishSentryWorkTask, hasTransaction in *.
  destruct (__sentryTransaction (res st)); simpl.
  - now symmetry.
  - apply flushTask_ready. rewrite <- H1. discriminate.
Qed.

(** The wrapped end is entered: one more invocation is under way. *)
Lemma threads_newEnd (st : State) :
  threadsOk env (tasks st) st -> threadsOk env (tasks (newEnd env st)) (newEnd env st).
Proof.
  intros H. unfold newEnd.
  set (id := endCalls st). set (st1 := emit (EvNewEnd id) (countEnd st)).
  eapply threads_perm; [symmetry; apply tasks_finishSentryWork|].
  apply threads_finishSentryWork.
  assert (Hready : taskReady (transactionAttached env) (events st1)
                     (finishSentryWorkTask env (ByNewEnd id) st1)).
  { apply finishSentryWorkTask_ready. apply H. }
  pose proof (finishSentryWorkTask_caller env (ByNewEnd id) st1) as Hc.
  destruct H as (H1 & H2 & H3 & H4 & H5).
  unfold threadsOk. subst st1. autorewrite with loop in *.
  split; [exact H1|]. split; [|split; [|split]].
  - constructor; [exact Hready|]. now apply Forall_taskReady_mono.
  - simpl. auto.
  - intros i. specialize (H4 i). autorewrite with loop. unfold waitsFor. rewrite Hc.
    cbn [caller_eqb isOrigEnd]. change (tasks (emit (EvNewEnd id) (countEnd st))) with (tasks st).
    subst id. destruct (Nat.eqb_spec (endCalls st) i), (Nat.ltb_spec i (endCalls st)),
      (Nat.ltb_spec i (S (endCalls st))); lia.
  - intros i. specialize (H5 i). autorewrite with loop. cbn [isNewEnd].
    subst id. destruct (Nat.eqb_spec (endCalls st) i), (Nat.ltb_spec i (endCalls st)),
      (Nat.ltb_spec i (S (endCalls st))); lia.
Qed.

Lemma threads_runHandler (rest : list hstep) (r : hresult) (st : State) :
  threadsOk env (tasks st) st ->
  threadsOk env (tasks (runHandler env rest r st)) (runHandler env rest r st).
Proof.
  revert st; induction rest as [|s rest IH]; intros st H.
  - simpl. apply threads_pushMicro. apply threads_add; simpl; auto.
  - destruct s; cbn [runHandler].
    + apply IH. eapply threads_same; [| | |exact H]; reflexivity.
    + apply IH. now apply threads_newEnd.
    + apply threads_pushMicro. apply threads_add; simpl; auto.
    + apply threads_pushMacro. apply threads_add; simpl; auto.
Qed.

Lemma threads_catchBlock (e : jsval) (st : State) :
  threadsOk env (tasks st) st ->
  threadsOk env (tasks (catchBlock env origHandler e st)) (catchBlock env origHandler e st).
Proof.
  intros H. unfold catchBlock. destruct (objectify e (heap st)) as [b heap'].
  match goal with |- context [finishSentryWork env _ ?s] => set (st1 := s) end.
  assert (H1 : threadsOk env (tasks st) st1).
  { subst st1. apply threads_emit; simpl; auto.
    destruct (hasScope env).
    - eapply threads_same with
        (st := emit (EvCaptureException b
                       (processors (addEventProcessor (ExceptionMechanism (mechanism origHandler))
                                      (setHeap heap' st)))) st); try reflexivity.
      apply threads_emit; simpl; auto.
    - eapply threads_same; [| | |exact H]; reflexivity. }
  eapply threads_perm; [symmetry; apply tasks_finishSentryWork|].
  apply threads_finishSentryWork.
  replace (tasks st1) with (tasks st) by (subst st1; now destruct (hasScope env)).
  apply threads_add; auto.
  - intros id. unfold waitsFor. now rewrite finishSentryWorkTask_caller.
  - apply finishSentryWorkTask_ready. apply H1.
Qed.

(** One task keeps the threads in order. *)
Lemma threads_runTask (t : task) (st : State) :
  threadsOk env (t :: tasks st) st ->
  threadsOk env (tasks (runTask env origHandler t st)) (runTask env origHandler t st).
Proof.
  intros H.
  destruct t as [rest r|[v|e]|c|c|[|n] o c|o c|[id|b]|[v|e]]; cbn [runTask].
  - apply threads_runHandler. eapply threads_drop; [|exact H]. reflexivity.
  - apply threads_pushMicro. apply threads_add; simpl; auto.
    apply threads_emit; simpl; auto.
    eapply threads_same with (st := emit (EvSetFinished None true) st); try reflexivity.
    apply threads_emit; simpl; auto.
    eapply threads_drop; [|exact H]. reflexivity.
  - apply threads_catchBlock. eapply threads_drop; [|exact H]. reflexivity.
  - destruct (__sentryTransaction (res st)) as [transaction|] eqn:Htx.
    + apply threads_pushMicro.
      eapply threads_swap with (t := TFinishCallback c); [reflexivity| |].
      * autorewrite with loop. simpl. now rewrite caller_eqb_refl.
      * eapply threads_same with
          (st := emit (EvTransactionFinish c (httpStatus transaction) (negb (isFinished transaction))) st);
          try reflexivity.
        -- unfold hasTransaction. autorewrite with loop. simpl. now rewrite Htx.
        -- apply threads_emit; simpl; auto.
    + destruct H as (H1 & H2 & _). inversion H2 as [|? ? Hr _]; subst.
      simpl in Hr. unfold hasTransaction in H1. rewrite Htx, Hr in H1. discriminate.
  - eapply threads_perm; [symmetry; apply tasks_callFlush|].
    apply threads_callFlush.
    eapply threads_swap; [| |exact H].
    + intros id. apply waitsFor_caller. now rewrite flushTask_caller.
    + apply flushTask_ready. intros _.
      destruct H as (_ & H2 & _). now inversion H2.
  - apply threads_pushMicro. eapply threads_swap; [| |exact H]; [reflexivity|].
    destruct H as (_ & H2 & _). now inversion H2.
  - apply threads_pushMacro. eapply threads_swap; [| |exact H]; [reflexivity|].
    destruct H as (_ & H2 & _). now inversion H2.
  - assert (Hr : transactionAttached env = true -> existsb (isFinishBy c) (events st) = true).
    { destruct H as (_ & H2 & _). now inversion H2. }
    apply threads_pushMicro.
    eapply threads_swap with (t := TAfterFlush o c); [reflexivity| |].
    + autorewrite with loop. simpl. now rewrite caller_eqb_refl.
    + apply threads_emit; simpl; auto.
  - assert (Hr : existsb (isFlushSettledFor (ByNewEnd id)) (events st) = true).
    { destruct H as (_ & H2 & _). now inversion H2. }
    destruct H as (H1 & H2 & H3 & H4 & H5).
    unfold origEnd, threadsOk, hasTransaction. autorewrite with loop.
    split; [exact H1|]. split; [|split; [|split]].
    + do 2 apply Forall_taskReady_mono. now inversion H2.
    + simpl. now rewrite Hr.
    + intros i. specialize (H4 i). autorewrite with loop in *.
      cbn [isOrigEnd waitsFor taskCaller caller_eqb] in *.
      change (tasks _) with (tasks st). lia.
    + intros i. specialize (H5 i). now autorewrite with loop.
  - assert (Hr : existsb (isFlushSettledFor (ByCatch b)) (events st) = true).
    { destruct H as (_ & H2 & _). now inversion H2. }
    apply threads_pushMicro. apply threads_add; simpl; auto.
    apply threads_emit; simpl; auto.
    eapply threads_drop; [|exact H]. reflexivity.
  - apply threads_emit; simpl; auto. eapply threads_drop; [|exact H]. reflexivity.
  - apply threads_emit; simpl; auto. eapply threads_drop; [|exact H]. reflexivity.
Qed.

End Threads.

(** ** The transaction is finished once, the real end never faults *)

Section Finish.

Variable env : Env.
Variable origHandler : Handler.

Lemma isFinished_finish (now : nat) (t : Transaction) : isFinished (finish now t) = true.
Proof. unfold finish, isFinished. destruct (endTimestamp t) eqn:E; simpl; now rewrite ?E. Qed.

(** Modelled [finish] is idempotent: the second call changes nothing. *)
Lemma finish_idempotent (now later : nat) (t : Transaction) :
  finish later (finish now t) = finish now t.
Proof. unfold finish. destruct (endTimestamp t) eqn:E; simpl; now rewrite ?E. Qed.

Lemma finishOk_same (st st' : State) :
  events st' = events st ->
  option_map isFinished (__sentryTransaction (res st')) =
  option_map isFinished (__sentryTransaction (res st)) ->
  finishOk st -> finishOk st'.
Proof.
  unfold finishOk. intros -> Hf (H1 & H2 & H3). split; [|split; [exact H2|exact H3]].
  rewrite H1.
  destruct (__sentryTransaction (res st')), (__sentryTransaction (res st));
    simpl in Hf; try discriminate; try reflexivity.
  now injection Hf as ->.
Qed.

Lemma finishOk_emit (e : event) (st : State) :
  isAnyFinish e = false -> isWriteAfterEnd e = false ->
  finishOk st -> finishOk (emit e st).
Proof.
  unfold finishOk. intros He Hw (H1 & H2 & H3). autorewrite with loop.
  assert (He' : isEffectiveFinish e = false) by (destruct e; try discriminate; reflexivity).
  rewrite He, He', Hw. simpl. auto.
Qed.

Lemma finishOk_callFlush (c : caller) (st : State) :
  finishOk st -> finishOk (callFlush env c st).
Proof.
  intros H. apply finishOk_same with (st := emit (EvFlushCalled c 2000) st).
  - unfold callFlush. destruct (turns _); now autorewrite with loop.
  - unfold callFlush. destruct (turns _); now autorewrite with loop.
  - now apply finishOk_emit.
Qed.

Lemma finishOk_finishSentryWork (c : caller) (st : State) :
  finishOk st -> finishOk (finishSentryWork env c st).
Proof.
  intros H. unfold finishSentryWork.
  destruct (__sentryTransaction (res st)) as [transaction|] eqn:Htx.
  - apply finishOk_same with (st := emit (EvSetHttpStatus c (statusCode (res st))) st).
    + now autorewrite with loop.
    + autorewrite with loop. simpl. now rewrite Htx.
    + now apply finishOk_emit.
  - now apply finishOk_callFlush.
Qed.

Lemma finishOk_newEnd (st : State) : finishOk st -> finishOk (newEnd env st).
Proof.
  intros H. unfold newEnd. apply finishOk_finishSentryWork.
  apply finishOk_emit; auto.
Qed.

Lemma finishOk_runHandler (rest : list hstep) (r : hresult) (st : State) :
  finishOk st -> finishOk (runHandler env rest r st).
Proof.
  revert st; induction rest as [|s rest IH]; intros st H; [exact H|].
  destruct s; cbn [runHandler]; auto.
  apply IH. now apply finishOk_newEnd.
Qed.

Lemma finishOk_catchBlock (e : jsval) (st : State) :
  finishOk st -> finishOk (catchBlock env origHandler e st).
Proof.
  intros H. unfold catchBlock. destruct (objectify e (heap st)) as [b heap'].
  apply finishOk_finishSentryWork. apply finishOk_emit; auto.
  destruct (hasScope env).
  - apply finishOk_same with
      (st := emit (EvCaptureException b
                     (processors (addEventProcessor (ExceptionMechanism (mechanism origHandler))
                                    (setHeap heap' st)))) st); try reflexivity.
    now apply finishOk_emit.
  - exact H.
Qed.

Lemma finishOk_runTask (t : task) (st : State) :
  finishOk st -> finishOk (runTask env origHandler t st).
Proof.
  intros H.
  destruct t as [rest r|[v|e]|c|c|[|n] o c|o c|[id|b]|[v|e]]; cbn [runTask];
    try exact H.
  - now apply finishOk_runHandler.
  - now apply finishOk_catchBlock.
  - destruct (__sentryTransaction (res st)) as [transaction|] eqn:Htx; [|exact H].
    destruct H as (H1 & H2 & H3). unfold finishOk in *. autorewrite with loop.
    rewrite Htx in H1. simpl. rewrite isFinished_finish, H1, H2.
    destruct (isFinished transaction); simpl; repeat split; auto; discriminate.
  - now apply finishOk_callFlush.
Qed.

End Finish.

(** ** The wrapper's own thread *)

Section MainThread.

Variable env : Env.
Variable origHandler : Handler.

Lemma background_ok (st : State) (t : task) :
  isMainTask t = false -> mainTaskOk env origHandler st t.
Proof.
  destruct t as [| | c | c | ? ? c | ? c | c |]; simpl; try discriminate;
    destruct c; simpl; auto; discriminate.
Qed.

Lemma mainPending_zero_ok (st : State) (Q : list task) :
  mainPending Q = 0 -> Forall (mainTaskOk env origHandler st) Q.
Proof.
  induction Q as [|t Q IH]; intros H; constructor; autorewrite with loop in H.
  - apply background_ok. destruct (isMainTask t); [discriminate|reflexivity].
  - apply IH. lia.
Qed.

Lemma mainTaskOk_view (st st' : State) (t : task) :
  settlements (events st') = settlements (events st) ->
  captured (events st') = captured (events st) ->
  existsb isStatus500 (events st') = existsb isStatus500 (events st) ->
  heap st' = heap st -> processors st' = processors st -> endCalls st' = endCalls st ->
  mainTaskOk env origHandler st t -> mainTaskOk env origHandler st' t.
Proof.
  intros Hs Hc H5 Hh Hp He.
  destruct t as [| | c | c | ? ? c | ? c | c |]; simpl; try destruct c; simpl;
    unfold handlerRunning, inCatch, settled; rewrite ?Hs, ?Hc, ?H5, ?Hh, ?Hp, ?He; auto.
Qed.

(** A step that the main thread cannot tell apart from no step. *)
Lemma main_view (Q : list task) (st st' : State) :
  settlements (events st') = settlements (events st) ->
  captured (events st') = captured (events st) ->
  existsb isStatus500 (events st') = existsb isStatus500 (events st) ->
  count isHostEvent (events st') = count isHostEvent (events st) ->
  (finishesSee500 (events st) -> finishesSee500 (events st')) ->
  heap st' = heap st -> processors st' = processors st -> endCalls st' = endCalls st ->
  __sentryCapturedError (res st') = __sentryCapturedError (res st) ->
  statusCode (res st') = statusCode (res st) ->
  statusMessage (res st') = statusMessage (res st) ->
  option_map httpStatus (__sentryTransaction (res st')) =
  option_map httpStatus (__sentryTransaction (res st)) ->
  mainOk env origHandler Q st -> mainOk env origHandler Q st'.
Proof.
  intros Hs Hc H5 Hhe Hf Hh Hp He Hce Hsc Hsm Htx (M1 & M2 & M3 & M4 & M5 & M6).
  unfold mainOk. rewrite Hhe, H5, Hce, Hsc, Hsm.
  split; [exact M1|]. split; [|split; [|split; [exact M4|split; [|auto]]]].
  - eapply Forall_impl; [|exact M2]. intros t. now apply mainTaskOk_view.
  - intros H1. specialize (M3 H1). unfold settled in *. now rewrite Hs, Hc, He.
  - intros H. destruct (M5 H) as (A & B & C). repeat split; auto.
    intros t Ht. unfold httpStatus500 in C. rewrite Ht in Htx.
    destruct (__sentryTransaction (res st)) as [t0|]; simpl in Htx; [|discriminate].
    injection Htx as ->. now apply C.
Qed.

Lemma main_perm (Q Q' : list task) (st : State) :
  Permutation Q Q' -> mainOk env origHandler Q st -> mainOk env origHandler Q' st.
Proof.
  intros HP (M1 & M2 & M3). split; [|split]; auto.
  - now rewrite <- (mainPending_perm _ _ HP).
  - eapply Permutation_Forall; eauto.
Qed.

Lemma main_swap (t t' : task) (Q : list task) (st : State) :
  isMainTask t' = isMainTask t -> mainTaskOk env origHandler st t' ->
  mainOk env origHandler (t :: Q) st -> mainOk env origHandler (t' :: Q) st.
Proof.
  intros Hm Hok (M1 & M2 & M3). split; [|split]; auto.
  - autorewrite with loop in *. now rewrite Hm.
  - inversion M2; subst. now constructor.
Qed.

Lemma main_drop (t : task) (Q : list task) (st : State) :
  isMainTask t = false -> mainOk env origHandler (t :: Q) st -> mainOk env origHandler Q st.
Proof.
  intros Hm (M1 & M2 & M3). split; [|split]; auto.
  - autorewrite with loop in *. now rewrite Hm in M1.
  - now inversion M2.
Qed.

Lemma main_add (t : task) (Q : list task) (st : State) :
  isMainTask t = false -> mainOk env origHandler Q st -> mainOk env origHandler (t :: Q) st.
Proof.
  intros Hm (M1 & M2 & M3). split; [|split]; auto.
  - autorewrite with loop in *. now rewrite Hm.
  - constructor; [now apply background_ok|exact M2].
Qed.

Lemma main_pushMicro (t : task) (st : State) :
  mainOk env origHandler (t :: tasks st) st ->
  mainOk env origHandler (tasks (pushMicro t st)) (pushMicro t st).
Proof.
  intros H. eapply main_perm; [symmetry; apply tasks_pushMicro|].
  eapply main_view; [..|exact H]; auto.
Qed.

Lemma main_pushMacro (t : task) (st : State) :
  mainOk env origHandler (t :: tasks st) st ->
  mainOk env origHandler (tasks (pushMacro t st)) (pushMacro t st).
Proof.
  intros H. eapply main_perm; [symmetry; apply tasks_pushMacro|].
  eapply main_view; [..|exact H]; auto.
Qed.

Lemma main_callFlush (Q : list task) (c : caller) (st : State) :
  mainOk env origHandler Q st -> mainOk env origHandler Q (callFlush env c st).
Proof.
  intros H. unfold callFlush. destruct (turns _);
    (eapply main_view; [..|exact H]; try reflexivity; cbn; tauto).
Qed.

Lemma main_finishSentryWork (Q : list task) (c : caller) (st : State) :
  mainOk env origHandler Q st -> mainOk env origHandler Q (finishSentryWork env c st).
Proof.
  intros H. unfold finishSentryWork.
  destruct (__sentryTransaction (res st)) as [transaction|] eqn:Htx.
  - destruct H as (M1 & M2 & M3 & M4 & M5 & M6).
    split; [exact M1|]. split; [|split; [exact M3|split; [exact M4|split]]].
    + eapply Forall_impl; [|exact M2]. intros t. now apply mainTaskOk_view.
    + intros H. change (existsb isStatus500 (events st) = true) in H.
      destruct (M5 H) as (A & B & C). autorewrite with loop. simpl.
      repeat split; auto. intros t [= <-]. simpl. now rewrite A.
    + cbn. auto.
  - now apply main_callFlush.
Qed.

Lemma flushTask_main (c : caller) (st : State) :
  isMainTask (flushTask env c st) = isMainTask (TAfterFlush (FlushResolved true) c).
Proof. unfold flushTask. now destruct (turns _). Qed.

Lemma finishSentryWorkTask_main (c : caller) (st : State) :
  isMainTask (finishSentryWorkTask env c st) = isMainTask (TAfterFlush (FlushResolved true) c).
Proof.
  unfold finishSentryWorkTask. destruct (__sentryTransaction _); [reflexivity|].
  apply flushTask_main.
Qed.

Lemma flushTask_ok (b : jsval) (st st' : State) :
  inCatch env origHandler b st' ->
  mainTaskOk env origHandler st' (flushTask env (ByCatch b) st).
Proof. unfold flushTask. now destruct (turns _). Qed.

Lemma finishSentryWorkTask_ok (b : jsval) (st st' : State) :
  inCatch env origHandler b st' ->
  mainTaskOk env origHandler st' (finishSentryWorkTask env (ByCatch b) st).
Proof.
  unfold finishSentryWorkTask. destruct (__sentryTransaction _); [auto|].
  apply flushTask_ok.
Qed.

Lemma caller_task_ok (c : caller) (t t' : task) (st : State) :
  taskCaller t = Some c -> taskCaller t' = Some c ->
  mainTaskOk env origHandler st t -> mainTaskOk env origHandler st t'.
Proof.
  destruct t, t'; simpl; try discriminate; intros [= ->] [= ->]; auto.
Qed.

Lemma caller_task_main (c : caller) (t t' : task) :
  taskCaller t = Some c -> taskCaller t' = Some c -> isMainTask t' = isMainTask t.
Proof.
  destruct t, t'; simpl; try discriminate; intros [= ->] [= ->]; auto.
Qed.

(** The main thread moves on: its one task is replaced by the next. *)
Lemma main_advance (t t' : task) (Q : list task) (st st' : State) :
  mainOk env origHandler (t :: Q) st ->
  isMainTask t = true -> isMainTask t' = true ->
  mainTaskOk env origHandler st' t' ->
  count isHostEvent (events st') = count isHostEvent (events st) ->
  __sentryCapturedError (res st') = None ->
  (existsb isStatus500 (events st') = true ->
   statusCode (res st') = 500%Z /\
   statusMessage (res st') = "Internal Server Error" /\
   httpStatus500 (res st')) ->
  finishesSee500 (events st') ->
  mainOk env origHandler (t' :: Q) st'.
Proof.
  intros (M1 & M2 & M3 & M4 & M5 & M6) Ht Ht' Hok Hh Hc H5 H6.
  autorewrite with loop in M1. rewrite Ht in M1.
  unfold mainOk. autorewrite with loop. rewrite Ht', Hh.
  split; [exact M1|]. split; [|split; [|auto]].
  - constructor; [exact Hok|]. apply mainPending_zero_ok. lia.
  - intros H1. lia.
Qed.

Lemma finishSentryWork_view (c : caller) (st : State) :
  let st' := finishSentryWork env c st in
  settlements (events st') = settlements (events st) /\
  captured (events st') = captured (events st) /\
  existsb isStatus500 (events st') = existsb isStatus500 (events st) /\
  count isHostEvent (events st') = count isHostEvent (events st) /\
  (finishesSee500 (events st) -> finishesSee500 (events st')) /\
  heap st' = heap st /\ processors st' = processors st /\ endCalls st' = endCalls st /\
  __sentryCapturedError (res st') = __sentryCapturedError (res st) /\
  statusCode (res st') = statusCode (res st) /\
  statusMessage (res st') = statusMessage (res st) /\
  (forall t, __sentryTransaction (res st') = Some t ->
             httpStatus t = Some (statusCode (res st))).
Proof.
  unfold finishSentryWork, callFlush.
  destruct (__sentryTransaction (res st)) as [transaction|] eqn:Htx;
    [|destruct (turns _)]; cbn; rewrite ?Htx;
    repeat split; auto; try tauto; try discriminate.
  now intros t [= <-].
Qed.

Lemma main_newEnd (rest : list hstep) (r : hresult) (st : State) :
  mainOk env origHandler (THandler (HEnd :: rest) r :: tasks st) st ->
  mainOk env origHandler (THandler rest r :: tasks (newEnd env st)) (newEnd env st).
Proof.
  intros H. unfold newEnd.
  set (id := endCalls st). set (st1 := emit (EvNewEnd id) (countEnd st)).
  eapply main_perm with
    (Q := finishSentryWorkTask env (ByNewEnd id) st1 :: THandler rest r :: tasks st1).
  { rewrite tasks_finishSentryWork. apply perm_swap. }
  apply main_add; [now rewrite finishSentryWorkTask_main|].
  apply main_finishSentryWork.
  assert (Hrun : handlerRunning env origHandler (HEnd :: rest) r st).
  { destruct H as (_ & M2 & _). now inversion M2. }
  destruct Hrun as (R1 & R2 & R3 & R4 & R5 & R6 & R7).
  eapply main_advance with (t := THandler (HEnd :: rest) r) (st := st);
    [exact H|reflexivity|reflexivity| | | | |].
  - change (handlerRunning env origHandler rest r st1).
    unfold handlerRunning. subst st1. autorewrite with loop.
    change (countEnds (HEnd :: rest)) with (S (countEnds rest)) in R7.
    repeat split; auto. lia.
  - reflexivity.
  - apply H.
  - intros H5. change (existsb isStatus500 (events st) = true) in H5.
    rewrite R6 in H5. discriminate.
  - subst st1. cbn. split; [exact I|]. apply H.
Qed.

Lemma main_runHandler (rest : list hstep) (r : hresult) (st : State) :
  mainOk env origHandler (THandler rest r :: tasks st) st ->
  mainOk env origHandler (tasks (runHandler env rest r st)) (runHandler env rest r st).
Proof.
  revert st; induction rest as [|s rest IH]; intros st H.
  - simpl. apply main_pushMicro. eapply main_swap; [| |exact H]; [reflexivity|].
    destruct H as (_ & M2 & _). now inversion M2.
  - assert (Hrun : handlerRunning env origHandler (s :: rest) r st).
    { destruct H as (_ & M2 & _). now inversion M2. }
    destruct s; cbn [runHandler].
    + apply IH. destruct Hrun as (R1 & R2 & R3 & R4 & R5 & R6 & R7).
      eapply main_advance with (t := THandler (HSetStatus code :: rest) r) (st := st);
        [exact H|reflexivity|reflexivity| | | | |].
      * change (handlerRunning env origHandler rest r
                  (setRes (setStatusCode code (res st)) st)).
        unfold handlerRunning. repeat split; auto.
      * reflexivity.
      * apply H.
      * intros H5. change (existsb isStatus500 (events st) = true) in H5.
        rewrite R6 in H5. discriminate.
      * apply H.
    + apply IH. now apply main_newEnd.
    + apply main_pushMicro. eapply main_swap; [| |exact H]; [reflexivity|exact Hrun].
    + apply main_pushMacro. eapply main_swap; [| |exact H]; [reflexivity|exact Hrun].
Qed.

Lemma httpStatus_finish (now : nat) (t : Transaction) :
  httpStatus (finish now t) = httpStatus t.
Proof. unfold finish. now destruct (endTimestamp t). Qed.

Lemma main_catchBlock (e : jsval) (st : State) :
  mainOk env origHandler (TAfterHandler (HThrow e) :: tasks st) st ->
  mainOk env origHandler (tasks (catchBlock env origHandler e st))
         (catchBlock env origHandler e st).
Proof.
  intros H.
  assert (Hrun : handlerRunning env origHandler [] (HThrow e) st).
  { destruct H as (_ & M2 & _). now inversion M2. }
  destruct Hrun as (R1 & R2 & R3 & R4 & R5 & R6 & R7).
  assert (Hexp : expectedOutcome env origHandler = Rejected (boxedError env e)).
  { unfold expectedOutcome. now rewrite <- R1. }
  assert (Hcap : expectedCaptures env origHandler =
                 if hasScope env
                 then [(boxedError env e, [ParseRequest; ExceptionMechanism (mechanism origHandler)])]
                 else []).
  { unfold expectedCaptures. now rewrite <- R1. }
  unfold catchBlock. unfold boxedError in *. rewrite <- R2 in Hexp, Hcap.
  destruct (objectify e (heap st)) as [b heap'] eqn:Hobj. simpl in Hexp, Hcap.
  match goal with |- context [finishSentryWork env _ ?s] => set (st1 := s) end.
  assert (V : settlements (events st1) = [] /\
              captured (events st1) = expectedCaptures env origHandler /\
              existsb isStatus500 (events st1) = true /\
              count isHostEvent (events st1) = count isHostEvent (events st) /\
              (finishesSee500 (events st) -> finishesSee500 (events st1)) /\
              endCalls st1 = endCalls st /\
              __sentryCapturedError (res st1) = __sentryCapturedError (res st) /\
              statusCode (res st1) = 500%Z /\
              statusMessage (res st1) = "Internal Server Error" /\
              tasks st1 = tasks st).
  { subst st1. rewrite Hcap. unfold settlements, captured, events in R4, R5.
    destruct (hasScope env); cbn; rewrite ?R3, ?R4, ?R5; repeat split; auto; tauto. }
  destruct V as (V1 & V2 & V3 & V4 & V5 & V6 & V7 & V8 & V9 & V10).
  pose proof (finishSentryWork_view (ByCatch b) st1) as F. cbv zeta in F.
  destruct F as (F1 & F2 & F3 & F4 & F5 & F6 & F7 & F8 & F9 & F10 & F11 & F12).
  eapply main_perm; [symmetry; apply tasks_finishSentryWork|]. rewrite V10.
  eapply main_advance with (t := TAfterHandler (HThrow e)) (st := st);
    [exact H|reflexivity| | | | | |].
  - now rewrite finishSentryWorkTask_main.
  - apply finishSentryWorkTask_ok. unfold inCatch.
    rewrite F1, F2, F3, F8, V1, V2, V3, V6, Hexp. cbn in R7. repeat split; auto.
    rewrite <- R7. unfold countEnds. simpl. lia.
  - now rewrite F4, V4.
  - rewrite F9, V7. apply H.
  - intros _. rewrite F10, F11, V8, V9. split; [reflexivity|split; [reflexivity|]].
    intros t Ht. rewrite (F12 t Ht). now rewrite V8.
  - apply F5, V5, H.
Qed.

(** One task keeps the main thread on its track. *)
Lemma main_runTask (t : task) (st : State) :
  mainOk env origHandler (t :: tasks st) st ->
  mainOk env origHandler (tasks (runTask env origHandler t st)) (runTask env origHandler t st).
Proof.
  intros H.
  assert (Hok : mainTaskOk env origHandler st t).
  { destruct H as (_ & M2 & _). now inversion M2. }
  destruct t as [rest r|[v|e]|c|c|[|n] o c|o c|[id|b]|[v|e]]; cbn [runTask].
  - now apply main_runHandler.
  - destruct Hok as (R1 & R2 & R3 & R4 & R5 & R6 & R7).
    apply main_pushMicro.
    eapply main_advance with (t := TAfterHandler (HReturn v)) (st := st);
      [exact H|reflexivity|reflexivity| | | | |].
    + change (settled env origHandler (Resolved v)
                (emit (EvWrapperSettled (Resolved v))
                   (emit (EvSetFinished None true) (setRes (setFinished true (res st)) st)))).
      unfold settled, expectedOutcome, expectedCaptures. rewrite <- R1.
      unfold settlements, captured, events in R4, R5.
      cbn. rewrite R4, R5. repeat split; auto.
      rewrite <- R7. unfold countEnds. simpl. lia.
    + reflexivity.
    + apply H.
    + intros H5. change (existsb isStatus500 (events st) = true) in H5.
      rewrite R6 in H5. discriminate.
    + cbn. repeat split. apply H.
  - now apply main_catchBlock.
  - destruct (__sentryTransaction (res st)) as [transaction|] eqn:Htx.
    + apply main_pushMicro.
      eapply main_swap with (t := TFinishCallback c); [reflexivity| |].
      * eapply mainTaskOk_view with (st := st); try reflexivity.
        eapply caller_task_ok; [| |exact Hok]; reflexivity.
      * eapply main_view; [..|exact H]; try reflexivity.
        -- intros H6. cbn. destruct H as (_ & _ & _ & _ & M5 & _).
           split; [|exact H6]. split.
           ++ intros H5. destruct (M5 H5) as (_ & _ & C). now apply C.
           ++ destruct c as [id|b]; [exact I|]. apply Hok.
        -- autorewrite with loop. simpl. rewrite Htx. simpl.
           now rewrite httpStatus_finish.
    + apply main_pushMicro. eapply main_swap; [| |exact H]; [reflexivity|].
      eapply caller_task_ok; [| |exact Hok]; reflexivity.
  - eapply main_perm; [symmetry; apply tasks_callFlush|].
    apply main_callFlush. eapply main_swap; [| |exact H].
    + eapply caller_task_main; [reflexivity|apply flushTask_caller].
    + eapply caller_task_ok; [|apply flushTask_caller|exact Hok]. reflexivity.
  - apply main_pushMicro. eapply main_swap; [| |exact H]; [reflexivity|exact Hok].
  - apply main_pushMacro. eapply main_swap; [| |exact H]; [reflexivity|exact Hok].
  - apply main_pushMicro. eapply main_swap with (t := TAfterFlush o c); [reflexivity| |].
    + eapply mainTaskOk_view with (st := st); try reflexivity.
      eapply caller_task_ok; [| |exact Hok]; reflexivity.
    + eapply main_view; [..|exact H]; try reflexivity. cbn. tauto.
  - eapply main_view with (st := st); try reflexivity.
    + cbn. tauto.
    + eapply main_drop; [|exact H]. reflexivity.
  - destruct Hok as (C1 & C2 & C3 & C4 & C5).
    apply main_pushMicro.
    eapply main_advance with (t := TAfterFinishSentryWork (ByCatch b)) (st := st);
      [exact H|reflexivity|reflexivity| | | | |].
    + change (settled env origHandler (Rejected b) (emit (EvWrapperSettled (Rejected b)) st)).
      unfold settled. unfold settlements, events in C2. cbn. rewrite C2. repeat split; auto.
    + reflexivity.
    + apply H.
    + apply H.
    + cbn. repeat split. apply H.
  - destruct H as (M1 & M2 & M3 & M4 & M5 & M6).
    destruct Hok as (S1 & S2 & S3 & S4).
    unfold mainOk. autorewrite with loop in *. cbn [isHostEvent isMainTask] in *.
    split; [change (tasks (emit _ st)) with (tasks st); lia|].
    split; [|split; [|split; [exact M4|split; [exact M5|cbn; auto]]]].
    + inversion M2; subst. eapply Forall_impl; [|eassumption].
      intros t. now apply mainTaskOk_view.
    + intros _. rewrite <- S1. unfold settled. autorewrite with loop. cbn.
      repeat split; auto.
  - destruct H as (M1 & M2 & M3 & M4 & M5 & M6).
    destruct Hok as (S1 & S2 & S3 & S4).
    unfold mainOk. autorewrite with loop in *. cbn [isHostEvent isMainTask] in *.
    split; [change (tasks (emit _ st)) with (tasks st); lia|].
    split; [|split; [|split; [exact M4|split; [exact M5|cbn; auto]]]].
    + inversion M2; subst. eapply Forall_impl; [|eassumption].
      intros t. now apply mainTaskOk_view.
    + intros _. rewrite <- S1. unfold settled. autorewrite with loop. cbn.
      repeat split; auto.
Qed.

End MainThread.

(** ** Every reachable state *)

Section Reachable.

Variable env : Env.
Variable origHandler : Handler.

Lemma invariant_step (st st' : State) :
  step env origHandler st = Some st' ->
  invariant env origHandler st -> invariant env origHandler st'.
Proof.
  intros Hs (HT & HM & HF).
  destruct (step_cases _ _ _ _ Hs) as (t & st0 & -> & Hq & Hr & Hl & Hh & Hp & He & Hf).
  assert (Hev : events st0 = events st) by (unfold events; now rewrite Hl).
  rewrite Hq in HT, HM. split; [|split].
  - apply threads_runTask. eapply threads_same; [| | |exact HT]; auto.
    unfold hasTransaction. now rewrite Hr.
  - apply main_runTask. eapply main_view; [..|exact HM]; try rewrite Hev; try rewrite Hr; auto.
  - apply finishOk_runTask. eapply finishOk_same; [| |exact HF]; auto. now rewrite Hr.
Qed.

Lemma invariant_run (fuel : nat) (st : State) :
  invariant env origHandler st -> invariant env origHandler (run env origHandler fuel st).
Proof.
  revert st; induction fuel as [|fuel IH]; intros st H; simpl; [exact H|].
  destruct (step env origHandler st) as [st'|] eqn:E; [|exact H].
  apply IH. eapply invariant_step; eauto.
Qed.

Lemma invariant_start (req : Request) :
  invariant env origHandler (withSentry env origHandler req).
Proof.
  unfold withSentry.
  match goal with |- invariant _ _ (runHandler _ _ _ ?s) => set (st1 := s) end.
  assert (Hq : tasks st1 = []).
  { subst st1. destruct (hasScope env), (tracingEnabled env); reflexivity. }
  assert (Hev : existsb isStatus500 (events st1) = false /\ settlements (events st1) = [] /\
                captured (events st1) = [] /\ count isHostEvent (events st1) = 0 /\
                finishesSee500 (events st1) /\ orderedLog (transactionAttached env) (events st1) /\
                count isEffectiveFinish (events st1) = 0 /\
                count isWriteAfterEnd (events st1) = 0 /\
                (forall id, count (isOrigEnd id) (events st1) = 0) /\
                (forall id, count (isNewEnd id) (events st1) = 0)).
  { subst st1. destruct (hasScope env), (tracingEnabled env); cbn; repeat split; auto. }
  destruct Hev as (E1 & E2 & E3 & E4 & E5 & E6 & E7 & E8 & E9 & E10).
  assert (Hst : hasTransaction st1 = transactionAttached env /\ heap st1 = heap0 env /\
                processors st1 = (if hasScope env then [ParseRequest] else []) /\
                endCalls st1 = 0 /\ __sentryCapturedError (res st1) = None /\
                match __sentryTransaction (res st1) with
                | Some t => isFinished t = false
                | None => True
                end).
  { subst st1. unfold transactionAttached, hasTransaction.
    destruct (hasScope env), (tracingEnabled env); cbn; repeat split; auto. }
  destruct Hst as (S1 & S2 & S3 & S4 & S5 & S6).
  split; [|split].
  - apply threads_runHandler. rewrite Hq. unfold threadsOk. rewrite S4.
    repeat split; auto.
  - apply main_runHandler. rewrite Hq. unfold mainOk.
    autorewrite with loop. rewrite E4, E1. cbn [isMainTask].
    split; [reflexivity|]. split; [|split; [discriminate|split; [exact S5|split; [discriminate|exact E5]]]].
    constructor; [|constructor]. unfold mainTaskOk, handlerRunning.
    rewrite S4. repeat split; auto.
  - apply finishOk_runHandler. unfold finishOk. rewrite E7, E8.
    split; [|split; [reflexivity|]].
    + destruct (__sentryTransaction (res st1)); [now rewrite S6|reflexivity].
    + intros _. subst st1. destruct (hasScope env), (tracingEnabled env); reflexivity.
Qed.

(** Every state the event loop reaches satisfies the invariant. *)
Lemma invariant_reachable (req : Request) (fuel : nat) :
  invariant env origHandler (run env origHandler fuel (withSentry env origHandler req)).
Proof. apply invariant_run, invariant_start. Qed.

(** The fuel that is always enough. *)
Lemma enough_fuel (req : Request) :
  quiescent (run env origHandler (weight env (withSentry env origHandler req))
                 (withSentry env origHandler req)).
Proof. now apply run_quiescent. Qed.

End Reachable.

(** ** From the invariant to statements about logs *)

Lemma orderedLog_origEnd (tx : bool) (l : list event) (id : nat) :
  orderedLog tx l -> precededBy (isFlushSettledFor (ByNewEnd id)) (isOrigEnd id) l.
Proof.
  induction l as [|e l IH]; [intros _; apply precededBy_nil|].
  intros [He Hl]. apply precededBy_cons; auto.
  intros Hq. destruct e; simpl in Hq; try discriminate.
  apply Nat.eqb_eq in Hq. subst. exact He.
Qed.

Lemma orderedLog_flush (tx : bool) (l : list event) (c : caller) :
  tx = true -> orderedLog tx l -> precededBy (isFinishBy c) (isFlushSettledFor c) l.
Proof.
  intros Htx. induction l as [|e l IH]; [intros _; apply precededBy_nil|].
  intros [He Hl]. apply precededBy_cons; auto.
  intros Hq. destruct e; simpl in Hq; try discriminate.
  apply caller_eqb_eq in Hq. subst. now apply He.
Qed.

Lemma orderedLog_rejected (tx : bool) (l : list event) (b : jsval) :
  orderedLog tx l -> precededBy (isFlushSettledFor (ByCatch b)) (isRejection b) l.
Proof.
  induction l as [|e l IH]; [intros _; apply precededBy_nil|].
  intros [He Hl]. apply precededBy_cons; auto.
  intros Hq. destruct e as [| | | | | | | | | |[v|x]| |]; simpl in Hq; try discriminate.
  apply jsval_eqb_eq in Hq. subst. exact He.
Qed.




Lemma count_pos_existsb (p : event -> bool) (l : list event) :
  existsb p l = true -> 0 < count p l.
Proof.
  induction l as [|e l IH]; simpl; [discriminate|]. autorewrite with loop.
  destruct (p e); simpl; [lia|auto].
Qed.

Lemma existsb_count_pos (p : event -> bool) (l : list event) :
  0 < count p l -> existsb p l = true.
Proof.
  induction l as [|e l IH]; autorewrite with loop; simpl; [lia|].
  destruct (p e); simpl; auto.
Qed.

Lemma precededBy_present (p q : event -> bool) (l : list event) :
  precededBy p q l -> existsb q l = true -> existsb p l = true.
Proof.
  intros H Hq. apply existsb_exists in Hq as (e & Hin & He).
  apply in_split in Hin as (newer & older & ->).
  specialize (H newer e older eq_refl He).
  rewrite existsb_app. simpl. rewrite H. now rewrite !orb_true_r.
Qed.

Lemma settlements_present (o : outcome) (l : list event) :
  In o (settlements l) -> In (EvWrapperSettled o) l.
Proof.
  unfold settlements. intros H. apply in_flat_map in H as (e & Hin & He).
  destruct e; simpl in He; try contradiction. destruct He as [->|[]]. exact Hin.
Qed.

(** Sums of counts. *)
Lemma sumTo_ext (n : nat) (f g : nat -> nat) :
  (forall i, i < n -> f i = g i) -> sumTo n f = sumTo n g.
Proof.
  induction n as [|n IH]; intros H; simpl; [reflexivity|].
  rewrite H by lia. rewrite IH; [reflexivity|]. intros i Hi. apply H. lia.
Qed.

Lemma sumTo_add (n : nat) (f g : nat -> nat) :
  sumTo n (fun i => f i + g i) = sumTo n f + sumTo n g.
Proof. induction n as [|n IH]; simpl; [reflexivity|]. rewrite IH. lia. Qed.

Lemma sumTo_indicator (n i : nat) :
  sumTo n (fun j => if Nat.eqb i j then 1 else 0) = if (i <? n)%nat then 1 else 0.
Proof.
  induction n as [|n IH]; simpl sumTo; [reflexivity|]. rewrite IH.
  destruct (Nat.eqb_spec i n), (Nat.ltb_spec i n), (Nat.ltb_spec i (S n)); lia.
Qed.

Lemma sumTo_below (n : nat) :
  sumTo n (fun j => if (j <? n)%nat then 1 else 0) = n.
Proof.
  assert (H : forall m, m <= n -> sumTo m (fun j => if (j <? n)%nat then 1 else 0) = m).
  { induction m as [|m IH]; intros Hm; simpl sumTo; [reflexivity|].
    rewrite IH by lia. destruct (Nat.ltb_spec m n); lia. }
  now apply H.
Qed.

Lemma count_origEnd_sum (l : list event) (n : nat) :
  (forall id, n <= id -> count (isOrigEnd id) l = 0) ->
  count isAnyOrigEnd l = sumTo n (fun id => count (isOrigEnd id) l).
Proof.
  induction l as [|e l IH]; intros H.
  - rewrite (sumTo_ext n _ (fun _ => 0 + 0)) by reflexivity.
    clear. induction n; simpl; auto.
  - assert (Hl : forall id, n <= id -> count (isOrigEnd id) l = 0).
    { intros id Hid. specialize (H id Hid). autorewrite with loop in H. lia. }
    rewrite (sumTo_ext n _ (fun id => (if isOrigEnd id e then 1 else 0) + count (isOrigEnd id) l))
      by (intros; now autorewrite with loop).
    rewrite sumTo_add, <- (IH Hl). autorewrite with loop. f_equal.
    destruct e; simpl; try (clear; induction n; simpl; auto; fail).
    rewrite sumTo_indicator. destruct (Nat.ltb_spec id n) as [|Hge]; [reflexivity|].
    specialize (H id Hge). autorewrite with loop in H. simpl in H.
    rewrite Nat.eqb_refl in H. lia.
Qed.

Section ReadingTheInvariant.

Variable env : Env.
Variable origHandler : Handler.

Lemma mainPending_pos (Q : list task) :
  0 < mainPending Q -> exists t, In t Q /\ isMainTask t = true.
Proof.
  induction Q as [|t Q IH]; autorewrite with loop; [lia|].
  destruct (isMainTask t) eqn:E; intros H.
  - exists t. split; [now left|exact E].
  - destruct IH as (t' & Hin & Ht'); [simpl in H; lia|]. exists t'. split; [now right|exact Ht'].
Qed.

(** The wrapper's promise settles at most once, and only as expected. *)
Lemma main_phase (Q : list task) (st : State) :
  mainOk env origHandler Q st ->
  (settlements (events st) = [] \/ settlements (events st) = [expectedOutcome env origHandler]) /\
  (captured (events st) = [] \/ captured (events st) = expectedCaptures env origHandler).
Proof.
  intros (M1 & M2 & M3 & _).
  destruct (Nat.eq_dec (count isHostEvent (events st)) 1) as [H1|H1].
  - destruct (M3 H1) as (_ & S2 & S3 & _). auto.
  - destruct (mainPending_pos Q) as (t & Hin & Ht); [lia|].
    rewrite Forall_forall in M2. specialize (M2 t Hin).
    destruct t as [| | c | c | ? ? c | ? c | c |]; simpl in Ht, M2; try destruct c;
      try discriminate;
      try (destruct M2 as (_ & _ & _ & S4 & S5 & _); now auto);
      try (destruct M2 as (_ & S2 & S3 & _); now auto).
    destruct M2 as (-> & S2 & S3 & _). auto.
Qed.

Lemma quiescent_tasks (st : State) : quiescent st -> tasks st = [].
Proof. unfold tasks. now intros [-> ->]. Qed.

Lemma main_quiescent (st : State) :
  mainOk env origHandler (tasks st) st -> quiescent st ->
  settled env origHandler (expectedOutcome env origHandler) st.
Proof.
  intros (M1 & _ & M3 & _) Hq. rewrite (quiescent_tasks _ Hq) in M1.
  apply M3. autorewrite with loop in M1. lia.
Qed.

Lemma threads_quiescent (st : State) (id : nat) :
  threadsOk env (tasks st) st -> quiescent st ->
  count (isOrigEnd id) (events st) = if (id <? endCalls st)%nat then 1 else 0.
Proof.
  intros (_ & _ & _ & H4 & _) Hq. specialize (H4 id).
  rewrite (quiescent_tasks _ Hq) in H4. now autorewrite with loop in H4.
Qed.

Lemma origEndRuns_quiescent (st : State) :
  threadsOk env (tasks st) st -> quiescent st -> origEndRuns st = endCalls st.
Proof.
  intros HT Hq. unfold origEndRuns.
  rewrite (count_origEnd_sum _ (endCalls st)).
  - rewrite (sumTo_ext _ _ (fun j => if (j <? endCalls st)%nat then 1 else 0)).
    + apply sumTo_below.
    + intros i _. now apply threads_quiescent.
  - intros id Hid. rewrite threads_quiescent by assumption.
    destruct (Nat.ltb_spec id (endCalls st)); [lia|reflexivity].
Qed.

End ReadingTheInvariant.

(** ** With a transaction attached, the flip waits for a later turn *)

Section Turns.

Variable env : Env.
Variable origHandler : Handler.

Lemma enteredBefore_cons (id T : nat) (x : nat * event) (lg : list (nat * event)) :
  enteredBefore id T lg -> enteredBefore id T (x :: lg).
Proof. intros (t0 & Hin & Hlt). exists t0. split; [now right|exact Hlt]. Qed.

Lemma enteredBefore_later (id T T' : nat) (lg : list (nat * event)) :
  T <= T' -> enteredBefore id T lg -> enteredBefore id T' lg.
Proof. intros HT (t0 & Hin & Hlt). exists t0. split; [exact Hin|lia]. Qed.

Lemma poppedOk_emit (e : event) (st : State) (t : task) :
  poppedOk st t -> poppedOk (emit e st) t.
Proof.
  destruct t as [| | c | c | ? ? c | ? c | c |[v|x]]; simpl; auto;
    try (destruct c; auto; apply enteredBefore_cons).
  intros [H1 H2]. split; [exact H1|now right].
Qed.

Lemma microOk_emit (e : event) (st : State) (t : task) :
  microOk st t -> microOk (emit e st) t.
Proof. destruct t; unfold microOk; first [tauto | apply poppedOk_emit]. Qed.

Lemma macroOk_emit (e : event) (st : State) (t : task) :
  macroOk st t -> macroOk (emit e st) t.
Proof.
  destruct t as [| | c | c | ? ? c | ? c | c |]; simpl; auto;
    destruct c; auto; apply enteredBefore_cons.
Qed.

Lemma turns_emit (e : event) (st : State) :
  entryOk (log st) (turn st, e) -> turnsOk st -> turnsOk (emit e st).
Proof.
  intros He (H1 & H2 & H3 & H4). split; [exact H1|]. split; [|split].
  - eapply Forall_impl; [|exact H2]. intros t. apply microOk_emit.
  - eapply Forall_impl; [|exact H3]. intros t. apply macroOk_emit.
  - simpl. auto.
Qed.

Lemma turns_setRes (r : Response) (st : State) :
  __sentryTransaction r = __sentryTransaction (res st) \/
  (exists t, __sentryTransaction r = Some t) ->
  finished r = true \/ finished r = finished (res st) ->
  turnsOk st -> turnsOk (setRes r st).
Proof.
  intros Ht Hf (H1 & H2 & H3 & H4). split; [|split; [|split; [exact H3|exact H4]]].
  - unfold hasTransaction in *. autorewrite with loop.
    destruct Ht as [->|[t ->]]; auto.
  - eapply Forall_impl; [|exact H2].
    intros [| | | | | | |[v|x]]; simpl; auto.
    intros [F1 F2]. split; [|exact F2]. destruct Hf as [->| ->]; auto.
Qed.

Lemma turns_pushMicro (t : task) (st : State) :
  microOk st t -> turnsOk st -> turnsOk (pushMicro t st).
Proof.
  intros Ht (H1 & H2 & H3 & H4). split; [exact H1|]. split; [|split; [exact H3|exact H4]].
  autorewrite with loop. apply Forall_app. split; [exact H2|].
  constructor; [exact Ht|constructor].
Qed.

Lemma turns_pushMacro (t : task) (st : State) :
  macroOk st t -> turnsOk st -> turnsOk (pushMacro t st).
Proof.
  intros Ht (H1 & H2 & H3 & H4). split; [exact H1|]. split; [exact H2|split; [|exact H4]].
  autorewrite with loop. apply Forall_app. split; [exact H3|].
  constructor; [exact Ht|constructor].
Qed.

(** With a transaction, finishSentryWork always goes through
    setImmediate. *)
Lemma turns_finishSentryWork (c : caller) (st : State) :
  match c with ByNewEnd id => enteredBefore id (S (turn st)) (log st) | ByCatch _ => True end ->
  turnsOk st -> turnsOk (finishSentryWork env c st).
Proof.
  intros Hc H. unfold finishSentryWork.
  destruct (__sentryTransaction (res st)) as [transaction|] eqn:Htx.
  - apply turns_pushMacro.
    + destruct c; simpl; auto. now apply enteredBefore_cons.
    + apply turns_emit; [exact I|]. apply turns_setRes; auto.
      right. eexists. reflexivity.
  - destruct H as (H1 & _). unfold hasTransaction in H1. rewrite Htx in H1. discriminate.
Qed.

Lemma turns_newEnd (st : State) : turnsOk st -> turnsOk (newEnd env st).
Proof.
  intros H. unfold newEnd. apply turns_finishSentryWork.
  - exists (turn st). split; [now left|]. simpl. lia.
  - apply turns_emit; [exact I|exact H].
Qed.

Lemma turns_runHandler (rest : list hstep) (r : hresult) (st : State) :
  turnsOk st -> turnsOk (runHandler env rest r st).
Proof.
  revert st; induction rest as [|s rest IH]; intros st H.
  - simpl. now apply turns_pushMicro.
  - destruct s; cbn [runHandler].
    + apply IH. apply turns_setRes; auto.
    + apply IH. now apply turns_newEnd.
    + now apply turns_pushMicro.
    + now apply turns_pushMacro.
Qed.

Lemma turns_callFlush (c : caller) (st : State) :
  match c with ByNewEnd id => enteredBefore id (turn st) (log st) | ByCatch _ => True end ->
  turnsOk st -> turnsOk (callFlush env c st).
Proof.
  intros Hc H. unfold callFlush. destruct (turns _).
  - apply turns_pushMicro.
    + destruct c; simpl; auto. now apply enteredBefore_cons.
    + apply (turns_emit (EvFlushCalled c 2000) st); [exact I|exact H].
  - apply turns_pushMacro.
    + destruct c; simpl; auto. apply enteredBefore_cons.
      eapply enteredBefore_later; [|exact Hc]. simpl. lia.
    + apply (turns_emit (EvFlushCalled c 2000) st); [exact I|exact H].
Qed.

Lemma turns_catchBlock (e : jsval) (st : State) :
  turnsOk st -> turnsOk (catchBlock env origHandler e st).
Proof.
  intros H. unfold catchBlock. destruct (objectify e (heap st)) as [b heap'].
  apply turns_finishSentryWork; [exact I|].
  apply turns_emit; [exact I|]. apply turns_setRes.
  - left. destruct (hasScope env); reflexivity.
  - right. destruct (hasScope env); reflexivity.
  - destruct (hasScope env); [|exact H].
    apply (turns_emit (EvCaptureException b _)
             (addEventProcessor (ExceptionMechanism (mechanism origHandler)) (setHeap heap' st)));
      [exact I|exact H].
Qed.

(** The flip and the original end are one synchronous stretch: when the
    task is over the flag is up again. *)
Lemma turns_origEnd (id : nat) (st : State) :
  enteredBefore id (turn st) (log st) ->
  turnsOk st ->
  turnsOk (origEnd id (emit (EvSetFinished (Some (ByNewEnd id)) false)
                         (setRes (setFinished false (res st)) st))).
Proof.
  intros Hp (H1 & H2 & H3 & H4). split; [exact H1|]. split; [|split].
  - eapply Forall_impl; [|exact H2].
    intros [| | c | c | ? ? c | ? c | c |[v|x]]; simpl; auto;
      try (destruct c; auto; intros H; now do 2 apply enteredBefore_cons).
    intros [F1 F2]. split; [reflexivity|]. right. now right.
  - eapply Forall_impl; [|exact H3].
    intros [| | c | c | ? ? c | ? c | c |]; simpl; auto;
      destruct c; auto; intros H; now do 2 apply enteredBefore_cons.
  - simpl. repeat split; auto.
Qed.

Lemma turns_runTask (t : task) (st : State) :
  poppedOk st t -> turnsOk st -> turnsOk (runTask env origHandler t st).
Proof.
  intros Hp H.
  destruct t as [rest r|[v|e]|c|c|[|n] o c|o c|[id|b]|[v|e]]; cbn [runTask].
  - now apply turns_runHandler.
  - apply turns_pushMicro.
    + simpl. split; [reflexivity|]. right. now left.
    + apply turns_emit; [exact I|]. apply turns_emit; [exact I|].
      apply turns_setRes; auto.
  - now apply turns_catchBlock.
  - destruct (__sentryTransaction (res st)) as [transaction|] eqn:Htx.
    + apply turns_pushMicro.
      * destruct c; simpl in *; auto. now apply enteredBefore_cons.
      * apply turns_emit; [exact I|]. apply turns_setRes; auto.
        right. eexists. reflexivity.
    + now apply turns_pushMicro.
  - now apply turns_callFlush.
  - now apply turns_pushMicro.
  - apply turns_pushMacro; [|exact H]. destruct c; simpl in *; auto.
    eapply enteredBefore_later; [|exact Hp]. lia.
  - apply turns_pushMicro.
    + destruct c; simpl in *; auto. now apply enteredBefore_cons.
    + apply turns_emit; [exact I|exact H].
  - now apply turns_origEnd.
  - apply turns_pushMicro; [exact I|]. apply turns_emit; [exact I|exact H].
  - apply turns_emit; [|exact H]. simpl. exact Hp.
  - apply turns_emit; [exact I|exact H].
Qed.

Lemma turns_step (st st' : State) :
  step env origHandler st = Some st' -> turnsOk st -> turnsOk st'.
Proof.
  unfold step. intros Hs (H1 & H2 & H3 & H4).
  destruct (micro st) as [|t q] eqn:Hmi.
  - destruct (macro st) as [|t q] eqn:Hma; [discriminate|].
    injection Hs as <-. inversion H3 as [|? ? Ht Hq]; subst.
    apply turns_runTask.
    + destruct t as [| | c | c | ? ? c | ? c | c |]; simpl in *; auto; contradiction.
    + split; [exact H1|]. split; [constructor|]. split; [|exact H4].
      eapply Forall_impl; [|exact Hq].
      intros [| | c | c | ? ? c | ? c | c |]; simpl; auto; destruct c; auto;
        apply enteredBefore_later; lia.
  - injection Hs as <-. inversion H2 as [|? ? Ht Hq]; subst.
    apply turns_runTask.
    + destruct t; simpl in *; auto; contradiction.
    + split; [exact H1|]. split; [exact Hq|]. split; [exact H3|exact H4].
Qed.

Lemma turns_run (fuel : nat) (st : State) :
  turnsOk st -> turnsOk (run env origHandler fuel st).
Proof.
  revert st; induction fuel as [|fuel IH]; intros st H; simpl; [exact H|].
  destruct (step env origHandler st) as [st'|] eqn:E; [|exact H].
  apply IH. eapply turns_step; eauto.
Qed.

Lemma turns_start (req : Request) :
  transactionAttached env = true -> turnsOk (withSentry env origHandler req).
Proof.
  unfold transactionAttached, withSentry. intros Htx.
  apply andb_true_iff in Htx as [-> ->].
  apply turns_runHandler. repeat split; constructor.
Qed.

Lemma stampedLog_split (lg newer older : list (nat * event)) (x : nat * event) :
  stampedLog lg -> lg = (newer ++ x :: older)%list -> entryOk older x.
Proof.
  revert newer; induction lg as [|y lg IH]; intros newer H Hl.
  - destruct newer; discriminate.
  - destruct newer as [|z newer]; simpl in Hl; injection Hl as -> ->.
    + apply H.
    + eapply IH; [apply H|reflexivity].
Qed.

(** X9: with a transaction attached, whatever the handler and the backend
    do: the flag is flipped back for an invocation of the wrapped end
    only in a turn after the one in which that invocation was entered,
    and the host's check, made in the turn in which the wrapper marked
    the response finished, finds the flag up. *)
Lemma flip_back_waits_for_a_later_turn (req : Request) (fuel : nat) :
  transactionAttached env = true ->
  let lg := log (run env origHandler fuel (withSentry env origHandler req)) in
  (forall newer t1 id older,
     lg = (newer ++ (t1, EvSetFinished (Some (ByNewEnd id)) false) :: older)%list ->
     exists t0, In (t0, EvNewEnd id) older /\ t0 < t1) /\
  (forall newer t f older,
     lg = (newer ++ (t, EvHostCheck f) :: older)%list ->
     f = true /\ In (t, EvSetFinished None true) older).
Proof.
  intros Htx lg.
  destruct (turns_run fuel _ (turns_start req Htx)) as (_ & _ & _ & H4). fold lg in H4.
  split.
  - intros newer t1 id older Hl. exact (stampedLog_split _ _ _ _ H4 Hl).
  - intros newer t f older Hl. exact (stampedLog_split _ _ _ _ H4 Hl).
Qed.

End Turns.

(** ** The claims *)

(** C1, as stated, fails: a handler that calls the wrapped end twice
    makes the real end run twice for one request. *)
Lemma real_end_runs_twice_when_end_is_called_twice :
  ~ realEndRunsExactlyOncePerRequest tracingEnv endsTwice sampleRequest.
Proof.
  intros H. specialize (H 30). cbv zeta in H.
  assert (Hq : quiescent (run tracingEnv endsTwice 30
                            (withSentry tracingEnv endsTwice sampleRequest))).
  { split; vm_compute; reflexivity. }
  specialize (H Hq). vm_compute in H. discriminate.
Qed.

(** C1, amended: every invocation of the wrapped end method calls the
    original end exactly once, and only after the flush awaited by that
    invocation has settled, which (when a transaction is attached) comes
    after that invocation's finish of the transaction; so for a request
    the original end runs as many times as the handler invoked the
    wrapped end. *)
Theorem wrapped_end_delegates_once_after_finish_and_flush
    (env : Env) (h : Handler) (req : Request) :
  (forall fuel id,
     let l := events (run env h fuel (withSentry env h req)) in
     count (isOrigEnd id) l <= 1 /\
     precededBy (isFlushSettledFor (ByNewEnd id)) (isOrigEnd id) l /\
     (transactionAttached env = true ->
      precededBy (isFinishBy (ByNewEnd id)) (isFlushSettledFor (ByNewEnd id)) l)) /\
  (forall fuel, weight env (withSentry env h req) <= fuel ->
   let st := run env h fuel (withSentry env h req) in
   quiescent st /\
   endCalls st = countEnds (steps h) /\
   origEndRuns st = countEnds (steps h) /\
   forall id, id < countEnds (steps h) ->
     count (isNewEnd id) (events st) = 1 /\ count (isOrigEnd id) (events st) = 1).
Proof.
  split.
  - intros fuel id l.
    destruct (invariant_reachable env h req fuel) as ((T1 & T2 & T3 & T4 & T5) & _ & _).
    subst l. split; [|split].
    + specialize (T4 id). destruct (Nat.ltb id _) in T4; lia.
    + eapply orderedLog_origEnd; eauto.
    + intros Htx. apply (orderedLog_flush (transactionAttached env)); [exact Htx|exact T3].
  - intros fuel Hfuel st. subst st. rewrite (run_enough env h fuel _ Hfuel).
    set (st := run env h (weight env (withSentry env h req)) (withSentry env h req)).
    pose proof (enough_fuel env h req) as Hq. fold st in Hq.
    destruct (invariant_reachable env h req (weight env (withSentry env h req)))
      as (HT & HM & _). fold st in HT, HM.
    destruct (main_quiescent _ _ _ HM Hq) as (_ & _ & _ & He).
    split; [exact Hq|]. split; [exact He|]. split.
    + rewrite <- He. eapply origEndRuns_quiescent; eauto.
    + intros id Hid. rewrite <- He in Hid. split.
      * destruct HT as (_ & _ & _ & _ & T5). rewrite T5.
        destruct (Nat.ltb_spec id (endCalls st)); [reflexivity|lia].
      * rewrite (threads_quiescent env st id HT Hq).
        destruct (Nat.ltb_spec id (endCalls st)); [reflexivity|lia].
Qed.

Lemma wrapped_end_delegates_once_after_finish_and_flush_witness :
  transactionAttached tracingEnv = true /\
  1 < countEnds (steps endsTwice) /\
  precededBy (isFinishBy (ByNewEnd 1)) (isFlushSettledFor (ByNewEnd 1))
    (events (run tracingEnv endsTwice 30 (withSentry tracingEnv endsTwice sampleRequest))) /\
  count (isOrigEnd 1)
    (events (run tracingEnv endsTwice
               (weight tracingEnv (withSentry tracingEnv endsTwice sampleRequest))
               (withSentry tracingEnv endsTwice sampleRequest))) = 1.
Proof.
  split; [reflexivity|]. split; [vm_compute; lia|].
  pose proof (wrapped_end_delegates_once_after_finish_and_flush
                tracingEnv endsTwice sampleRequest) as [Hsafe Hlive].
  split.
  - apply (Hsafe 30 1). reflexivity.
  - specialize (Hlive _ (le_n _)). cbv zeta in Hlive.
    destruct Hlive as (_ & _ & _ & H). apply H. vm_compute; lia.
Defined.

(** C2: without a transaction on the response (tracing off, no client, so
    flush rejects at once), the wrapped end awaits no setImmediate: the
    flag is flipped back and the real end runs in the very turn in which
    the handler called res.end, ahead of the host's check. *)
Theorem flip_back_in_the_turn_of_the_end_call_without_transaction :
  let st := run noClientEnv endsOnce 20 (withSentry noClientEnv endsOnce sampleRequest) in
  quiescent st /\
  __sentryTransaction (res st) = None /\
  rev (log st) =
    [(0, EvNewEnd 0);
     (0, EvFlushCalled (ByNewEnd 0) 2000);
     (0, EvFlushSettled (ByNewEnd 0) (FlushRejected (VBoolean false)));
     (0, EvSetFinished None true);
     (0, EvWrapperSettled (Resolved VUndefined));
     (0, EvSetFinished (Some (ByNewEnd 0)) false);
     (0, EvOrigEnd 0 false);
     (0, EvHostCheck true)].
Proof. repeat split. Qed.

(** C3: finish on a finished transaction changes nothing; however often
    the wrapped end is invoked on one response, the transaction is
    finished effectively at most once, the original end is never called
    on a response still marked finished (no write-after-end fault), and
    the event loop runs dry with every invocation having reached the
    original end (nothing throws, nothing hangs). *)
Theorem repeated_completion_is_safe (env : Env) (h : Handler) (req : Request) :
  (forall now later t, finish later (finish now t) = finish now t) /\
  (forall fuel,
     let l := events (run env h fuel (withSentry env h req)) in
     count isEffectiveFinish l <= 1 /\ count isWriteAfterEnd l = 0) /\
  (forall fuel, weight env (withSentry env h req) <= fuel ->
   let st := run env h fuel (withSentry env h req) in
   quiescent st /\
   forall id, id < countEnds (steps h) -> count (isOrigEnd id) (events st) = 1).
Proof.
  split; [exact finish_idempotent|]. split.
  - intros fuel l. destruct (invariant_reachable env h req fuel) as (_ & _ & (F1 & F2 & _)).
    subst l. split; [|exact F2]. rewrite F1.
    destruct (__sentryTransaction _) as [t|]; [destruct (isFinished t)|]; lia.
  - intros fuel Hfuel st. subst st. rewrite (run_enough env h fuel _ Hfuel).
    set (st := run env h (weight env (withSentry env h req)) (withSentry env h req)).
    pose proof (enough_fuel env h req) as Hq. fold st in Hq.
    destruct (invariant_reachable env h req (weight env (withSentry env h req)))
      as (HT & HM & _). fold st in HT, HM.
    destruct (main_quiescent _ _ _ HM Hq) as (_ & _ & _ & He).
    split; [exact Hq|]. intros id Hid. rewrite <- He in Hid.
    rewrite (threads_quiescent env st id HT Hq).
    destruct (Nat.ltb_spec id (endCalls st)); [reflexivity|lia].
Qed.

Lemma repeated_completion_is_safe_witness :
  1 < countEnds (steps endsTwice) /\
  count (isOrigEnd 1)
    (events (run failingFlushEnv endsTwice
               (weight failingFlushEnv (withSentry failingFlushEnv endsTwice sampleRequest))
               (withSentry failingFlushEnv endsTwice sampleRequest))) = 1.
Proof.
  split; [vm_compute; lia|].
  pose proof (repeated_completion_is_safe failingFlushEnv endsTwice sampleRequest)
    as (_ & _ & Hlive).
  specialize (Hlive _ (le_n _)). cbv zeta in Hlive.
  destruct Hlive as (_ & H). apply H. vm_compute; lia.
Defined.

(** Boxing: the boxed value is an object; a primitive gets a wrapper
    object of its own, an object is returned as it is. *)
Lemma objectify_boxes (e : jsval) (heap : list cell) :
  (exists ref, fst (objectify e heap) = VObject ref) /\
  match e with
  | VObject _ => objectify e heap = (e, heap)
  | _ => fst (objectify e heap) = VObject (List.length heap) /\
         nth_error (snd (objectify e heap)) (List.length heap) = Some (Boxed e)
  end.
Proof.
  destruct e; simpl; (split; [eauto|]); try reflexivity;
    (split; [reflexivity|]); rewrite nth_error_app2, Nat.sub_diag by lia; reflexivity.
Qed.




(** C7: when the handler raises, the wrapper's promise rejects with the
    boxed error, the very object that went to captureException, and only
    after the flush awaited by the catch block has settled, which (when
    a transaction is attached) comes after that block's finish. *)
Theorem error_bridge_rethrows_the_boxed_error
    (env : Env) (h : Handler) (req : Request) (e : jsval) :
  result h = HThrow e ->
  let b := boxedError env e in
  (exists ref, b = VObject ref) /\
  match e with
  | VObject _ => b = e
  | _ => b = VObject (List.length (heap0 env)) /\
         nth_error (snd (objectify e (heap0 env))) (List.length (heap0 env)) = Some (Boxed e)
  end /\
  (forall fuel,
     let l := events (run env h fuel (withSentry env h req)) in
     (forall o, In o (settlements l) -> o = Rejected b) /\
     (forall x ps, In (x, ps) (captured l) -> x = b) /\
     precededBy (isFlushSettledFor (ByCatch b)) (isRejection b) l /\
     (transactionAttached env = true ->
      precededBy (isFinishBy (ByCatch b)) (isFlushSettledFor (ByCatch b)) l)) /\
  (forall fuel, weight env (withSentry env h req) <= fuel ->
   let st := run env h fuel (withSentry env h req) in
   quiescent st /\
   settlements (events st) = [Rejected b] /\
   (hasScope env = true ->
    captured (events st) = [(b, [ParseRequest; ExceptionMechanism (mechanism h)])])).
Proof.
  intros Hr b.
  assert (Hout : expectedOutcome env h = Rejected b).
  { unfold expectedOutcome. now rewrite Hr. }
  assert (Hcap : expectedCaptures env h =
                 if hasScope env then [(b, [ParseRequest; ExceptionMechanism (mechanism h)])]
                 else []).
  { unfold expectedCaptures. now rewrite Hr. }
  pose proof (objectify_boxes e (heap0 env)) as [Hbox Hkind].
  split; [exact Hbox|]. split.
  { unfold b, boxedError. destruct e; try exact Hkind. now rewrite Hkind. }
  split.
  - intros fuel l. destruct (invariant_reachable env h req fuel) as (HT & HM & _).
    destruct (main_phase env h _ _ HM) as [Hs Hc]. fold l in Hs, Hc.
    rewrite Hout in Hs. rewrite Hcap in Hc.
    destruct HT as (_ & _ & T3 & _). fold l in T3.
    split; [|split; [|split]].
    + intros o Ho. destruct Hs as [Hs|Hs]; rewrite Hs in Ho; simpl in Ho; intuition.
    + intros x ps Hx. destruct Hc as [Hc|Hc]; rewrite Hc in Hx; [contradiction|].
      destruct (hasScope env); simpl in Hx; [|contradiction].
      destruct Hx as [Hx|[]]. now injection Hx.
    + eapply orderedLog_rejected; eauto.
    + intros Htx. apply (orderedLog_flush (transactionAttached env)); [exact Htx|exact T3].
  - intros fuel Hfuel st. subst st. rewrite (run_enough env h fuel _ Hfuel).
    set (st := run env h (weight env (withSentry env h req)) (withSentry env h req)).
    pose proof (enough_fuel env h req) as Hq. fold st in Hq.
    destruct (invariant_reachable env h req (weight env (withSentry env h req)))
      as (_ & HM & _). fold st in HM.
    destruct (main_quiescent _ _ _ HM Hq) as (_ & Hs & Hc & _).
    split; [exact Hq|]. split; [now rewrite Hs, Hout|].
    intros Hscope. now rewrite Hc, Hcap, Hscope.
Qed.

Lemma error_bridge_rethrows_the_boxed_error_witness :
  result throwsBoom = HThrow (VString "boom") /\
  settlements (events (run tracingEnv throwsBoom
                         (weight tracingEnv (withSentry tracingEnv throwsBoom sampleRequest))
                         (withSentry tracingEnv throwsBoom sampleRequest))) =
  [Rejected (VObject 0)].
Proof.
  split; [reflexivity|].
  pose proof (error_bridge_rethrows_the_boxed_error tracingEnv throwsBoom sampleRequest
                (VString "boom") eq_refl) as H.
  cbv zeta in H. destruct H as (_ & _ & _ & H).
  exact (proj1 (proj2 (H _ (le_n _)))).
Defined.

(** C8: whatever the backend's flush does (resolve or reject, at once or
    turns later), finishSentryWork returns normally: the wrapper's
    promise settles exactly once and with the handler's own outcome (its
    return value, or its raised value boxed), never with a flush error,
    and every invocation of the wrapped end reaches the original end. *)
Theorem flush_failure_never_surfaces (env : Env) (h : Handler) (req : Request) :
  let expected :=
    match result h with
    | HReturn v => Resolved v
    | HThrow e => Rejected (fst (objectify e (heap0 env)))
    end in
  (forall fuel o,
     In o (settlements (events (run env h fuel (withSentry env h req)))) -> o = expected) /\
  (forall fuel, weight env (withSentry env h req) <= fuel ->
   let st := run env h fuel (withSentry env h req) in
   quiescent st /\
   settlements (events st) = [expected] /\
   forall id, id < countEnds (steps h) ->
     existsb (isFlushSettledFor (ByNewEnd id)) (events st) = true /\
     count (isOrigEnd id) (events st) = 1).
Proof.
  intros expected. split.
  - intros fuel o Ho. destruct (invariant_reachable env h req fuel) as (_ & HM & _).
    destruct (main_phase env h _ _ HM) as [[Hs|Hs] _]; rewrite Hs in Ho; simpl in Ho.
    + contradiction.
    + destruct Ho as [<-|[]]. reflexivity.
  - intros fuel Hfuel st. subst st. rewrite (run_enough env h fuel _ Hfuel).
    set (st := run env h (weight env (withSentry env h req)) (withSentry env h req)).
    pose proof (enough_fuel env h req) as Hq. fold st in Hq.
    destruct (invariant_reachable env h req (weight env (withSentry env h req)))
      as (HT & HM & _). fold st in HT, HM.
    destruct (main_quiescent _ _ _ HM Hq) as (_ & Hs & _ & He).
    split; [exact Hq|]. split; [exact Hs|].
    intros id Hid. rewrite <- He in Hid.
    assert (Hc : count (isOrigEnd id) (events st) = 1).
    { rewrite (threads_quiescent env st id HT Hq).
      destruct (Nat.ltb_spec id (endCalls st)); [reflexivity|lia]. }
    split; [|exact Hc].
    destruct HT as (_ & _ & T3 & _).
    eapply precededBy_present; [eapply orderedLog_origEnd; eauto|].
    apply existsb_count_pos. lia.
Qed.

Lemma flush_failure_never_surfaces_witness :
  0 < countEnds (steps endsTwice) /\
  existsb (isFlushSettledFor (ByNewEnd 0))
    (events (run failingFlushEnv endsTwice
               (weight failingFlushEnv (withSentry failingFlushEnv endsTwice sampleRequest))
               (withSentry failingFlushEnv endsTwice sampleRequest))) = true /\
  count (isOrigEnd 0)
    (events (run failingFlushEnv endsTwice
               (weight failingFlushEnv (withSentry failingFlushEnv endsTwice sampleRequest))
               (withSentry failingFlushEnv endsTwice sampleRequest))) = 1.
Proof.
  split; [vm_compute; lia|].
  pose proof (flush_failure_never_surfaces failingFlushEnv endsTwice sampleRequest)
    as (_ & Hlive).
  specialize (Hlive _ (le_n _)). cbv zeta in Hlive.
  destruct Hlive as (_ & _ & H). apply H. vm_compute; lia.
Defined.

(** * Further properties of the code *)

(** ** Query parameters and the path *)

Lemma prefix_append (p s : string) : prefix p (p ++ s) = true.
Proof.
  induction p as [|a p IH]; simpl; [now destruct s|].
  destruct (Ascii.ascii_dec a a); [exact IH|congruence].
Qed.

Lemma splitFirst_complete (pat before after : string) :
  Str.splitFirst pat (before ++ pat ++ after) <> None.
Proof.
  induction before as [|c before IH].
  - simpl. destruct (pat ++ after) eqn:E; cbn [Str.splitFirst];
      rewrite <- E, prefix_append; discriminate.
  - cbn [append Str.splitFirst].
    destruct (prefix pat (String c (before ++ pat ++ after))); [discriminate|].
    destruct (Str.splitFirst pat (before ++ pat ++ after)) as [[b a]|]; [discriminate|].
    now elim IH.
Qed.

(** [splitFirst] finds the pattern exactly when it occurs. *)
Lemma splitFirst_none_iff (pat s : string) :
  Str.splitFirst pat s = None <-> ~ occurs pat s.
Proof.
  split.
  - intros H (before & after & ->). now apply (splitFirst_complete pat before after).
  - intros H. destruct (Str.splitFirst pat s) as [[b a]|] eqn:E; [|reflexivity].
    elim H. exists b, a. now apply splitFirst_decompose.
Qed.

(** X1: query parameters whose values do not occur in the path (the
    parameters of an ordinary query string) leave the path, and so the
    transaction name, as it is. *)
Theorem values_absent_from_path_leave_it_unchanged (reqPath : string) (query : Query) :
  (forall key value, In (key, value) query -> ~ occurs value reqPath) ->
  replaceQueryValues reqPath query = reqPath.
Proof.
  unfold replaceQueryValues. induction query as [|[k v] query IH]; intros H; simpl.
  - reflexivity.
  - rewrite replace_absent.
    + apply IH. intros key value Hin. apply (H key value). now right.
    + apply splitFirst_none_iff. apply (H k v). now left.
Qed.

Lemma values_absent_from_path_leave_it_unchanged_witness :
  (forall key value, In (key, value) [("page", "2"); ("sort", "asc")] ->
                     ~ occurs value "/api/users") /\
  replaceQueryValues "/api/users" [("page", "2"); ("sort", "asc")] = "/api/users".
Proof.
  assert (H : forall key value, In (key, value) [("page", "2"); ("sort", "asc")] ->
                                ~ occurs value "/api/users").
  { intros key value [[= <- <-]|[[= <- <-]|[]]]; apply splitFirst_none_iff; reflexivity. }
  split; [exact H|].
  apply (values_absent_from_path_leave_it_unchanged "/api/users" _ H).
Defined.

Lemma splitFirst_empty (s : string) : Str.splitFirst "" s = Some ("", s).
Proof. destruct s; reflexivity. Qed.

(** X2: a query parameter with an empty value matches at the very start
    of the path: its bracketed name is put in front of the path, whatever
    the path is. *)
Theorem empty_value_puts_placeholder_in_front
    (reqPath key : string) (rest : Query) :
  Str.noDollar key = true ->
  replaceQueryValues reqPath ((key, "") :: rest) =
  replaceQueryValues ("[" ++ key ++ "]" ++ reqPath) rest.
Proof.
  intros Hk. unfold replaceQueryValues. cbn [fold_left fst snd].
  destruct (replace_first_occurrence reqPath key "" "" reqPath (splitFirst_empty reqPath) Hk)
    as [_ H].
  rewrite H. cbn [append]. now rewrite append_assoc.
Qed.

Lemma empty_value_puts_placeholder_in_front_witness :
  Str.noDollar "id" = true /\
  replaceQueryValues "/api/users" [("id", "")] = "[id]/api/users".
Proof.
  split; [reflexivity|].
  apply (empty_value_puts_placeholder_in_front "/api/users" "id" []). reflexivity.
Defined.

Lemma getSubstitution_plain_prefix (m b a k r : string) :
  Str.noDollar k = true ->
  Str.getSubstitution m b a (k ++ r) = k ++ Str.getSubstitution m b a r.
Proof.
  induction k as [|c k IH]; intros H; [reflexivity|].
  simpl in H. apply andb_true_iff in H as [Hc Hk].
  cbn [append]. rewrite getSubstitution_plain_char.
  - now rewrite IH.
  - intros ->. discriminate.
Qed.

(** X3: the bracketed parameter name is used as a replacement pattern,
    not as literal text: in a name, [$&] stands for the matched value
    and [$$] for one dollar sign, so such a name does not show up in the
    path as it is written. *)
Theorem dollar_patterns_in_a_name_are_expanded
    (reqPath value k1 k2 before after : string) :
  Str.splitFirst value reqPath = Some (before, after) ->
  Str.noDollar k1 = true -> Str.noDollar k2 = true ->
  Str.replace reqPath value ("[" ++ k1 ++ "$&" ++ k2 ++ "]") =
    before ++ ("[" ++ k1 ++ value ++ k2 ++ "]") ++ after /\
  Str.replace reqPath value ("[" ++ k1 ++ "$$" ++ k2 ++ "]") =
    before ++ ("[" ++ k1 ++ "$" ++ k2 ++ "]") ++ after.
Proof.
  intros Hs H1 H2. unfold Str.replace. rewrite Hs.
  assert (Htail : forall m b a, Str.getSubstitution m b a (k2 ++ "]") = k2 ++ "]").
  { intros. apply getSubstitution_noDollar. rewrite noDollar_append, H2. reflexivity. }
  split; f_equal; f_equal.
  - rewrite (getSubstitution_plain_prefix _ _ _ "[" _ eq_refl). cbn [append]. f_equal.
    rewrite getSubstitution_plain_prefix by exact H1. f_equal.
    change ("$&" ++ k2 ++ "]") with (String "$" (String "&" (k2 ++ "]"))).
    cbn [Str.getSubstitution]. now rewrite Htail.
  - rewrite (getSubstitution_plain_prefix _ _ _ "[" _ eq_refl). cbn [append]. f_equal.
    rewrite getSubstitution_plain_prefix by exact H1. f_equal.
    change ("$$" ++ k2 ++ "]") with (String "$" (String "$" (k2 ++ "]"))).
    cbn [Str.getSubstitution]. now rewrite Htail.
Qed.

Lemma dollar_patterns_in_a_name_are_expanded_witness :
  Str.splitFirst "42" "/users/42/posts" = Some ("/users/", "/posts") /\
  Str.noDollar "a" = true /\ Str.noDollar "b" = true /\
  Str.replace "/users/42/posts" "42" "[a$&b]" = "/users/[a42b]/posts".
Proof.
  split; [reflexivity|]. split; [reflexivity|]. split; [reflexivity|].
  apply (dollar_patterns_in_a_name_are_expanded "/users/42/posts" "42" "a" "b"
           "/users/" "/posts"); reflexivity.
Defined.

Lemma upperChar_idempotent (c : ascii) : Str.upperChar (Str.upperChar c) = Str.upperChar c.
Proof. destruct c as [[] [] [] [] [] [] [] []]; reflexivity. Qed.

Lemma toUpperCase_idempotent (s : string) :
  Str.toUpperCase (Str.toUpperCase s) = Str.toUpperCase s.
Proof. induction s; simpl; [reflexivity|]. now rewrite upperChar_idempotent, IHs. Qed.

(** X4: the method in the transaction name: a request without a method,
    or with an empty one, is named as a GET, and the case in which the
    method is written does not matter. *)
Theorem method_defaults_to_GET_and_its_case_is_ignored
    (m url : string) (query : option Query) :
  transactionName None url query = transactionName (Some "GET") url query /\
  transactionName (Some "") url query = transactionName (Some "GET") url query /\
  transactionName (Some (Str.toUpperCase m)) url query = transactionName (Some m) url query.
Proof.
  split; [reflexivity|]. split; [reflexivity|].
  unfold transactionName. f_equal. f_equal.
  destruct m as [|c m]; [reflexivity|].
  cbn [Str.toUpperCase methodOrGet].
  now rewrite upperChar_idempotent, toUpperCase_idempotent.
Qed.

(** ** The transaction on the response *)

Section TransactionIdentity.

Variable env : Env.
Variable origHandler : Handler.







End TransactionIdentity.

(** ** The status that finish reports *)

Section StatusCopy.

Variable env : Env.
Variable origHandler : Handler.

Lemma statusBase_same (st st' : State) :
  events st' = events st ->
  __sentryTransaction (res st') = __sentryTransaction (res st) ->
  statusCopyBase st -> statusCopyBase st'.
Proof. unfold statusCopyBase, hasTransaction. intros -> ->. auto. Qed.

Lemma statusCopy_same (st st' : State) :
  events st' = events st ->
  __sentryTransaction (res st') = __sentryTransaction (res st) ->
  statusCopyOk st -> statusCopyOk st'.
Proof.
  intros He Ht [Hb H4]. split; [eapply statusBase_same; eauto|].
  unfold hasTransaction in *. rewrite He, Ht. exact H4.
Qed.

Lemma statusBase_emit (e : event) (st : State) :
  match e with
  | EvSetHttpStatus _ _ | EvTransactionFinish _ _ _ => False
  | _ => True
  end ->
  statusCopyBase st -> statusCopyBase (emit e st).
Proof.
  intros He (H1 & H2 & H3).
  assert (Hl : lastHttpStatus (events (emit e st)) = lastHttpStatus (events st)).
  { destruct e; try contradiction; reflexivity. }
  unfold statusCopyBase. rewrite Hl. split; [exact H1|]. split; [|exact H3].
  autorewrite with loop. destruct e; try contradiction; simpl; auto.
Qed.

Lemma statusCopy_emit (e : event) (st : State) :
  match e with
  | EvSetHttpStatus _ _ | EvTransactionFinish _ _ _ | EvNewEnd _ | EvSetStatus _ _ => False
  | _ => True
  end ->
  statusCopyOk st -> statusCopyOk (emit e st).
Proof.
  intros He [Hb H4]. split.
  - apply statusBase_emit; [|exact Hb]. destruct e; auto.
  - destruct e; try contradiction; exact H4.
Qed.

Lemma statusCopy_callFlush (c : caller) (st : State) :
  statusCopyOk st -> statusCopyOk (callFlush env c st).
Proof.
  intros H. unfold callFlush.
  destruct (turns _);
    (eapply statusCopy_same with (st := emit (EvFlushCalled c 2000) st);
     [reflexivity|reflexivity|now apply statusCopy_emit]).
Qed.

(** finishSentryWork copies the status whenever there is a transaction. *)
Lemma statusCopy_finishSentryWork (c : caller) (st : State) :
  statusCopyBase st -> statusCopyOk (finishSentryWork env c st).
Proof.
  intros Hb. pose proof Hb as (H1 & H2 & H3). unfold finishSentryWork.
  destruct (__sentryTransaction (res st)) as [t|] eqn:E.
  - split; [split; [|split]|].
    + autorewrite with loop. simpl. now intros t' [= <-].
    + autorewrite with loop. simpl. auto.
    + intros _. reflexivity.
    + intros _ _. autorewrite with loop. simpl. discriminate.
  - assert (Hno : hasTransaction st = false) by (unfold hasTransaction; now rewrite E).
    assert (Hbase : statusCopyBase (callFlush env c st)).
    { unfold callFlush. destruct (turns _);
        (eapply statusBase_same with (st := emit (EvFlushCalled c 2000) st);
         [reflexivity|reflexivity|apply statusBase_emit; [exact I|exact Hb]]). }
    split; [exact Hbase|].
    intros Htx. exfalso.
    assert (Hsame : hasTransaction (callFlush env c st) = hasTransaction st).
    { unfold callFlush. now destruct (turns _). }
    congruence.
Qed.

Lemma statusCopy_newEnd (st : State) : statusCopyOk st -> statusCopyOk (newEnd env st).
Proof.
  intros [Hb _]. unfold newEnd. apply statusCopy_finishSentryWork.
  apply statusBase_emit; [exact I|]. exact Hb.
Qed.

Lemma statusCopy_runHandler (rest : list hstep) (r : hresult) (st : State) :
  statusCopyOk st -> statusCopyOk (runHandler env rest r st).
Proof.
  revert st; induction rest as [|s rest IH]; intros st H; [exact H|].
  destruct s; cbn [runHandler]; try exact H.
  - apply IH. exact H.
  - apply IH. now apply statusCopy_newEnd.
Qed.

Lemma statusCopy_catchBlock (e : jsval) (st : State) :
  statusCopyOk st -> statusCopyOk (catchBlock env origHandler e st).
Proof.
  intros [Hb _]. unfold catchBlock. destruct (objectify e (heap st)) as [b heap'].
  apply statusCopy_finishSentryWork. apply statusBase_emit; [exact I|].
  destruct (hasScope env); [|exact Hb].
  eapply statusBase_same with
    (st := emit (EvCaptureException b
                   (processors (addEventProcessor (ExceptionMechanism (mechanism origHandler))
                                  (setHeap heap' st)))) st); try reflexivity.
  now apply statusBase_emit.
Qed.

Lemma count_newEnd_any (id : nat) (l : list event) :
  0 < count (isNewEnd id) l -> existsb isAnyNewEnd l = true.
Proof.
  induction l as [|e l IH]; autorewrite with loop; [lia|].
  destruct e; simpl; auto.
Qed.

(** When a finish callback runs, a status has been copied before. *)
Lemma finish_callback_has_status (c : caller) (st : State) :
  threadsOk env (TFinishCallback c :: tasks st) st ->
  mainOk env origHandler (TFinishCallback c :: tasks st) st ->
  statusCopyOk st ->
  hasTransaction st = true ->
  lastHttpStatus (events st) <> None.
Proof.
  intros (_ & _ & _ & T4 & T5) (_ & M2 & _) [_ H4] Htx. apply H4; [exact Htx|].
  apply orb_true_iff. destruct c as [id|b].
  - left. apply (count_newEnd_any id). specialize (T4 id). specialize (T5 id).
    autorewrite with loop in T4. cbn [waitsFor taskCaller caller_eqb] in T4.
    rewrite Nat.eqb_refl in T4. destruct (Nat.ltb id (endCalls st)); lia.
  - right. inversion M2 as [|? ? Hok _]; subst. apply Hok.
Qed.

Lemma statusCopy_runTask (t : task) (st : State) :
  threadsOk env (t :: tasks st) st ->
  mainOk env origHandler (t :: tasks st) st ->
  statusCopyOk st -> statusCopyOk (runTask env origHandler t st).
Proof.
  intros HT HM H.
  destruct t as [rest r|[v|e]|c|c|[|n] o c|o c|[id|b]|[v|e]]; cbn [runTask];
    try exact H.
  - now apply statusCopy_runHandler.
  - eapply statusCopy_same with
      (st := emit (EvWrapperSettled (Resolved v)) (emit (EvSetFinished None true) st));
      try reflexivity.
    apply statusCopy_emit; [exact I|]. now apply statusCopy_emit.
  - now apply statusCopy_catchBlock.
  - destruct (__sentryTransaction (res st)) as [t|] eqn:E; [|exact H].
    assert (Htx : hasTransaction st = true) by (unfold hasTransaction; now rewrite E).
    pose proof (finish_callback_has_status c st HT HM H Htx) as Hsome.
    destruct H as [(H1 & H2 & H3) H4].
    assert (Hl : httpStatus t = lastHttpStatus (events st)) by now apply H1.
    split; [split; [|split]|].
    + autorewrite with loop. simpl. intros t' [= <-]. now rewrite httpStatus_finish.
    + autorewrite with loop. simpl. rewrite Hl. auto.
    + intros _. unfold hasTransaction. autorewrite with loop. reflexivity.
    + intros _ _. exact Hsome.
  - now apply statusCopy_callFlush.
  - eapply statusCopy_same with (st := emit (EvFlushSettled c o) st); try reflexivity.
    now apply statusCopy_emit.
  - unfold origEnd.
    eapply statusCopy_same with
      (st := emit (EvOrigEnd id false) (emit (EvSetFinished (Some (ByNewEnd id)) false) st));
      try reflexivity.
    apply statusCopy_emit; [exact I|]. now apply statusCopy_emit.
  - eapply statusCopy_same with (st := emit (EvWrapperSettled (Rejected b)) st);
      try reflexivity.
    now apply statusCopy_emit.
  - now apply statusCopy_emit.
  - now apply statusCopy_emit.
Qed.

End StatusCopy.

(** ** What the host finds when the wrapper comes back *)

Section HostCheck.

Variable env : Env.
Variable origHandler : Handler.

Lemma host_view (st st' : State) :
  (existsb isResolution (events st') = true ->
   finished (res st') = true \/
   (existsb isResolution (events st) = true /\ finished (res st') = finished (res st))) ->
  count isFailedHostCheck (events st') = count isFailedHostCheck (events st) ->
  count isHostCaught (events st') = count isHostCaught (events st) ->
  (forall o, In o (settlements (events st)) -> In o (settlements (events st'))) ->
  hostOk st -> hostOk st'.
Proof.
  intros V1 V2 V3 V4 (H1 & H2 & H3). unfold hostOk. rewrite V2, V3.
  split; [|split; [exact H2|]].
  - intros Hx. destruct (V1 Hx) as [Hf|[Hr Hf]]; [exact Hf|]. rewrite Hf. auto.
  - intros Hc. destruct (H3 Hc) as [b Hb]. exists b. auto.
Qed.

Ltac host_quiet :=
  eapply host_view;
  [ intros Hx; right; split; [exact Hx|reflexivity]
  | reflexivity | reflexivity | intros o Ho; exact Ho | eassumption ].

Lemma host_callFlush (c : caller) (st : State) :
  hostOk st -> hostOk (callFlush env c st).
Proof. intros H. unfold callFlush. destruct (turns _); host_quiet. Qed.

Lemma host_finishSentryWork (c : caller) (st : State) :
  hostOk st -> hostOk (finishSentryWork env c st).
Proof.
  intros H. unfold finishSentryWork.
  destruct (__sentryTransaction (res st)); [host_quiet|now apply host_callFlush].
Qed.

Lemma host_runHandler (rest : list hstep) (r : hresult) (st : State) :
  hostOk st -> hostOk (runHandler env rest r st).
Proof.
  revert st; induction rest as [|s rest IH]; intros st H; [exact H|].
  destruct s; cbn [runHandler]; try exact H.
  - apply IH. host_quiet.
  - apply IH. unfold newEnd. apply host_finishSentryWork. host_quiet.
Qed.

Lemma host_catchBlock (e : jsval) (st : State) :
  hostOk st -> hostOk (catchBlock env origHandler e st).
Proof.
  intros H. unfold catchBlock. destruct (objectify e (heap st)) as [b heap'].
  apply host_finishSentryWork. destruct (hasScope env); host_quiet.
Qed.

Lemma resolution_settled (v : jsval) (l : list event) :
  In (Resolved v) (settlements l) -> existsb isResolution l = true.
Proof.
  intros H. apply settlements_present in H. apply existsb_exists.
  exists (EvWrapperSettled (Resolved v)). now split.
Qed.

Lemma host_runTask (t : task) (st : State) :
  mainOk env origHandler (t :: tasks st) st ->
  hostOk st -> hostOk (runTask env origHandler t st).
Proof.
  intros HM H.
  assert (Hok : mainTaskOk env origHandler st t).
  { destruct HM as (_ & M2 & _). now inversion M2. }
  destruct t as [rest r|[v|e]|c|c|[|n] o c|o c|[id|b]|[v|e]]; cbn [runTask];
    try exact H.
  - now apply host_runHandler.
  - eapply host_view; [| | | |exact H].
    + intros _. left. reflexivity.
    + reflexivity.
    + reflexivity.
    + intros o Ho. right. exact Ho.
  - now apply host_catchBlock.
  - destruct (__sentryTransaction (res st)); [host_quiet|exact H].
  - now apply host_callFlush.
  - eapply host_view; [| | | |exact H].
    + intros _. left. reflexivity.
    + reflexivity.
    + reflexivity.
    + intros o Ho. exact Ho.
  - eapply host_view; [| | | |exact H].
    + intros Hx. right. split; [exact Hx|reflexivity].
    + reflexivity.
    + reflexivity.
    + intros o Ho. right. exact Ho.
  - destruct Hok as (_ & S2 & _). destruct H as (H1 & H2 & H3).
    assert (Hf : finished (res st) = true).
    { apply H1. apply (resolution_settled v). rewrite S2. now left. }
    unfold hostOk. autorewrite with loop. cbn [isFailedHostCheck isHostCaught].
    rewrite Hf. simpl. split; [intros _; reflexivity|]. split; [exact H2|exact H3].
  - destruct Hok as (_ & S2 & _). destruct H as (H1 & H2 & H3).
    unfold hostOk. autorewrite with loop. cbn [isFailedHostCheck isHostCaught].
    split; [exact H1|]. split; [exact H2|].
    intros _. exists e. change (In (Rejected e) (settlements (events st))).
    rewrite S2. now left.
Qed.

End HostCheck.

(** ** The two properties at every state the event loop reaches *)

Section ReachableExtras.

Variable env : Env.
Variable origHandler : Handler.

Lemma step_popped (st st' : State) :
  step env origHandler st = Some st' ->
  invariant env origHandler st ->
  exists t st0,
    st' = runTask env origHandler t st0 /\
    threadsOk env (t :: tasks st0) st0 /\
    mainOk env origHandler (t :: tasks st0) st0 /\
    res st0 = res st /\ events st0 = events st /\ tasks st = t :: tasks st0 /\
    endCalls st0 = endCalls st.
Proof.
  intros Hs (HT & HM & HF).
  destruct (step_cases _ _ _ _ Hs) as (t & st0 & -> & Hq & Hr & Hl & Hh & Hp & He & Hf).
  assert (Hev : events st0 = events st) by (unfold events; now rewrite Hl).
  rewrite Hq in HT, HM. exists t, st0.
  split; [reflexivity|]. split; [|split; [|split; [exact Hr|split; [exact Hev|split; [exact Hq|exact He]]]]].
  - eapply threads_same; [| | |exact HT]; auto. unfold hasTransaction. now rewrite Hr.
  - eapply main_view; [..|exact HM]; try rewrite Hev; try rewrite Hr; auto.
Qed.

Lemma host_same (st st' : State) :
  events st' = events st -> res st' = res st -> hostOk st -> hostOk st'.
Proof. unfold hostOk. intros -> ->. auto. Qed.

Lemma extras_step (st st' : State) :
  step env origHandler st = Some st' ->
  invariant env origHandler st ->
  statusCopyOk st /\ hostOk st -> statusCopyOk st' /\ hostOk st'.
Proof.
  intros Hs Hi [HS HH].
  destruct (step_popped _ _ Hs Hi) as (t & st0 & -> & HT & HM & Hr & Hev & _). split.
  - apply statusCopy_runTask; [exact HT|exact HM|].
    eapply statusCopy_same; [| |exact HS]; [auto|now rewrite Hr].
  - apply host_runTask; [exact HM|]. eapply host_same; [| |exact HH]; auto.
Qed.

Lemma extras_run (fuel : nat) (st : State) :
  invariant env origHandler st ->
  statusCopyOk st /\ hostOk st ->
  statusCopyOk (run env origHandler fuel st) /\ hostOk (run env origHandler fuel st).
Proof.
  revert st; induction fuel as [|fuel IH]; intros st Hi H; simpl; [exact H|].
  destruct (step env origHandler st) as [st'|] eqn:E; [|exact H].
  apply IH; [eapply invariant_step; eauto|eapply extras_step; eauto].
Qed.

Lemma extras_start (req : Request) :
  statusCopyOk (withSentry env origHandler req) /\ hostOk (withSentry env origHandler req).
Proof.
  unfold withSentry. split.
  - apply statusCopy_runHandler.
    destruct (hasScope env), (tracingEnabled env); cbn;
      (split; [split; [|split]|]); cbn; auto; try discriminate; try tauto.
    intros t [= <-]. reflexivity.
  - apply host_runHandler.
    destruct (hasScope env), (tracingEnabled env); cbn;
      (split; [discriminate|split; [reflexivity|intros Hc; inversion Hc]]).
Qed.

Lemma extras_reachable (req : Request) (fuel : nat) :
  let st := run env origHandler fuel (withSentry env origHandler req) in
  statusCopyOk st /\ hostOk st.
Proof. apply extras_run; [apply invariant_start|apply extras_start]. Qed.

End ReachableExtras.

Section FinishAndHost.

Variable env : Env.
Variable origHandler : Handler.

Lemma finishesSeeLast_split (l newer older : list event) (c : caller) (s : option Z) (eff : bool) :
  finishesSeeLast l ->
  l = (newer ++ EvTransactionFinish c s eff :: older)%list ->
  s = lastHttpStatus older /\ s <> None.
Proof.
  revert newer; induction l as [|e l IH]; intros newer H Hl.
  - destruct newer; discriminate.
  - destruct newer as [|z newer]; simpl in Hl; injection Hl as -> ->.
    + apply H.
    + eapply IH; [apply H|reflexivity].
Qed.

(** X6: without a transaction on the response (no scope, or tracing not
    enabled), whatever the handler does and however often it ends the
    response: no transaction ever appears on the response, finish-and-flush
    copies no status and finishes nothing, and it schedules no callback of
    its own; all it does is flush. *)
Theorem without_tracing_nothing_is_copied_or_finished (req : Request) (fuel : nat) :
  transactionAttached env = false ->
  let st := run env origHandler fuel (withSentry env origHandler req) in
  __sentryTransaction (res st) = None /\
  lastHttpStatus (events st) = None /\
  count isAnyFinish (events st) = 0 /\
  Forall (fun t => match t with TFinishCallback _ => False | _ => True end) (tasks st).
Proof.
  intros Htx st.
  destruct (invariant_reachable env origHandler req fuel) as ((T1 & T2 & _) & _ & (F1 & _ & F3)).
  destruct (extras_reachable env origHandler req fuel) as [((_ & _ & S3) & _) _].
  fold st in T1, T2, F1, F3, S3. rewrite Htx in T1, T2.
  assert (Hnone : __sentryTransaction (res st) = None).
  { unfold hasTransaction in T1. now destruct (__sentryTransaction (res st)). }
  split; [exact Hnone|]. split; [|split].
  - destruct (lastHttpStatus (events st)) eqn:E; [|reflexivity].
    rewrite T1 in S3. discriminate S3. discriminate.
  - apply F3. rewrite F1, Hnone. reflexivity.
  - eapply Forall_impl; [|exact T2].
    intros t Ht. destruct t; simpl in *; auto. discriminate.
Qed.

(** X7: the status a finish of the transaction reports.  Every finish,
    effective or not, comes after a copy of the response's status code
    into the transaction and reports the most recent copy, which is not
    always the copy made by the invocation that scheduled this finish:
    a later invocation of the wrapped end or the catch block may have
    copied again in between.  The transaction on the response always
    carries the most recent copy. *)
Theorem finish_reports_the_most_recent_status_copy (req : Request) (fuel : nat) :
  let st := run env origHandler fuel (withSentry env origHandler req) in
  (forall newer c s eff older,
     events st = (newer ++ EvTransactionFinish c s eff :: older)%list ->
     s = lastHttpStatus older /\ s <> None) /\
  (forall t, __sentryTransaction (res st) = Some t ->
             httpStatus t = lastHttpStatus (events st)).
Proof.
  intros st.
  destruct (extras_reachable env origHandler req fuel) as [((S1 & S2 & _) & _) _].
  fold st in S1, S2. split; [|exact S1].
  intros newer c s eff older Hl. exact (finishesSeeLast_split _ _ _ _ _ _ S2 Hl).
Qed.

Lemma host_event_is_a_passed_check (l : list event) :
  0 < count isHostEvent l ->
  count isHostCaught l = 0 -> count isFailedHostCheck l = 0 ->
  In (EvHostCheck true) l.
Proof.
  induction l as [|e l IH]; autorewrite with loop; [lia|].
  intros H1 H2 H3.
  destruct e; cbn [isHostEvent isHostCaught isFailedHostCheck] in H1, H2, H3;
    try (right; apply IH; lia).
  match goal with b : bool |- _ => destruct b end; [now left|]. simpl in H3. lia.
Qed.

(** X8: a handler that returns, with or without a transaction and
    whether or not it ended the response.  From the moment the wrapper has
    resolved, the response is marked finished at every point between two
    tasks of the event loop, however many invocations of the wrapped end
    are still to flip the flag back: the original end follows the flip in
    the same synchronous stretch.  So the host's check after its await
    never finds the flag down; and once the event loop has run dry the
    host has made that check. *)
Theorem resolved_wrapper_leaves_the_response_finished
    (req : Request) (fuel : nat) (v : jsval) :
  result origHandler = HReturn v ->
  let st := run env origHandler fuel (withSentry env origHandler req) in
  (In (Resolved v) (settlements (events st)) -> finished (res st) = true) /\
  count isFailedHostCheck (events st) = 0 /\
  (weight env (withSentry env origHandler req) <= fuel ->
   In (EvHostCheck true) (events st) /\ finished (res st) = true).
Proof.
  intros Hr st.
  destruct (extras_reachable env origHandler req fuel) as [_ (H1 & H2 & H3)].
  destruct (invariant_reachable env origHandler req fuel) as (_ & HM & _).
  fold st in H1, H2, H3, HM.
  split; [|split; [exact H2|]].
  - intros Hin. apply H1. now apply (resolution_settled v).
  - intros Hfuel.
    assert (Hq : quiescent st).
    { subst st. rewrite run_enough by exact Hfuel. apply enough_fuel. }
    pose proof (main_quiescent env origHandler st HM Hq) as (_ & S2 & _).
    unfold expectedOutcome in S2. rewrite Hr in S2.
    destruct HM as (M1 & _). rewrite (quiescent_tasks _ Hq) in M1.
    autorewrite with loop in M1.
    split.
    + apply host_event_is_a_passed_check; [lia| |exact H2].
      destruct (count isHostCaught (events st)) eqn:E; [reflexivity|].
      destruct H3 as [b Hb]; [lia|]. rewrite S2 in Hb.
      destruct Hb as [Hb|[]]. discriminate Hb.
    + apply H1. apply (resolution_settled v). rewrite S2. now left.
Qed.

End FinishAndHost.

Lemma without_tracing_nothing_is_copied_or_finished_witness :
  let st := run noClientEnv endsTwice 7 (withSentry noClientEnv endsTwice sampleRequest) in
  __sentryTransaction (res st) = None /\
  lastHttpStatus (events st) = None /\
  count isAnyFinish (events st) = 0 /\
  Forall (fun t => match t with TFinishCallback _ => False | _ => True end) (tasks st).
Proof.
  apply (without_tracing_nothing_is_copied_or_finished noClientEnv endsTwice sampleRequest 7).
  reflexivity.
Defined.

Lemma resolved_wrapper_leaves_the_response_finished_witness :
  let h := mkHandler "handler" [HSetStatus 204; HAwaitImmediate] (HReturn (VString "done")) in
  let st := run failingFlushEnv h 40 (withSentry failingFlushEnv h sampleRequest) in
  count isFailedHostCheck (events st) = 0 /\
  In (EvHostCheck true) (events st) /\ finished (res st) = true.
Proof.
  intros h.
  destruct (resolved_wrapper_leaves_the_response_finished failingFlushEnv h sampleRequest 40
              (VString "done") eq_refl) as (_ & H2 & H3).
  split; [exact H2|]. apply H3. vm_compute. lia.
Defined.

(** ** A handler that returns *)

Section Success.

Variable env : Env.
Variable origHandler : Handler.

Lemma statusTask_background (st : State) (t : task) :
  isMainTask t = false -> statusTaskOk origHandler st t.
Proof. destruct t; simpl; auto; discriminate. Qed.

Lemma mainPending_zero_status (st : State) (Q : list task) :
  mainPending Q = 0 -> Forall (statusTaskOk origHandler st) Q.
Proof.
  induction Q as [|t Q IH]; intros H; constructor; autorewrite with loop in H.
  - apply statusTask_background. destruct (isMainTask t); [discriminate|reflexivity].
  - apply IH. lia.
Qed.

Lemma statusTask_same (st st' : State) (t : task) :
  statusCode (res st') = statusCode (res st) ->
  statusTaskOk origHandler st t -> statusTaskOk origHandler st' t.
Proof. intros E. destruct t; simpl; auto; now rewrite E. Qed.

Lemma statusCode_finishSentryWork (c : caller) (st : State) :
  statusCode (res (finishSentryWork env c st)) = statusCode (res st).
Proof.
  unfold finishSentryWork, callFlush.
  destruct (__sentryTransaction (res st)); [reflexivity|]. now destruct (turns _).
Qed.

Lemma quiet_finishSentryWork (p : event -> bool) (c : caller) (st : State) :
  (forall c code, p (EvSetHttpStatus c code) = false) ->
  (forall c ms, p (EvFlushCalled c ms) = false) ->
  existsb p (events (finishSentryWork env c st)) = existsb p (events st).
Proof.
  intros P1 P2. unfold finishSentryWork, callFlush.
  destruct (__sentryTransaction (res st)).
  - change (p (EvSetHttpStatus c (statusCode (res st))) || existsb p (events st)
            = existsb p (events st)).
    now rewrite P1.
  - destruct (turns _);
      change (p (EvFlushCalled c 2000) || existsb p (events st) = existsb p (events st));
      now rewrite P2.
Qed.

Lemma quiet_runHandler (p : event -> bool) (rest : list hstep) (r : hresult) (st : State) :
  (forall id, p (EvNewEnd id) = false) ->
  (forall c code, p (EvSetHttpStatus c code) = false) ->
  (forall c ms, p (EvFlushCalled c ms) = false) ->
  existsb p (events (runHandler env rest r st)) = existsb p (events st).
Proof.
  intros P0 P1 P2. revert st; induction rest as [|s rest IH]; intros st; [reflexivity|].
  destruct s; cbn [runHandler]; try reflexivity.
  - now rewrite IH.
  - rewrite IH. unfold newEnd. rewrite quiet_finishSentryWork by assumption.
    change (p (EvNewEnd (endCalls st)) || existsb p (events st) = existsb p (events st)).
    now rewrite P0.
Qed.

Lemma no_settlement_no_resolution (l : list event) :
  settlements l = [] -> existsb isResolution l = false.
Proof.
  induction l as [|e l IH]; [reflexivity|].
  destruct e; simpl; auto. discriminate.
Qed.

Lemma success_runHandler (rest : list hstep) (r : hresult) (st : State) :
  mainPending (tasks st) = 0 ->
  applyStatus rest (statusCode (res st)) = applyStatus (steps origHandler) 200 ->
  Forall (statusTaskOk origHandler (runHandler env rest r st))
         (tasks (runHandler env rest r st)).
Proof.
  revert st; induction rest as [|s rest IH]; intros st Hq Hs.
  - simpl. eapply Permutation_Forall; [symmetry; apply tasks_pushMicro|].
    constructor; [exact Hs|]. now apply mainPending_zero_status.
  - destruct s; cbn [runHandler].
    + apply IH; [exact Hq|exact Hs].
    + apply IH.
      * unfold newEnd. rewrite (mainPending_perm _ _ (tasks_finishSentryWork env _ _)).
        autorewrite with loop. rewrite finishSentryWorkTask_main. exact Hq.
      * unfold newEnd. rewrite statusCode_finishSentryWork. exact Hs.
    + eapply Permutation_Forall; [symmetry; apply tasks_pushMicro|].
      constructor; [exact Hs|]. now apply mainPending_zero_status.
    + eapply Permutation_Forall; [symmetry; apply tasks_pushMacro|].
      constructor; [exact Hs|]. now apply mainPending_zero_status.
Qed.

Lemma in_tasks_pushMicro (x : task) (st : State) (t' : task) :
  In t' (tasks (pushMicro x st)) -> t' = x \/ In t' (tasks st).
Proof.
  intros H. apply (Permutation_in _ (tasks_pushMicro x st)) in H.
  destruct H as [<-|H]; auto.
Qed.

Lemma in_tasks_pushMacro (x : task) (st : State) (t' : task) :
  In t' (tasks (pushMacro x st)) -> t' = x \/ In t' (tasks st).
Proof.
  intros H. apply (Permutation_in _ (tasks_pushMacro x st)) in H.
  destruct H as [<-|H]; auto.
Qed.

Lemma in_tasks_callFlush (c : caller) (st : State) (t' : task) :
  In t' (tasks (callFlush env c st)) ->
  In t' (tasks st) \/ forall s, statusTaskOk origHandler s t'.
Proof.
  intros H. apply (Permutation_in _ (tasks_callFlush env c st)) in H.
  destruct H as [<-|H]; [right|now left].
  intros s. unfold flushTask. now destruct (turns _).
Qed.

Lemma in_tasks_finishSentryWork (c : caller) (st : State) (t' : task) :
  In t' (tasks (finishSentryWork env c st)) ->
  In t' (tasks st) \/ forall s, statusTaskOk origHandler s t'.
Proof.
  intros H. apply (Permutation_in _ (tasks_finishSentryWork env c st)) in H.
  destruct H as [<-|H]; [right|now left].
  intros s. unfold finishSentryWorkTask, flushTask.
  destruct (__sentryTransaction (res st)); [exact I|]. now destruct (turns _).
Qed.

Lemma tasks_runTask_background (t : task) (st : State) (t' : task) :
  match t with THandler _ _ => False | _ => True end ->
  In t' (tasks (runTask env origHandler t st)) ->
  In t' (tasks st) \/ forall s, statusTaskOk origHandler s t'.
Proof.
  intros Ht.
  destruct t as [rest r|[v|e]|c|c|[|n] o c|o c|[id|b]|[v|e]]; try contradiction;
    cbn [runTask]; intros H; try (left; exact H).
  - apply in_tasks_pushMicro in H as [->|H]; [right; intros s; exact I|now left].
  - unfold catchBlock in H. destruct (objectify e (heap st)) as [b' heap'].
    apply in_tasks_finishSentryWork in H as [H|H]; [left|now right].
    destruct (hasScope env); exact H.
  - destruct (__sentryTransaction (res st));
      (apply in_tasks_pushMicro in H as [->|H]; [right; intros s; exact I|now left]).
  - now apply in_tasks_callFlush in H.
  - apply in_tasks_pushMicro in H as [->|H]; [right; intros s; exact I|now left].
  - apply in_tasks_pushMacro in H as [->|H]; [right; intros s; exact I|now left].
  - apply in_tasks_pushMicro in H as [->|H]; [right; intros s; exact I|now left].
  - apply in_tasks_pushMicro in H as [->|H]; [right; intros s; exact I|now left].
Qed.

Lemma statusCode_runTask (t : task) (st : State) :
  match t with THandler _ _ | TAfterHandler (HThrow _) => False | _ => True end ->
  statusCode (res (runTask env origHandler t st)) = statusCode (res st).
Proof.
  intros Ht.
  destruct t as [rest r|[v|e]|c|c|[|n] o c|o c|[id|b]|[v|e]]; try contradiction;
    cbn [runTask]; unfold callFlush, origEnd;
    try destruct (__sentryTransaction (res st));
    try destruct (turns _); reflexivity.
Qed.

Lemma resolution_runTask (t : task) (st : State) :
  match t with TAfterHandler (HReturn _) => False | _ => True end ->
  existsb isResolution (events (runTask env origHandler t st)) =
  existsb isResolution (events st).
Proof.
  intros Ht.
  destruct t as [rest r|[v|e]|c|c|[|n] o c|o c|[id|b]|[v|e]]; try contradiction;
    cbn [runTask]; try reflexivity.
  - now apply quiet_runHandler.
  - unfold catchBlock. destruct (objectify e (heap st)) as [b' heap'].
    rewrite quiet_finishSentryWork by reflexivity. now destruct (hasScope env).
  - now destruct (__sentryTransaction (res st)).
  - unfold callFlush. now destruct (turns _).
Qed.

Lemma status500_runTask (t : task) (st : State) :
  match t with TAfterHandler (HThrow _) => False | _ => True end ->
  existsb isStatus500 (events (runTask env origHandler t st)) =
  existsb isStatus500 (events st).
Proof.
  intros Ht.
  destruct t as [rest r|[v|e]|c|c|[|n] o c|o c|[id|b]|[v|e]]; try contradiction;
    cbn [runTask]; try reflexivity.
  - now apply quiet_runHandler.
  - now destruct (__sentryTransaction (res st)).
  - unfold callFlush. now destruct (turns _).
Qed.

Lemma success_other (t : task) (st : State) :
  match t with THandler _ _ | TAfterHandler _ => False | _ => True end ->
  successOk origHandler (t :: tasks st) st ->
  successOk origHandler (tasks (runTask env origHandler t st)) (runTask env origHandler t st).
Proof.
  intros Ht (H1 & H2 & H3).
  assert (HQ : Forall (statusTaskOk origHandler st) (tasks st)) by now inversion H1.
  assert (Hc : statusCode (res (runTask env origHandler t st)) = statusCode (res st)).
  { apply statusCode_runTask. destruct t as [|[|]| | | | | |]; auto. }
  split; [|split].
  - apply Forall_forall. intros t' Hin.
    destruct (tasks_runTask_background t st t') as [Hold|Hnew];
      [destruct t; auto|exact Hin| |apply Hnew].
    rewrite Forall_forall in HQ. eapply statusTask_same; [exact Hc|apply HQ, Hold].
  - rewrite resolution_runTask by (destruct t as [|[|]| | | | | |]; auto).
    rewrite Hc. exact H2.
  - rewrite status500_runTask by (destruct t as [|[|]| | | | | |]; auto). exact H3.
Qed.

Lemma success_runTask (t : task) (st : State) :
  mainOk env origHandler (t :: tasks st) st ->
  successOk origHandler (t :: tasks st) st ->
  successOk origHandler (tasks (runTask env origHandler t st)) (runTask env origHandler t st).
Proof.
  intros HM (H1 & H2 & H3).
  assert (Hok : mainTaskOk env origHandler st t).
  { destruct HM as (_ & M2 & _). now inversion M2. }
  assert (Hst : statusTaskOk origHandler st t /\ Forall (statusTaskOk origHandler st) (tasks st)).
  { now inversion H1. }
  destruct Hst as [Hst HQ].
  assert (Hmain : isMainTask t = true -> mainPending (tasks st) = 0).
  { intros E. destruct HM as (M1 & _). autorewrite with loop in M1. rewrite E in M1.
    simpl in M1. lia. }
  destruct t as [rest r|[v|e]|c|c|n o c|o c|c|o].
  - (* the handler goes on *)
    destruct Hok as (_ & _ & _ & R4 & _ & R6 & _).
    split; [|split].
    + apply success_runHandler; [now apply Hmain|exact Hst].
    + rewrite resolution_runTask by exact I.
      rewrite (no_settlement_no_resolution _ R4). discriminate.
    + rewrite status500_runTask by exact I. exact H3.
  - (* the handler has returned *)
    split; [|split].
    + apply Forall_forall. intros t' Hin.
      destruct (tasks_runTask_background (TAfterHandler (HReturn v)) st t' I Hin)
        as [Hold|Hnew]; [|apply Hnew].
      rewrite Forall_forall in HQ.
      eapply statusTask_same; [|apply HQ, Hold]. now apply statusCode_runTask.
    + intros _. rewrite statusCode_runTask by exact I. exact Hst.
    + rewrite status500_runTask by exact I. exact H3.
  - (* the handler has thrown *)
    destruct Hok as (R1 & _ & _ & R4 & _).
    split; [|split].
    + apply Forall_forall. intros t' Hin.
      destruct (tasks_runTask_background (TAfterHandler (HThrow e)) st t' I Hin)
        as [Hold|Hnew]; [|apply Hnew].
      pose proof (mainPending_zero_status (runTask env origHandler (TAfterHandler (HThrow e)) st)
                    (tasks st) (Hmain eq_refl)) as HQ'.
      rewrite Forall_forall in HQ'. now apply HQ'.
    + rewrite resolution_runTask by exact I.
      rewrite (no_settlement_no_resolution _ R4). discriminate.
    + intros _. exists e. now rewrite <- R1.
  - apply success_other; [exact I|exact (conj H1 (conj H2 H3))].
  - apply success_other; [exact I|exact (conj H1 (conj H2 H3))].
  - apply success_other; [exact I|exact (conj H1 (conj H2 H3))].
  - apply success_other; [exact I|exact (conj H1 (conj H2 H3))].
  - apply success_other; [exact I|exact (conj H1 (conj H2 H3))].
  - apply success_other; [exact I|exact (conj H1 (conj H2 H3))].
Qed.

End Success.

Section ReturningHandler.

Variable env : Env.
Variable origHandler : Handler.

Lemma success_same (Q : list task) (st st' : State) :
  events st' = events st -> res st' = res st ->
  successOk origHandler Q st -> successOk origHandler Q st'.
Proof.
  intros He Hr (H1 & H2 & H3). unfold successOk. rewrite He, Hr.
  split; [|split; [exact H2|exact H3]].
  eapply Forall_impl; [|exact H1]. intros t. apply statusTask_same. now rewrite Hr.
Qed.

Lemma success_step (st st' : State) :
  step env origHandler st = Some st' ->
  invariant env origHandler st ->
  successOk origHandler (tasks st) st -> successOk origHandler (tasks st') st'.
Proof.
  intros Hs Hi H.
  destruct (step_popped _ _ _ _ Hs Hi) as (t & st0 & -> & _ & HM & Hr & Hev & Hq & _).
  apply success_runTask; [exact HM|]. rewrite Hq in H.
  eapply success_same; [| |exact H]; auto.
Qed.

Lemma success_run (fuel : nat) (st : State) :
  invariant env origHandler st ->
  successOk origHandler (tasks st) st ->
  successOk origHandler (tasks (run env origHandler fuel st)) (run env origHandler fuel st).
Proof.
  revert st; induction fuel as [|fuel IH]; intros st Hi H; simpl; [exact H|].
  destruct (step env origHandler st) as [st'|] eqn:E; [|exact H].
  apply IH; [eapply invariant_step; eauto|eapply success_step; eauto].
Qed.

Lemma success_start (req : Request) :
  successOk origHandler (tasks (withSentry env origHandler req)) (withSentry env origHandler req).
Proof.
  unfold withSentry. split; [|split].
  - apply success_runHandler; destruct (hasScope env), (tracingEnabled env); reflexivity.
  - rewrite quiet_runHandler by reflexivity.
    destruct (hasScope env), (tracingEnabled env); discriminate.
  - rewrite quiet_runHandler by reflexivity.
    destruct (hasScope env), (tracingEnabled env); discriminate.
Qed.

(** X10: a handler that returns is passed through untouched.  Whatever
    it did to the response and whatever the backend does: nothing is sent
    to captureException, the wrapper never writes a status of its own, and
    once the event loop has run dry the wrapper has resolved with the
    handler's value, once, and the response carries the status code the
    handler wrote last (200 when it wrote none). *)
Theorem returning_handler_is_passed_through (req : Request) (fuel : nat) (v : jsval) :
  result origHandler = HReturn v ->
  let st := run env origHandler fuel (withSentry env origHandler req) in
  captured (events st) = [] /\
  existsb isStatus500 (events st) = false /\
  (weight env (withSentry env origHandler req) <= fuel ->
   settlements (events st) = [Resolved v] /\
   statusCode (res st) = applyStatus (steps origHandler) 200).
Proof.
  intros Hr st.
  pose proof (invariant_reachable env origHandler req fuel) as (_ & HM & _).
  pose proof (success_run fuel _ (invariant_start env origHandler req) (success_start req))
    as (_ & H2 & H3).
  fold st in HM, H2, H3.
  split; [|split].
  - destruct (main_phase env origHandler _ _ HM) as [_ [Hc|Hc]]; [exact Hc|].
    unfold expectedCaptures in Hc. now rewrite Hr in Hc.
  - destruct (existsb isStatus500 (events st)); [|reflexivity].
    destruct (H3 eq_refl) as [e He]. rewrite Hr in He. discriminate.
  - intros Hfuel.
    assert (Hq : quiescent st).
    { subst st. rewrite run_enough by exact Hfuel. apply enough_fuel. }
    pose proof (main_quiescent env origHandler st HM Hq) as (_ & S2 & _).
    unfold expectedOutcome in S2. rewrite Hr in S2.
    split; [exact S2|]. apply H2.
    apply existsb_exists. exists (EvWrapperSettled (Resolved v)).
    split; [|reflexivity]. apply settlements_present. rewrite S2. now left.
Qed.

End ReturningHandler.

Lemma returning_handler_is_passed_through_witness :
  let h := mkHandler "handler" [HSetStatus 201; HEnd; HAwaitImmediate; HSetStatus 404]
                     (HReturn (VString "done")) in
  let st := run failingFlushEnv h 60 (withSentry failingFlushEnv h sampleRequest) in
  captured (events st) = [] /\
  existsb isStatus500 (events st) = false /\
  settlements (events st) = [Resolved (VString "done")] /\
  statusCode (res st) = 404%Z.
Proof.
  intros h.
  destruct (returning_handler_is_passed_through failingFlushEnv h sampleRequest 60
              (VString "done") eq_refl) as (H1 & H2 & H3).
  split; [exact H1|]. split; [exact H2|]. apply H3. vm_compute. lia.
Defined.

(** ** When the transaction is finished *)

Section FinishCause.

Variable env : Env.
Variable origHandler : Handler.

Lemma events_finishSentryWork (c : caller) (st : State) :
  exists newer, events (finishSentryWork env c st) = (newer ++ events st)%list.
Proof.
  unfold finishSentryWork, callFlush. destruct (__sentryTransaction (res st)).
  - now exists [EvSetHttpStatus c (statusCode (res st))].
  - destruct (turns _); now exists [EvFlushCalled c 2000].
Qed.

Lemma events_runHandler (rest : list hstep) (r : hresult) (st : State) :
  exists newer, events (runHandler env rest r st) = (newer ++ events st)%list.
Proof.
  revert st; induction rest as [|s rest IH]; intros st; [now exists []|].
  destruct s; cbn [runHandler]; try (now exists []).
  - destruct (IH (setRes (setStatusCode code (res st)) st)) as [n E]. exists n. exact E.
  - destruct (IH (newEnd env st)) as [n1 E1]. unfold newEnd in E1 at 2.
    destruct (events_finishSentryWork (ByNewEnd (endCalls st))
                (emit (EvNewEnd (endCalls st)) (countEnd st))) as [n2 E2].
    rewrite E2 in E1. exists (n1 ++ n2 ++ [EvNewEnd (endCalls st)])%list.
    rewrite E1. now rewrite <- !app_assoc.
Qed.

Lemma events_runTask (t : task) (st : State) :
  exists newer, events (runTask env origHandler t st) = (newer ++ events st)%list.
Proof.
  destruct t as [rest r|[v|e]|c|c|[|n] o c|o c|[id|b]|[v|e]]; cbn [runTask];
    try (now exists []); try (now eexists [_]); try (now eexists [_; _]).
  - apply events_runHandler.
  - unfold catchBlock. destruct (objectify e (heap st)) as [b' heap'].
    match goal with |- context [finishSentryWork env ?c ?s] =>
      destruct (events_finishSentryWork c s) as [n E] end.
    rewrite E. destruct (hasScope env).
    + now eexists (n ++ [_; _])%list; rewrite <- app_assoc.
    + now eexists (n ++ [_])%list; rewrite <- app_assoc.
  - destruct (__sentryTransaction (res st)); [now eexists [_]|now exists []].
  - unfold callFlush. destruct (turns _); now eexists [_].
Qed.

Lemma finishCause_grows (newer l : list event) :
  finishCause l = true -> finishCause (newer ++ l) = true.
Proof.
  unfold finishCause. rewrite !existsb_app. intros H.
  apply orb_true_iff in H as [-> | ->]; now rewrite !orb_true_r.
Qed.

Lemma finish_callback_has_cause (c : caller) (st : State) :
  threadsOk env (TFinishCallback c :: tasks st) st ->
  mainOk env origHandler (TFinishCallback c :: tasks st) st ->
  finishCause (events st) = true.
Proof.
  intros (_ & _ & _ & T4 & T5) (_ & M2 & _). apply orb_true_iff. destruct c as [id|b].
  - left. apply (count_newEnd_any id). specialize (T4 id). specialize (T5 id).
    autorewrite with loop in T4. cbn [waitsFor taskCaller caller_eqb] in T4.
    rewrite Nat.eqb_refl in T4. destruct (Nat.ltb id (endCalls st)); lia.
  - right. inversion M2 as [|? ? Hok _]; subst. apply Hok.
Qed.

Lemma anyFinish_runTask (t : task) (st : State) :
  match t with TFinishCallback _ => False | _ => True end ->
  existsb isAnyFinish (events (runTask env origHandler t st)) =
  existsb isAnyFinish (events st).
Proof.
  intros Ht.
  destruct t as [rest r|[v|e]|c|c|[|n] o c|o c|[id|b]|[v|e]]; try contradiction;
    cbn [runTask]; try reflexivity.
  - now apply quiet_runHandler.
  - unfold catchBlock. destruct (objectify e (heap st)) as [b' heap'].
    rewrite quiet_finishSentryWork by reflexivity. now destruct (hasScope env).
  - unfold callFlush. now destruct (turns _).
Qed.

Lemma cause_runTask (t : task) (st : State) :
  threadsOk env (t :: tasks st) st ->
  mainOk env origHandler (t :: tasks st) st ->
  finishHasCause st -> finishHasCause (runTask env origHandler t st).
Proof.
  intros HT HM H. unfold finishHasCause.
  destruct (events_runTask t st) as [newer E].
  destruct t as [rest r|r|c|c|n o c|o c|c|o];
    try (rewrite anyFinish_runTask by exact I; intros Hf; rewrite E;
         apply finishCause_grows; now apply H).
  intros _. rewrite E. apply finishCause_grows.
  exact (finish_callback_has_cause c st HT HM).
Qed.

Lemma cause_step (st st' : State) :
  step env origHandler st = Some st' ->
  invariant env origHandler st ->
  finishHasCause st -> finishHasCause st'.
Proof.
  intros Hs Hi H.
  destruct (step_popped _ _ _ _ Hs Hi) as (t & st0 & -> & HT & HM & Hr & Hev & _).
  apply cause_runTask; [exact HT|exact HM|]. unfold finishHasCause. now rewrite Hev.
Qed.

Lemma cause_run (fuel : nat) (st : State) :
  invariant env origHandler st ->
  finishHasCause st -> finishHasCause (run env origHandler fuel st).
Proof.
  revert st; induction fuel as [|fuel IH]; intros st Hi H; simpl; [exact H|].
  destruct (step env origHandler st) as [st'|] eqn:E; [|exact H].
  apply IH; [eapply invariant_step; eauto|eapply cause_step; eauto].
Qed.

Lemma cause_start (req : Request) : finishHasCause (withSentry env origHandler req).
Proof.
  unfold finishHasCause, withSentry. rewrite quiet_runHandler by reflexivity.
  destruct (hasScope env), (tracingEnabled env); discriminate.
Qed.

Lemma anyNewEnd_counted (l : list event) :
  existsb isAnyNewEnd l = true -> exists id, 0 < count (isNewEnd id) l.
Proof.
  induction l as [|e l IH]; [discriminate|].
  destruct e; simpl; try (intros H; destruct (IH H) as [i Hi]; exists i;
                          autorewrite with loop; simpl; exact Hi).
  intros _. exists id. autorewrite with loop. simpl. rewrite Nat.eqb_refl. simpl. lia.
Qed.

Lemma finishBy_any (c : caller) (l : list event) :
  existsb (isFinishBy c) l = true -> existsb isAnyFinish l = true.
Proof.
  induction l as [|e l IH]; [discriminate|].
  destruct e; simpl; auto.
Qed.

Lemma effective_any (l : list event) :
  0 < count isEffectiveFinish l -> existsb isAnyFinish l = true.
Proof.
  induction l as [|e l IH]; autorewrite with loop; [lia|].
  destruct e; simpl; auto.
Qed.

(** X11: when the transaction gets finished.  With a transaction on the
    response and the event loop run dry, finish has been called on it if
    and only if the handler ended the response at least once or threw:
    finish-and-flush is reached only from the wrapped end and from the
    catch block.  A handler that returns without ending the response
    leaves its transaction unfinished. *)
Theorem transaction_is_finished_iff_ended_or_thrown (req : Request) (fuel : nat) :
  transactionAttached env = true ->
  weight env (withSentry env origHandler req) <= fuel ->
  let st := run env origHandler fuel (withSentry env origHandler req) in
  (existsb isAnyFinish (events st) = true <->
   0 < countEnds (steps origHandler) \/ exists e, result origHandler = HThrow e) /\
  exists t, __sentryTransaction (res st) = Some t /\
            isFinished t = existsb isAnyFinish (events st).
Proof.
  intros Htx Hfuel st.
  assert (Hq : quiescent st).
  { subst st. rewrite run_enough by exact Hfuel. apply enough_fuel. }
  pose proof (invariant_reachable env origHandler req fuel) as (HT & HM & (F1 & _ & F3)).
  pose proof (success_run env origHandler fuel _ (invariant_start env origHandler req)
                (success_start env origHandler req)) as (_ & _ & H3).
  pose proof (cause_run fuel _ (invariant_start env origHandler req) (cause_start req)) as HC.
  fold st in HT, HM, F1, F3, H3, HC.
  pose proof (main_quiescent env origHandler st HM Hq) as (_ & S2 & _ & S4).
  pose proof HT as (T1 & _ & T3 & _ & T5).
  split.
  - split.
    + intros Hf. apply HC in Hf. apply orb_true_iff in Hf as [Hf|Hf].
      * left. apply anyNewEnd_counted in Hf as [id Hid]. rewrite <- S4.
        rewrite T5 in Hid. destruct (Nat.ltb_spec id (endCalls st)); lia.
      * right. now apply H3.
    + intros [Hends|[e He]].
      * apply (finishBy_any (ByNewEnd 0)).
        apply (precededBy_present _ _ _ (orderedLog_flush _ _ (ByNewEnd 0) Htx T3)).
        apply (precededBy_present _ _ _ (orderedLog_origEnd _ _ 0 T3)).
        apply existsb_count_pos. rewrite (threads_quiescent env st 0 HT Hq).
        rewrite S4. destruct (Nat.ltb_spec 0 (countEnds (steps origHandler))); lia.
      * unfold expectedOutcome in S2. rewrite He in S2.
        apply (finishBy_any (ByCatch (boxedError env e))).
        apply (precededBy_present _ _ _ (orderedLog_flush _ _ _ Htx T3)).
        apply (precededBy_present _ _ _ (orderedLog_rejected _ _ (boxedError env e) T3)).
        apply existsb_exists. exists (EvWrapperSettled (Rejected (boxedError env e))).
        split; [|apply jsval_eqb_refl]. apply settlements_present. rewrite S2. now left.
  - unfold hasTransaction in T1. rewrite Htx in T1.
    destruct (__sentryTransaction (res st)) as [t|]; [|discriminate].
    exists t. split; [reflexivity|].
    destruct (isFinished t).
    + symmetry. apply effective_any. lia.
    + specialize (F3 F1). destruct (existsb isAnyFinish (events st)) eqn:E; [|reflexivity].
      apply count_pos_existsb in E. lia.
Qed.

End FinishCause.

Lemma transaction_is_finished_iff_ended_or_thrown_witness :
  let h := mkHandler "handler" [HSetStatus 204; HAwaitTick] (HReturn VUndefined) in
  let st := run tracingEnv h 30 (withSentry tracingEnv h sampleRequest) in
  (existsb isAnyFinish (events st) = true <->
   0 < countEnds (steps h) \/ exists e, result h = HThrow e) /\
  exists t, __sentryTransaction (res st) = Some t /\
            isFinished t = existsb isAnyFinish (events st).
Proof.
  intros h.
  apply (transaction_is_finished_iff_ended_or_thrown tracingEnv h sampleRequest 30).
  - reflexivity.
  - vm_compute. lia.
Defined.

Lemma flip_back_waits_for_a_later_turn_witness :
  let lg := log (run tracingEnv endsTwice 30 (withSentry tracingEnv endsTwice sampleRequest)) in
  (forall newer t1 id older,
     lg = (newer ++ (t1, EvSetFinished (Some (ByNewEnd id)) false) :: older)%list ->
     exists t0, In (t0, EvNewEnd id) older /\ t0 < t1) /\
  (forall newer t f older,
     lg = (newer ++ (t, EvHostCheck f) :: older)%list ->
     f = true /\ In (t, EvSetFinished None true) older).
Proof.
  apply (flip_back_waits_for_a_later_turn tracingEnv endsTwice sampleRequest 30).
  reflexivity.
Defined.

(** ** How often flush is called *)

Section FlushCalls.

Variable env : Env.
Variable origHandler : Handler.

Ltac ledger :=
  unfold waiting, tasks, count, events in *; cbn in *;
  rewrite ?filter_app, ?length_app in *; cbn in *; try lia.

Lemma flushes_finishSentryWork (c : caller) (st : State) :
  let st' := finishSentryWork env c st in
  waiting beforeFlush (tasks st') + count isFlushCall (events st') =
    S (waiting beforeFlush (tasks st) + count isFlushCall (events st)) /\
  waiting inFlush (tasks st') + count isAnyFlushSettled (events st') + count isFlushCall (events st) =
    waiting inFlush (tasks st) + count isAnyFlushSettled (events st) + count isFlushCall (events st') /\
  endCalls st' = endCalls st /\
  existsb isStatus500 (events st') = existsb isStatus500 (events st).
Proof.
  unfold finishSentryWork, callFlush.
  destruct (__sentryTransaction (res st)); [|destruct (turns _)];
    (split; [ledger|split; [ledger|split; reflexivity]]).
Qed.

Lemma flushes_newEnd (st : State) :
  flushesOk (tasks st) st -> flushesOk (tasks (newEnd env st)) (newEnd env st).
Proof.
  intros [H1 H2]. unfold newEnd.
  destruct (flushes_finishSentryWork (ByNewEnd (endCalls st))
              (emit (EvNewEnd (endCalls st)) (countEnd st))) as (A & B & C & D).
  unfold flushesOk, finishSentryWorkCalls. rewrite C, D.
  unfold finishSentryWorkCalls in H1.
  change (existsb isStatus500 (events (emit (EvNewEnd (endCalls st)) (countEnd st))))
    with (existsb isStatus500 (events st)).
  change (endCalls (emit (EvNewEnd (endCalls st)) (countEnd st))) with (S (endCalls st)).
  change (waiting beforeFlush (tasks (emit (EvNewEnd (endCalls st)) (countEnd st))))
    with (waiting beforeFlush (tasks st)) in A.
  change (waiting inFlush (tasks (emit (EvNewEnd (endCalls st)) (countEnd st))))
    with (waiting inFlush (tasks st)) in B.
  change (count isFlushCall (events (emit (EvNewEnd (endCalls st)) (countEnd st))))
    with (count isFlushCall (events st)) in A, B.
  change (count isAnyFlushSettled (events (emit (EvNewEnd (endCalls st)) (countEnd st))))
    with (count isAnyFlushSettled (events st)) in B.
  lia.
Qed.

Lemma flushes_neutral (t : task) (st : State) :
  beforeFlush t = false -> inFlush t = false ->
  flushesOk (tasks st) st ->
  flushesOk (tasks (pushMicro t st)) (pushMicro t st) /\
  flushesOk (tasks (pushMacro t st)) (pushMacro t st).
Proof.
  intros Hb Hf [H1 H2]. unfold flushesOk, finishSentryWorkCalls in *.
  change (events (pushMicro t st)) with (events st).
  change (events (pushMacro t st)) with (events st).
  change (endCalls (pushMicro t st)) with (endCalls st).
  change (endCalls (pushMacro t st)) with (endCalls st).
  unfold waiting, tasks in *. cbn [micro macro pushMicro pushMacro].
  rewrite !filter_app, !length_app in *. cbn [filter]. rewrite Hb, Hf. cbn [List.length].
  lia.
Qed.

Lemma flushes_runHandler (rest : list hstep) (r : hresult) (st : State) :
  flushesOk (tasks st) st ->
  flushesOk (tasks (runHandler env rest r st)) (runHandler env rest r st).
Proof.
  revert st; induction rest as [|s rest IH]; intros st H.
  - now apply flushes_neutral.
  - destruct s; cbn [runHandler].
    + apply IH. exact H.
    + apply IH. now apply flushes_newEnd.
    + now apply flushes_neutral.
    + now apply flushes_neutral.
Qed.

Lemma flushes_catchBlock (e : jsval) (st : State) :
  existsb isStatus500 (events st) = false ->
  flushesOk (tasks st) st ->
  flushesOk (tasks (catchBlock env origHandler e st)) (catchBlock env origHandler e st).
Proof.
  intros H5 [H1 H2]. unfold catchBlock. destruct (objectify e (heap st)) as [b heap'].
  match goal with |- context [finishSentryWork env ?c ?s] =>
    destruct (flushes_finishSentryWork c s) as (A & B & C & D) end.
  unfold flushesOk, finishSentryWorkCalls in *. rewrite C, D. rewrite H5 in H1.
  destruct (hasScope env); ledger.
Qed.

Lemma flushes_runTask (t : task) (st : State) :
  mainOk env origHandler (t :: tasks st) st ->
  flushesOk (t :: tasks st) st ->
  flushesOk (tasks (runTask env origHandler t st)) (runTask env origHandler t st).
Proof.
  intros HM H.
  assert (Hok : mainTaskOk env origHandler st t).
  { destruct HM as (_ & M2 & _). now inversion M2. }
  destruct t as [rest r|[v|e]|c|c|[|n] o c|o c|[id|b]|[v|e]]; cbn [runTask].
  - apply flushes_runHandler. exact H.
  - apply flushes_neutral; [reflexivity|reflexivity|exact H].
  - apply flushes_catchBlock; [|exact H]. apply Hok.
  - destruct H as [H1 H2]. unfold flushesOk, finishSentryWorkCalls in *.
    destruct (__sentryTransaction (res st)); split; ledger.
  - destruct H as [H1 H2]. unfold flushesOk, finishSentryWorkCalls, callFlush in *.
    destruct (turns _); split; ledger.
  - destruct H as [H1 H2]. unfold flushesOk, finishSentryWorkCalls in *. split; ledger.
  - destruct H as [H1 H2]. unfold flushesOk, finishSentryWorkCalls in *. split; ledger.
  - destruct H as [H1 H2]. unfold flushesOk, finishSentryWorkCalls in *. split; ledger.
  - exact H.
  - apply flushes_neutral; [reflexivity|reflexivity|exact H].
  - exact H.
  - exact H.
Qed.

Lemma flushes_same (Q : list task) (st st' : State) :
  events st' = events st -> endCalls st' = endCalls st ->
  flushesOk Q st -> flushesOk Q st'.
Proof. unfold flushesOk, finishSentryWorkCalls. now intros -> ->. Qed.

Lemma flushes_step (st st' : State) :
  step env origHandler st = Some st' ->
  invariant env origHandler st ->
  flushesOk (tasks st) st -> flushesOk (tasks st') st'.
Proof.
  intros Hs Hi H.
  destruct (step_popped _ _ _ _ Hs Hi) as (t & st0 & -> & _ & HM & _ & Hev & Hq & He).
  apply flushes_runTask; [exact HM|]. rewrite Hq in H.
  eapply flushes_same; [| |exact H]; auto.
Qed.

Lemma flushes_run (fuel : nat) (st : State) :
  invariant env origHandler st ->
  flushesOk (tasks st) st ->
  flushesOk (tasks (run env origHandler fuel st)) (run env origHandler fuel st).
Proof.
  revert st; induction fuel as [|fuel IH]; intros st Hi H; simpl; [exact H|].
  destruct (step env origHandler st) as [st'|] eqn:E; [|exact H].
  apply IH; [eapply invariant_step; eauto|eapply flushes_step; eauto].
Qed.

Lemma flushes_start (req : Request) :
  flushesOk (tasks (withSentry env origHandler req)) (withSentry env origHandler req).
Proof.
  unfold withSentry. apply flushes_runHandler.
  destruct (hasScope env), (tracingEnabled env); split; reflexivity.
Qed.

Lemma rejection_runTask (b : jsval) (t : task) (st : State) :
  match t with TAfterFinishSentryWork (ByCatch _) => False | _ => True end ->
  existsb (isRejection b) (events (runTask env origHandler t st)) =
  existsb (isRejection b) (events st).
Proof.
  intros Ht.
  destruct t as [rest r|[v|e]|c|c|[|n] o c|o c|[id|b']|[v|e]]; try contradiction;
    cbn [runTask]; try reflexivity.
  - now apply quiet_runHandler.
  - unfold catchBlock. destruct (objectify e (heap st)) as [b' heap'].
    rewrite quiet_finishSentryWork by reflexivity. now destruct (hasScope env).
  - now destruct (__sentryTransaction (res st)).
  - unfold callFlush. now destruct (turns _).
Qed.

Lemma status500_stays (t : task) (st : State) :
  existsb isStatus500 (events st) = true ->
  existsb isStatus500 (events (runTask env origHandler t st)) = true.
Proof.
  intros H. destruct (events_runTask env origHandler t st) as [newer ->].
  rewrite existsb_app, H. apply orb_true_r.
Qed.

Lemma rejection_runTask_ok (t : task) (st : State) :
  mainOk env origHandler (t :: tasks st) st ->
  rejectionHas500 st -> rejectionHas500 (runTask env origHandler t st).
Proof.
  intros HM H b.
  assert (Hok : mainTaskOk env origHandler st t).
  { destruct HM as (_ & M2 & _). now inversion M2. }
  destruct t as [rest r|r|c|c|n o c|o c|[id|b']|o];
    try (rewrite rejection_runTask by exact I; intros Hb; apply status500_stays;
         now apply (H b)).
  intros _. apply status500_stays. apply Hok.
Qed.

Lemma rejection_step (st st' : State) :
  step env origHandler st = Some st' ->
  invariant env origHandler st ->
  rejectionHas500 st -> rejectionHas500 st'.
Proof.
  intros Hs Hi H.
  destruct (step_popped _ _ _ _ Hs Hi) as (t & st0 & -> & _ & HM & _ & Hev & _).
  apply rejection_runTask_ok; [exact HM|]. unfold rejectionHas500. now rewrite Hev.
Qed.

Lemma rejection_run (fuel : nat) (st : State) :
  invariant env origHandler st ->
  rejectionHas500 st -> rejectionHas500 (run env origHandler fuel st).
Proof.
  revert st; induction fuel as [|fuel IH]; intros st Hi H; simpl; [exact H|].
  destruct (step env origHandler st) as [st'|] eqn:E; [|exact H].
  apply IH; [eapply invariant_step; eauto|eapply rejection_step; eauto].
Qed.

Lemma rejection_start (req : Request) : rejectionHas500 (withSentry env origHandler req).
Proof.
  intros b. unfold withSentry. rewrite quiet_runHandler by reflexivity.
  destruct (hasScope env), (tracingEnabled env); discriminate.
Qed.

(** X12: how often flush is called.  Every invocation of the wrapped end
    calls flush once and the catch block calls it once, with or without a
    transaction and whatever earlier calls of flush did; every call is
    awaited until it settles.  Once the event loop has run dry, the calls
    and the settlements both number the handler's calls of res.end, plus
    one when the handler threw. *)
Theorem flush_is_called_once_per_end_and_once_on_failure (req : Request) (fuel : nat) :
  weight env (withSentry env origHandler req) <= fuel ->
  let st := run env origHandler fuel (withSentry env origHandler req) in
  let expected := countEnds (steps origHandler) +
                  match result origHandler with HThrow _ => 1 | HReturn _ => 0 end in
  count isFlushCall (events st) = expected /\
  count isAnyFlushSettled (events st) = expected.
Proof.
  intros Hfuel st expected.
  assert (Hq : quiescent st).
  { subst st. rewrite run_enough by exact Hfuel. apply enough_fuel. }
  pose proof (invariant_reachable env origHandler req fuel) as (_ & HM & _).
  pose proof (success_run env origHandler fuel _ (invariant_start env origHandler req)
                (success_start env origHandler req)) as (_ & _ & H3).
  pose proof (flushes_run fuel _ (invariant_start env origHandler req) (flushes_start req))
    as [F1 F2].
  pose proof (rejection_run fuel _ (invariant_start env origHandler req) (rejection_start req))
    as HR.
  fold st in HM, H3, F1, F2, HR.
  pose proof (main_quiescent env origHandler st HM Hq) as (_ & S2 & S3 & S4).
  rewrite (quiescent_tasks _ Hq) in F1, F2. cbn in F1, F2.
  unfold finishSentryWorkCalls in F1. rewrite S4 in F1.
  assert (H5 : (if existsb isStatus500 (events st) then 1 else 0) =
               match result origHandler with HThrow _ => 1 | HReturn _ => 0 end).
  { destruct (existsb isStatus500 (events st)) eqn:E.
    - destruct (H3 eq_refl) as [e ->]. reflexivity.
    - destruct (result origHandler) as [v|e] eqn:Hr; [reflexivity|].
      unfold expectedOutcome in S2. rewrite Hr in S2.
      rewrite (HR (boxedError env e)) in E; [discriminate|].
      apply existsb_exists. exists (EvWrapperSettled (Rejected (boxedError env e))).
      split; [|apply jsval_eqb_refl]. apply settlements_present. rewrite S2. now left. }
  subst expected. lia.
Qed.

End FlushCalls.

Lemma flush_is_called_once_per_end_and_once_on_failure_witness :
  let h := mkHandler "handler" [HEnd; HAwaitTick; HEnd] (HThrow (VString "boom")) in
  let st := run noClientEnv h 40 (withSentry noClientEnv h sampleRequest) in
  count isFlushCall (events st) = 3 /\ count isAnyFlushSettled (events st) = 3.
Proof.
  intros h.
  apply (flush_is_called_once_per_end_and_once_on_failure noClientEnv h sampleRequest 40).
  vm_compute. lia.
Defined.

(** ** A handler that throws, with or without tracing *)

Section ThrowingHandler.

Variable env : Env.
Variable origHandler : Handler.

(** X13: a handler that throws, whether or not a transaction or a scope
    exists.  Once the event loop has run dry the response carries status
    500 with the message Internal Server Error, whatever status the
    handler had written itself, and the wrapper has rejected, once, with
    the boxed error; with a scope the boxed error went to captureException
    once, without a scope nothing was captured and the error is only
    rethrown. *)
Theorem thrown_handler_ends_with_status_500 (req : Request) (fuel : nat) (e : jsval) :
  result origHandler = HThrow e ->
  weight env (withSentry env origHandler req) <= fuel ->
  let st := run env origHandler fuel (withSentry env origHandler req) in
  statusCode (res st) = 500%Z /\
  statusMessage (res st) = "Internal Server Error" /\
  settlements (events st) = [Rejected (boxedError env e)] /\
  List.length (captured (events st)) = (if hasScope env then 1 else 0).
Proof.
  intros Hr Hfuel st.
  assert (Hq : quiescent st).
  { subst st. rewrite run_enough by exact Hfuel. apply enough_fuel. }
  pose proof (invariant_reachable env origHandler req fuel) as (_ & HM & _).
  pose proof (rejection_run env origHandler fuel _ (invariant_start env origHandler req)
                (rejection_start env origHandler req)) as HR.
  fold st in HM, HR.
  pose proof (main_quiescent env origHandler st HM Hq) as (_ & S2 & S3 & _).
  unfold expectedOutcome in S2. unfold expectedCaptures in S3. rewrite Hr in S2, S3.
  assert (H5 : existsb isStatus500 (events st) = true).
  { apply (HR (boxedError env e)).
    apply existsb_exists. exists (EvWrapperSettled (Rejected (boxedError env e))).
    split; [|apply jsval_eqb_refl]. apply settlements_present. rewrite S2. now left. }
  destruct HM as (_ & _ & _ & _ & M5 & _). destruct (M5 H5) as (A & B & _).
  split; [exact A|]. split; [exact B|]. split; [exact S2|].
  rewrite S3. now destruct (hasScope env).
Qed.

End ThrowingHandler.

Lemma thrown_handler_ends_with_status_500_witness :
  let env := mkEnv false false [mkFlush 1 (FlushRejected (VString "offline"))] 255 [] in
  let h := mkHandler "handler" [HSetStatus 201; HEnd; HAwaitImmediate] (HThrow (VString "boom")) in
  let st := run env h 40 (withSentry env h sampleRequest) in
  statusCode (res st) = 500%Z /\
  statusMessage (res st) = "Internal Server Error" /\
  settlements (events st) = [Rejected (boxedError env (VString "boom"))] /\
  List.length (captured (events st)) = 0.
Proof.
  intros env h.
  apply (thrown_handler_ends_with_status_500 env h sampleRequest 40 (VString "boom")).
  - reflexivity.
  - vm_compute. lia.
Defined.

(** * The status a failed handler's transaction is finished with *)

Section FinishCallers.

Variable env : Env.
Variable origHandler : Handler.










End FinishCallers.



